(** * Airdrop claim pipeline: proof server, Airdrop contract and relayer

    A shallow embedding of the Merkle airdrop project of the repository:
    - the proof server ([encodeLeaf], the Merkle tree built at start-up and
      the [GET /proof/:address/:amount] handler);
    - the [Airdrop] contract ([claim], [setMerkleRoot]);
    - the relayer ([POST /relay-claim] with its nonce set and pending map).

    Buffers are lists of bytes, JavaScript strings are [string]s, Solidity
    integers are [Z] with their width written out, the JavaScript [Set] and
    [Map] of the relayer are a [gset] and a [gmap]. *)

From Stdlib Require Import Ascii String Strings.Byte Lia.
From stdpp Require Import gmap strings list.

Local Open Scope Z_scope.

(** ** Bytes and hexadecimal text *)

Module Bytes.

Abbreviation Buffer := (list byte).

#[global] Instance byte_eq_dec : EqDecision byte := Byte.byte_eq_dec.

Definition Z_of_byte (b : byte) : Z := Z.of_N (Byte.to_N b).

Definition byte_of_Z (z : Z) : byte :=
  match Byte.of_N (Z.to_N (z mod 256)) with
  | Some b => b
  | None => Byte.x00
  end.

Definition charCode (c : ascii) : Z := Z.of_N (N_of_ascii c).

(** Value of one hexadecimal digit, either case. *)
Definition hexValue (c : ascii) : option Z :=
  let n := charCode c in
  if (48 <=? n) && (n <=? 57) then Some (n - 48)
  else if (97 <=? n) && (n <=? 102) then Some (n - 87)
  else if (65 <=? n) && (n <=? 70) then Some (n - 55)
  else None.

(** The lower-case digit that [toString(16)] and [toString('hex')] print. *)
Definition hexDigit (d : Z) : ascii :=
  ascii_of_N (Z.to_N (if d <? 10 then 48 + d else 87 + d)).

(** [Buffer.from(s, 'hex')]: two digits per byte; decoding stops at the
    first pair that is not two hexadecimal digits, and a trailing single
    character is dropped. *)
Fixpoint Buffer_from_hex (s : list ascii) : Buffer :=
  match s with
  | hi :: lo :: rest =>
      match hexValue hi, hexValue lo with
      | Some h, Some l => byte_of_Z (16 * h + l) :: Buffer_from_hex rest
      | _, _ => []
      end
  | _ => []
  end.

(** [buf.toString('hex')]. *)
Fixpoint Buffer_toString_hex (b : Buffer) : list ascii :=
  match b with
  | [] => []
  | x :: rest =>
      hexDigit (Z_of_byte x / 16) :: hexDigit (Z_of_byte x mod 16)
        :: Buffer_toString_hex rest
  end.

(** [Buffer.compare]: byte-wise lexicographic order, a proper prefix first. *)
Fixpoint Buffer_compare (a b : Buffer) : comparison :=
  match a, b with
  | [], [] => Eq
  | [], _ :: _ => Lt
  | _ :: _, [] => Gt
  | x :: a', y :: b' =>
      match Z_of_byte x ?= Z_of_byte y with
      | Eq => Buffer_compare a' b'
      | c => c
      end
  end.

(** Big-endian unsigned integer of fixed width, as [abi.encodePacked]
    lays out [address] (20 bytes) and [uint256] (32 bytes). *)
Fixpoint be_bytes (width : nat) (n : Z) : Buffer :=
  match width with
  | O => []
  | S w => be_bytes w (n / 256) ++ [byte_of_Z (n mod 256)]
  end.

(** The unsigned integer a byte string denotes, most significant byte first. *)
Definition be_value (b : Buffer) : Z :=
  fold_left (fun acc x => 256 * acc + Z_of_byte x) b 0.

(** A digest: the 32 bytes of a [keccak256] output, a [bytes32]. *)
Definition is_digest (d : Buffer) : Prop := length d = 32%nat.

(** The [k] hexadecimal digits of [n], most significant first (used to
    state what [toString(16)] prints). *)
Fixpoint nibbles (k : nat) (n : Z) : list Z :=
  match k with
  | O => []
  | S k' => nibbles k' (n / 16) ++ [n mod 16]
  end.

End Bytes.

(** ** JavaScript strings and [BigInt] *)

Module JS.
Import Bytes.

Definition chars (s : string) : list ascii := list_ascii_of_string s.

Definition toLowerChar (c : ascii) : ascii :=
  let n := charCode c in
  if (65 <=? n) && (n <=? 90) then ascii_of_N (Z.to_N (n + 32)) else c.

(** [s.toLowerCase()] on ASCII text. *)
Definition toLowerCase (s : string) : string :=
  string_of_list_ascii (map toLowerChar (chars s)).

(** [s.padStart(targetLength, fill)] with a one-character filler. *)
Definition padStart (targetLength : nat) (fill : ascii) (s : list ascii) : list ascii :=
  repeat fill (targetLength - length s) ++ s.

(** [s.replace(/^0x/, '')]. *)
Definition replace_0x (s : list ascii) : list ascii :=
  match s with
  | c0 :: c1 :: rest =>
      if Ascii.eqb c0 "0" && Ascii.eqb c1 "x" then rest else s
  | _ => s
  end.

Definition isWhiteSpace (c : ascii) : bool :=
  let n := charCode c in
  ((9 <=? n) && (n <=? 13)) || (n =? 32).

Fixpoint trimStart (s : list ascii) : list ascii :=
  match s with
  | c :: rest => if isWhiteSpace c then trimStart rest else s
  | [] => []
  end.

Definition trim (s : list ascii) : list ascii :=
  rev (trimStart (rev (trimStart s))).

Fixpoint digitsValue (radix : Z) (s : list ascii) (acc : Z) : option Z :=
  match s with
  | [] => Some acc
  | c :: rest =>
      match hexValue c with
      | Some d => if d <? radix then digitsValue radix rest (acc * radix + d) else None
      | None => None
      end
  end.

Definition parseDigits (radix : Z) (s : list ascii) : option Z :=
  match s with
  | [] => None
  | _ => digitsValue radix s 0
  end.

(** [BigInt(s)] for a string argument (StringToBigInt): surrounding white
    space is ignored, the empty string is [0n], a decimal literal may carry
    a sign, [0x], [0o] and [0b] literals may not; anything else throws a
    [SyntaxError], which is [None] here. *)
Definition BigInt (s : string) : option Z :=
  match trim (chars s) with
  | [] => Some 0
  | c0 :: rest =>
      if Ascii.eqb c0 "+" then parseDigits 10 rest
      else if Ascii.eqb c0 "-" then Z.opp <$> parseDigits 10 rest
      else if Ascii.eqb c0 "0" then
        match rest with
        | c1 :: ds =>
            if Ascii.eqb c1 "x" || Ascii.eqb c1 "X" then parseDigits 16 ds
            else if Ascii.eqb c1 "o" || Ascii.eqb c1 "O" then parseDigits 8 ds
            else if Ascii.eqb c1 "b" || Ascii.eqb c1 "B" then parseDigits 2 ds
            else parseDigits 10 (c0 :: rest)
        | [] => Some 0
        end
      else parseDigits 10 (c0 :: rest)
  end.

Fixpoint hexDigits (fuel : nat) (n : Z) (acc : list ascii) : list ascii :=
  match fuel with
  | O => acc
  | S f =>
      if n <? 16 then hexDigit n :: acc
      else hexDigits f (n / 16) (hexDigit (n mod 16) :: acc)
  end.

(** [bn.toString(16)]: no leading zeros, a minus sign for negatives. *)
Definition BigInt_toString16 (bn : Z) : list ascii :=
  if bn <? 0
  then "-"%char :: hexDigits (S (Z.to_nat (Z.log2 (- bn)))) (- bn) []
  else hexDigits (S (Z.to_nat (Z.log2 bn))) bn [].

End JS.

(** ** The Merkle tree class of the proof server

    The proof server builds its tree with
    [new MerkleTree(leaves, keccak256, { sortPairs: true })] (merkletreejs).
    This is that class with those options: leaves are taken as given (no
    [hashLeaves], no [sortLeaves]), every pair is sorted with [Buffer.compare]
    before it is concatenated and hashed, and the last node of a layer of odd
    length is pushed to the next layer as it is (no [duplicateOdd]). *)

Module MerkleTreeJS.
Import Bytes.

Record MerkleTree := {
  leaves : list Buffer;
  layers : list (list Buffer)
}.

Section WithHash.
Variable hashFn : Buffer -> Buffer.

(** [combined.sort(Buffer.compare)] on the two-element array [[left, right]]. *)
Definition sortPair (left right : Buffer) : list Buffer :=
  match Buffer_compare left right with
  | Gt => [right; left]
  | _ => [left; right]
  end.

(** [hashFn(Buffer.concat(combined))]. *)
Definition hashPair (left right : Buffer) : Buffer :=
  hashFn (concat (sortPair left right)).

(** One turn of the [while] loop of [createHashes]: the [for] loop over
    the nodes of a layer, two at a time. *)
Fixpoint nextLayer (nodes : list Buffer) : list Buffer :=
  match nodes with
  | l :: r :: rest => hashPair l r :: nextLayer rest
  | [unpaired] => [unpaired]
  | [] => []
  end.

(** [createHashes]: [layers = [nodes]], then [while (nodes.length > 1)]
    push the next layer. The fuel bounds the number of turns. *)
Fixpoint createHashes (fuel : nat) (nodes : list Buffer) : list (list Buffer) :=
  nodes ::
    match fuel with
    | S f => if (1 <? length nodes)%nat then createHashes f (nextLayer nodes) else []
    | O => []
    end.

Definition new_MerkleTree (leaves : list Buffer) : MerkleTree :=
  {| leaves := leaves; layers := createHashes (length leaves) leaves |}.

End WithHash.

(** [getRoot]: [this.layers[this.layers.length - 1][0] || Buffer.from([])]. *)
Definition getRoot (t : MerkleTree) : Buffer :=
  match last (layers t) with
  | Some (r :: _) => r
  | _ => []
  end.

(** [bufferToHex]. *)
Definition bufferToHex (b : Buffer) : string :=
  string_of_list_ascii ("0"%char :: "x"%char :: Buffer_toString_hex b).

Definition getHexRoot (t : MerkleTree) : string := bufferToHex (getRoot t).

(** The index search of [getProof]: the loop runs over all the leaves
    without a [break], so the last equal leaf wins; [None] is [-1]. *)
Fixpoint leafIndex (leaf : Buffer) (ls : list Buffer) (i : nat) (index : option nat)
  : option nat :=
  match ls with
  | [] => index
  | l :: rest =>
      leafIndex leaf rest (S i)
        (match Buffer_compare leaf l with Eq => Some i | _ => index end)
  end.

(** The loop of [getProof] over the layers, from the leaves upwards. *)
Fixpoint proofFrom (ls : list (list Buffer)) (index : nat) : list Buffer :=
  match ls with
  | [] => []
  | layer :: rest =>
      let pairIndex := if Nat.odd index then (index - 1)%nat else (index + 1)%nat in
      match layer !! pairIndex with
      | Some sibling => sibling :: proofFrom rest (index / 2)%nat
      | None => proofFrom rest (index / 2)%nat
      end
  end.

Definition getProof (t : MerkleTree) (leaf : Buffer) : list Buffer :=
  match leafIndex leaf (leaves t) 0%nat None with
  | None => []
  | Some index => proofFrom (layers t) index
  end.

Definition getHexProof (t : MerkleTree) (leaf : Buffer) : list string :=
  map bufferToHex (getProof t leaf).

End MerkleTreeJS.

(** ** The proof server *)

Module ProofServer.
Import Bytes JS MerkleTreeJS.

(** One element of [whitelist.json]: [{ "address": "0x...", "amount": "100" }]. *)
Record entry := { address : string; amount : string }.

(** [encodeLeaf(addr, amount)]; [None] is the [SyntaxError] of [BigInt]. *)
Definition encodeLeaf (addr amount : string) : option Buffer :=
  let addrBuf := Buffer_from_hex (padStart 40 "0" (replace_0x (chars addr))) in
  bn ← BigInt amount;
  let amountHex := padStart 64 "0" (BigInt_toString16 bn) in
  let amountBuf := Buffer_from_hex amountHex in
  Some (addrBuf ++ amountBuf).

Inductive response :=
| NotFound (error : string)
| ProofData (address amount : string) (proof : list string) (leaf root : string).

Record server := {
  whitelist : list entry;
  tree : MerkleTree;
  root : string
}.

Section WithHash.
Variable keccak256 : Buffer -> Buffer.

(** [whitelist.map(e => keccak256(encodeLeaf(e.address.toLowerCase(), e.amount)))]. *)
Definition leavesOf (wl : list entry) : option (list Buffer) :=
  mapM (fun e => keccak256 <$> encodeLeaf (toLowerCase (address e)) (amount e)) wl.

(** The module's top level: leaves, tree and root; [None] when
    [encodeLeaf] throws on an entry and the process dies. *)
Definition start (wl : list entry) : option server :=
  ls ← leavesOf wl;
  let t := new_MerkleTree keccak256 ls in
  Some {| whitelist := wl; tree := t; root := getHexRoot t |}.

Definition matches (addr amount : string) (e : entry) : bool :=
  String.eqb (toLowerCase (address e)) addr && String.eqb (ProofServer.amount e) amount.

(** [GET /proof/:address/:amount]; the outer [None] is an exception
    escaping the handler. *)
Definition get_proof (srv : server) (address amount : string) : option response :=
  let addr := toLowerCase address in
  match find (matches addr amount) (whitelist srv) with
  | None => Some (NotFound "Address not found in whitelist or amount mismatch")
  | Some _ =>
      leaf ← keccak256 <$> encodeLeaf addr amount;
      let proof := getHexProof (tree srv) leaf in
      Some (ProofData addr amount proof (bufferToHex leaf) (root srv))
  end.

End WithHash.

End ProofServer.

(** ** The Airdrop contract *)

Module Airdrop.
Import Bytes.

(** Storage: [Ownable]'s owner, [merkleRoot], and [claimed] with the
    default [false] of a Solidity mapping. *)
Record storage := {
  owner : Z;
  merkleRoot : Buffer;
  claimed : gmap Z bool
}.

Definition claimed_at (st : storage) (account : Z) : bool :=
  default false (claimed st !! account).

Inductive event := Claimed (account amount : Z).

Inductive outcome :=
| Revert (reason : string)
| Success (st : storage) (logs : list event).

Definition constructor (msg_sender : Z) (_root : Buffer) : storage :=
  {| owner := msg_sender; merkleRoot := _root; claimed := ∅ |}.

Section WithHash.
Variable keccak256 : Buffer -> Buffer.

(** [bytes32] operands compare as 256-bit unsigned integers. *)
Definition bytes32_lt (a b : Buffer) : bool := be_value a <? be_value b.

Definition _efficientHash (a b : Buffer) : Buffer := keccak256 (a ++ b).

Definition _hashPair (a b : Buffer) : Buffer :=
  if bytes32_lt a b then _efficientHash a b else _efficientHash b a.

(** [MerkleProof.processProof] and [MerkleProof.verify]. *)
Definition processProof (proof : list Buffer) (leaf : Buffer) : Buffer :=
  fold_left _hashPair proof leaf.

Definition verify (proof : list Buffer) (root leaf : Buffer) : bool :=
  bool_decide (processProof proof leaf = root).

(** [abi.encodePacked(msg.sender, amount)] for [address] and [uint256]. *)
Definition encodePacked (account amount : Z) : Buffer :=
  be_bytes 20 account ++ be_bytes 32 amount.

Definition claim (msg_sender amount : Z) (proof : list Buffer) (st : storage) : outcome :=
  if claimed_at st msg_sender then Revert "Already claimed"
  else
    let leaf := keccak256 (encodePacked msg_sender amount) in
    if verify proof (merkleRoot st) leaf
    then Success {| owner := owner st; merkleRoot := merkleRoot st;
                    claimed := <[msg_sender := true]> (claimed st) |}
                 [Claimed msg_sender amount]
    else Revert "Invalid proof".

End WithHash.

(** [onlyOwner] functions: [setMerkleRoot] of the contract and the two
    that [Ownable] brings. *)
Definition setMerkleRoot (msg_sender : Z) (_root : Buffer) (st : storage) : outcome :=
  if msg_sender =? owner st
  then Success {| owner := owner st; merkleRoot := _root; claimed := claimed st |} []
  else Revert "Ownable: caller is not the owner".

Definition transferOwnership (msg_sender newOwner : Z) (st : storage) : outcome :=
  if msg_sender =? owner st
  then if newOwner =? 0 then Revert "Ownable: new owner is the zero address"
       else Success {| owner := newOwner; merkleRoot := merkleRoot st; claimed := claimed st |} []
  else Revert "Ownable: caller is not the owner".

Definition renounceOwnership (msg_sender : Z) (st : storage) : outcome :=
  if msg_sender =? owner st
  then Success {| owner := 0; merkleRoot := merkleRoot st; claimed := claimed st |} []
  else Revert "Ownable: caller is not the owner".

(** How a caller's hexadecimal string becomes a [bytes32] argument: [0x]
    and exactly 64 hexadecimal digits, anything else is refused. *)
Definition bytes32_of_hex (s : string) : option Buffer :=
  match JS.chars s with
  | c0 :: c1 :: ds =>
      let b := Buffer_from_hex ds in
      if Ascii.eqb c0 "0" && Ascii.eqb c1 "x"
         && (length ds =? 64)%nat && (length b =? 32)%nat
      then Some b else None
  | _ => None
  end.

(** The state-changing functions of the deployed contract. *)
Inductive call :=
| Claim (msg_sender amount : Z) (proof : list Buffer)
| SetMerkleRoot (msg_sender : Z) (_root : Buffer)
| TransferOwnership (msg_sender newOwner : Z)
| RenounceOwnership (msg_sender : Z).

Definition exec (keccak256 : Buffer -> Buffer) (st : storage) (c : call) : outcome :=
  match c with
  | Claim msg_sender amount proof => claim keccak256 msg_sender amount proof st
  | SetMerkleRoot msg_sender _root => setMerkleRoot msg_sender _root st
  | TransferOwnership msg_sender newOwner => transferOwnership msg_sender newOwner st
  | RenounceOwnership msg_sender => renounceOwnership msg_sender st
  end.

(** A sequence of transactions: a reverted one leaves the storage as it
    was and logs nothing. *)
Fixpoint run (keccak256 : Buffer -> Buffer) (st : storage) (cs : list call)
  : storage * list event :=
  match cs with
  | [] => (st, [])
  | c :: rest =>
      match exec keccak256 st c with
      | Revert _ => run keccak256 st rest
      | Success st' logs =>
          let '(st'', logs') := run keccak256 st' rest in (st'', logs ++ logs')
      end
  end.

(** How many [Claimed] events of a log are for [account]. *)
Fixpoint claims_of (account : Z) (logs : list event) : nat :=
  match logs with
  | [] => 0%nat
  | Claimed a _ :: rest =>
      if a =? account then S (claims_of account rest) else claims_of account rest
  end.

End Airdrop.

(** ** The relayer *)

Module Relayer.
Import JS.

(** A field of the JSON request body. Numbers are the integers, the only
    numbers the [uint256] fields of [TYPES] take; [VUndefined] is an
    absent field. These are the primitive values of JSON, which
    [usedNonces] compares by value and without conversion (the number [7]
    and the string ["7"] are two nonces). Arrays and objects are left out:
    the set compares them by identity, and no two requests carry the same
    one. *)
Inductive value :=
| VUndefined
| VNull
| VBool (b : bool)
| VNum (n : Z)
| VStr (s : string).

#[global] Instance value_eq_dec : EqDecision value.
Proof. solve_decision. Defined.

#[global] Instance value_countable : Countable value.
Proof.
  refine (inj_countable'
    (fun v => match v with
              | VUndefined => inl (inl ())
              | VNull => inl (inr ())
              | VBool b => inr (inl b)
              | VNum n => inr (inr (inl n))
              | VStr s => inr (inr (inr s))
              end)
    (fun x => match x with
              | inl (inl _) => VUndefined
              | inl (inr _) => VNull
              | inr (inl b) => VBool b
              | inr (inr (inl n)) => VNum n
              | inr (inr (inr s)) => VStr s
              end) _).
  by intros [].
Defined.

(** ToBoolean: what [!v] negates. *)
Definition truthy (v : value) : bool :=
  match v with
  | VUndefined | VNull => false
  | VBool b => b
  | VNum n => negb (n =? 0)
  | VStr s => negb (String.eqb s "")
  end.

(** [req.body], destructured into the five fields the handler reads. *)
Record body := {
  recipient : value;
  amount : value;
  nonce : value;
  deadline : value;
  signature : value
}.

(** A value of [pendingTxs]: [{ recipient, amount, timestamp }]. *)
Record pendingTx := {
  pending_recipient : value;
  pending_amount : value;
  timestamp : Z
}.

(** The two module-level registries: [usedNonces] (a [Set]) and
    [pendingTxs] (a [Map] keyed by transaction hash). *)
Record state := {
  usedNonces : gset value;
  pendingTxs : gmap string pendingTx
}.

Definition initial : state := {| usedNonces := ∅; pendingTxs := ∅ |}.

(** The replies of [POST /relay-claim]: [res.status(400).json({ error })],
    [res.status(500).json({ error, details })] and
    [res.json({ success: true, txHash, message })]. *)
Inductive response :=
| BadRequest (error : string)
| ServerError (error details : string)
| Submitted (txHash message : string).

(** A promise settles with a value or with an error message. *)
Inductive result (A : Type) :=
| Resolved (a : A)
| Rejected (message : string).
Arguments Resolved {A} a.
Arguments Rejected {A} message.

(** The steps of the pipeline, in the order the handler reaches them. *)
Inductive check :=
| ShapeCheck
| DeadlineCheck
| NonceCheck
| SignatureCheck
| ClaimedCheck
| EligibilityCheck
| Submit.

#[global] Instance check_eq_dec : EqDecision check.
Proof. solve_decision. Defined.

(** Where an invocation of the handler is suspended: at one of its three
    [await]s, or after its reply, with [tx.wait()] outstanding. *)
Inductive stage :=
| AwaitClaimed
| AwaitProof
| AwaitClaim (proof : list string)
| AwaitReceipt (txHash : string).

(** What the outside world settles a suspended invocation with:
    [contract.claimed(recipient)], the [proof] field of the proof server's
    reply ([None] when it is missing), the hash of the transaction
    [contract.claim] sent, the receipt of [tx.wait()]. *)
Inductive answer :=
| ClaimedAnswer (r : result bool)
| ProofAnswer (r : result (option (list string)))
| ClaimAnswer (r : result string)
| ReceiptAnswer (r : result unit).

(** What one run of the handler between two suspensions did: the
    registries it leaves, its reply if it sent one, where it is suspended
    if it is, and the steps it entered. *)
Record outcome := {
  store : state;
  reply : option response;
  next : option stage;
  performed : list check
}.

(** [usedNonces.add(nonce)], [usedNonces.delete(nonce)],
    [pendingTxs.set(hash, ...)] and [pendingTxs.delete(hash)]. *)
Definition add_nonce (n : value) (st : state) : state :=
  {| usedNonces := {[n]} ∪ usedNonces st; pendingTxs := pendingTxs st |}.

Definition delete_nonce (n : value) (st : state) : state :=
  {| usedNonces := usedNonces st ∖ {[n]}; pendingTxs := pendingTxs st |}.

Definition set_pending (h : string) (p : pendingTx) (st : state) : state :=
  {| usedNonces := usedNonces st; pendingTxs := <[h := p]> (pendingTxs st) |}.

Definition delete_pending (h : string) (st : state) : state :=
  {| usedNonces := usedNonces st; pendingTxs := delete h (pendingTxs st) |}.

(** [return res.status(400).json({ error })]. *)
Definition rejected (st : state) (error : string) (done : list check) : outcome :=
  {| store := st; reply := Some (BadRequest error); next := None; performed := done |}.

(** The handler stops at an [await]. *)
Definition suspended (st : state) (s : stage) (done : list check) : outcome :=
  {| store := st; reply := None; next := Some s; performed := done |}.

(** The [catch] block of the handler. *)
Definition catch_block (st : state) (req : body) (message : string) (done : list check)
  : outcome :=
  {| store := if truthy (nonce req) then delete_nonce (nonce req) st else st;
     reply := Some (ServerError "Failed to relay transaction" message);
     next := None;
     performed := done |}.

(** [getProofFromServer]: any failure of the request is rethrown as one
    fixed error. *)
Definition getProofFromServer (r : result (option (list string)))
  : result (option (list string)) :=
  match r with
  | Resolved data => Resolved data
  | Rejected _ => Rejected "Failed to fetch proof from server"
  end.

(** [!recipient || !amount || !nonce || !deadline || !signature]. *)
Definition missing_fields (req : body) : bool :=
  negb (truthy (recipient req)) || negb (truthy (amount req)) || negb (truthy (nonce req))
  || negb (truthy (deadline req)) || negb (truthy (signature req)).

Section WithEngine.

(** [ethers.utils._TypedDataEncoder.hash(DOMAIN, TYPES, message)] followed
    by [ethers.utils.recoverAddress(digest, signature)]; [None] when either
    throws. *)
Variable recoverAddress : body -> option string.

(** [ToNumber(s) < x] for a string [s], as the engine evaluates it. *)
Variable StringToNumber_lt : string -> Z -> bool.

(** [currentTime > deadline]. *)
Definition expired (currentTime : Z) (deadline : value) : bool :=
  match deadline with
  | VNum d => d <? currentTime
  | VBool b => (if b then 1 else 0) <? currentTime
  | VNull => 0 <? currentTime
  | VUndefined => false
  | VStr s => StringToNumber_lt s currentTime
  end.

(** [verifySignature(message, signature, recipient)]: every exception
    inside its [try] makes it [false]. *)
Definition verifySignature (req : body) : bool :=
  match recoverAddress req with
  | Some recoveredAddress =>
      match recipient req with
      | VStr expectedSigner =>
          String.eqb (toLowerCase recoveredAddress) (toLowerCase expectedSigner)
      | _ => false
      end
  | None => false
  end.

(** [POST /relay-claim] from its entry to the first [await]. *)
Definition receive (now : Z) (st : state) (req : body) : outcome :=
  if missing_fields req
  then rejected st "Missing required fields: recipient, amount, nonce, deadline, signature"
         [ShapeCheck]
  else
    let currentTime := now / 1000 in
    if expired currentTime (deadline req)
    then rejected st "Request expired" [ShapeCheck; DeadlineCheck]
    else if bool_decide (nonce req ∈ usedNonces st)
    then rejected st "Nonce already used" [ShapeCheck; DeadlineCheck; NonceCheck]
    else if negb (verifySignature req)
    then rejected st "Invalid signature" [ShapeCheck; DeadlineCheck; NonceCheck; SignatureCheck]
    else suspended st AwaitClaimed
           [ShapeCheck; DeadlineCheck; NonceCheck; SignatureCheck; ClaimedCheck].

(** The handler from one [await] to the next, or to its end, and the two
    callbacks of [tx.wait()]; [None] when the answer is not the one the
    invocation is waiting for. *)
Definition resume (now : Z) (st : state) (req : body) (s : stage) (a : answer)
  : option outcome :=
  match s, a with
  | AwaitClaimed, ClaimedAnswer (Rejected message) => Some (catch_block st req message [])
  | AwaitClaimed, ClaimedAnswer (Resolved alreadyClaimed) =>
      if alreadyClaimed then Some (rejected st "Already claimed" [])
      else Some (suspended st AwaitProof [EligibilityCheck])
  | AwaitProof, ProofAnswer r =>
      match getProofFromServer r with
      | Rejected message => Some (catch_block st req message [])
      | Resolved None => Some (rejected st "Invalid proof or not eligible" [])
      | Resolved (Some proof) =>
          Some (suspended (add_nonce (nonce req) st) (AwaitClaim proof) [Submit])
      end
  | AwaitClaim _, ClaimAnswer (Rejected message) => Some (catch_block st req message [])
  | AwaitClaim _, ClaimAnswer (Resolved hash) =>
      Some {| store := set_pending hash
                         {| pending_recipient := recipient req;
                            pending_amount := amount req;
                            timestamp := now |} st;
              reply := Some (Submitted hash "Claim transaction submitted successfully");
              next := Some (AwaitReceipt hash);
              performed := [] |}
  | AwaitReceipt hash, ReceiptAnswer (Resolved _) =>
      Some {| store := delete_pending hash st; reply := None; next := None;
              performed := [] |}
  | AwaitReceipt hash, ReceiptAnswer (Rejected _) =>
      Some {| store := delete_nonce (nonce req) (delete_pending hash st);
              reply := None; next := None; performed := [] |}
  | _, _ => None
  end.

(** The answers one invocation gets, when it runs without another request
    in between: [Date.now()] and the results of the three [await]s. *)
Record env := {
  now : Z;
  claimed_answer : result bool;
  proof_answer : result (option (list string));
  claim_answer : result string
}.

Definition and_then (t : Z) (req : body) (o : outcome) (a : answer) : outcome :=
  match next o with
  | Some s =>
      match resume t (store o) req s a with
      | Some o' =>
          {| store := store o';
             reply := match reply o' with Some r => Some r | None => reply o end;
             next := next o';
             performed := performed o ++ performed o' |}
      | None => o
      end
  | None => o
  end.

(** One invocation of the handler up to its reply. *)
Definition relay_claim (e : env) (st : state) (req : body) : outcome :=
  let o0 := receive (now e) st req in
  let o1 := and_then (now e) req o0 (ClaimedAnswer (claimed_answer e)) in
  let o2 := and_then (now e) req o1 (ProofAnswer (proof_answer e)) in
  and_then (now e) req o2 (ClaimAnswer (claim_answer e)).

(** The registries after the [then] or the [catch] callback of
    [tx.wait()]. *)
Definition settle (o : outcome) (req : body) (r : result unit) : state :=
  match next o with
  | Some (AwaitReceipt hash) =>
      match resume 0 (store o) req (AwaitReceipt hash) (ReceiptAnswer r) with
      | Some o' => store o'
      | None => store o
      end
  | _ => store o
  end.

(** *** Interleaved invocations

    Node runs one handler at a time but switches at every [await]: the
    system is the two registries, the suspended invocations, and (for the
    statements only) the requests whose transaction was confirmed. *)
Record task := { request : body; at_stage : stage }.

Record system := {
  registries : state;
  inflight : list task;
  confirmed : list body
}.

Definition boot : system :=
  {| registries := initial; inflight := []; confirmed := [] |}.

Inductive label :=
| Arrive (t : Z) (req : body)
| Deliver (t : Z) (i : nat) (a : answer).

Definition is_confirmation (s : stage) (a : answer) : bool :=
  match s, a with
  | AwaitReceipt _, ReceiptAnswer (Resolved _) => true
  | _, _ => false
  end.

Definition sys_step (s : system) (l : label) : option system :=
  match l with
  | Arrive t req =>
      let o := receive t (registries s) req in
      Some {| registries := store o;
              inflight := inflight s ++
                            match next o with
                            | Some st => [{| request := req; at_stage := st |}]
                            | None => []
                            end;
              confirmed := confirmed s |}
  | Deliver t i a =>
      tk ← inflight s !! i;
      o ← resume t (registries s) (request tk) (at_stage tk) a;
      Some {| registries := store o;
              inflight := match next o with
                          | Some st => <[i := {| request := request tk; at_stage := st |}]>
                                         (inflight s)
                          | None => delete i (inflight s)
                          end;
              confirmed := if is_confirmation (at_stage tk) a
                           then request tk :: confirmed s else confirmed s |}
  end.

Fixpoint sys_run (s : system) (ls : list label) : option system :=
  match ls with
  | [] => Some s
  | l :: rest => s' ← sys_step s l; sys_run s' rest
  end.

(** The same request, submitted again on the registries [st], goes all the
    way to a submitted transaction once the outside world answers well. *)
Definition accepted_again (st : state) (req : body) : Prop :=
  forall (e : env) (proof : list string) (hash : string),
    expired (now e / 1000) (deadline req) = false ->
    claimed_answer e = Resolved false ->
    proof_answer e = Resolved (Some proof) ->
    claim_answer e = Resolved hash ->
    reply (relay_claim e st req)
    = Some (Submitted hash "Claim transaction submitted successfully").

End WithEngine.

(** The invocation holds its nonce in [usedNonces]: it is past
    [usedNonces.add(nonce)] and has not settled. *)
Definition holds_nonce (n : value) (tk : task) : Prop :=
  nonce (request tk) = n /\
  match at_stage tk with
  | AwaitClaim _ | AwaitReceipt _ => True
  | _ => False
  end.

(** Every nonce of [usedNonces] is held by a suspended invocation or is
    the nonce of a confirmed transaction; and a suspended invocation is past
    the validation of its fields. *)
Definition accounted (s : system) : Prop :=
  (forall n, n ∈ usedNonces (registries s) ->
     (exists j tk, inflight s !! j = Some tk /\ holds_nonce n tk)
     \/ (exists r, r ∈ confirmed s /\ nonce r = n))
  /\ (forall j tk, inflight s !! j = Some tk -> missing_fields (request tk) = false).

(** "Absent or a falsy value" for a JSON field. *)
Definition falsy (v : value) : Prop :=
  v = VUndefined \/ v = VNull \/ v = VBool false \/ v = VNum 0 \/ v = VStr "".

(** The order in which the handler runs its steps. *)
Definition pipeline_order : list check :=
  [ShapeCheck; DeadlineCheck; NonceCheck; SignatureCheck; ClaimedCheck; EligibilityCheck;
   Submit].

(** The order with eligibility ahead of the already-claimed query. *)
Definition eligibility_first_order : list check :=
  [ShapeCheck; DeadlineCheck; NonceCheck; SignatureCheck; EligibilityCheck; ClaimedCheck;
   Submit].

(** The position of a suspension point in the handler's text. *)
Definition stage_rank (s : stage) : nat :=
  match s with
  | AwaitClaimed => 0
  | AwaitProof => 1
  | AwaitClaim _ => 2
  | AwaitReceipt _ => 3
  end.

(** The 400 reply with which each check rejects. *)
Definition rejection_of (c : check) : option string :=
  match c with
  | ShapeCheck => Some "Missing required fields: recipient, amount, nonce, deadline, signature"
  | DeadlineCheck => Some "Request expired"
  | NonceCheck => Some "Nonce already used"
  | SignatureCheck => Some "Invalid signature"
  | ClaimedCheck => Some "Already claimed"
  | EligibilityCheck => Some "Invalid proof or not eligible"
  | Submit => None
  end.

End Relayer.

(** ** Sample data

    A 32-byte checksum standing in for [keccak256] where a statement is
    evaluated, and the default whitelist of the deployment script. *)

Module Samples.
Import Bytes.

(** A 32-byte polynomial checksum of a buffer. *)
Definition checksum32 (b : Buffer) : Buffer :=
  be_bytes 32 (fold_left (fun acc x => (acc * 31 + Z_of_byte x + 7) mod 2 ^ 256) b 1).

(** A signer that recovers the address written after [sig:] in the
    signature, and an engine for which no string is a number. *)
Definition recover_tagged (req : Relayer.body) : option string :=
  match Relayer.signature req with
  | Relayer.VStr (String "s" (String "i" (String "g" (String ":" a)))) => Some a
  | _ => None
  end.

Definition no_string_is_number (s : string) (x : Z) : bool := false.

(** The first account of the default whitelist, and its claim intent with
    nonce [n] and deadline [d]. *)
Definition alice : string := "0x70997970c51812dc3a010c7d01b50e0d17dc79c8".

Definition intent (n d : Z) : Relayer.body :=
  {| Relayer.recipient := Relayer.VStr alice;
     Relayer.amount := Relayer.VStr "100";
     Relayer.nonce := Relayer.VNum n;
     Relayer.deadline := Relayer.VNum d;
     Relayer.signature := Relayer.VStr ("sig:" ++ alice) |}.

(** The same intent with a zero amount. *)
Definition zero_amount_intent : Relayer.body :=
  {| Relayer.recipient := Relayer.VStr alice;
     Relayer.amount := Relayer.VNum 0;
     Relayer.nonce := Relayer.VNum 7;
     Relayer.deadline := Relayer.VNum 2000;
     Relayer.signature := Relayer.VStr ("sig:" ++ alice) |}.

(** Every check passes and the submission throws. *)
Definition failing_submission : Relayer.env :=
  {| Relayer.now := 1000000;
     Relayer.claimed_answer := Relayer.Resolved false;
     Relayer.proof_answer := Relayer.Resolved (Some []);
     Relayer.claim_answer := Relayer.Rejected "could not detect network" |}.

(** The account has claimed already and the proof server knows no entry. *)
Definition already_claimed : Relayer.env :=
  {| Relayer.now := 1000000;
     Relayer.claimed_answer := Relayer.Resolved true;
     Relayer.proof_answer := Relayer.Rejected "Request failed with status code 404";
     Relayer.claim_answer := Relayer.Rejected "execution reverted" |}.

(** The deadline of [intent 7 2000] has passed. *)
Definition late : Relayer.env :=
  {| Relayer.now := 3000000;
     Relayer.claimed_answer := Relayer.Resolved false;
     Relayer.proof_answer := Relayer.Resolved (Some []);
     Relayer.claim_answer := Relayer.Resolved "0xabc" |}.

(** A one-leaf airdrop for account 5 and three attempts to claim it. *)
Definition leaf5 : Buffer := checksum32 (Airdrop.encodePacked 5 100).

Definition three_attempts : list Airdrop.call :=
  [Airdrop.Claim 5 100 []; Airdrop.Claim 5 100 []; Airdrop.SetMerkleRoot 1 leaf5;
   Airdrop.Claim 5 100 []].

(** The whitelist the deployment script falls back to. *)
Definition default_whitelist : list ProofServer.entry :=
  [ {| ProofServer.address := "0x70997970C51812dc3A010C7d01b50e0d17dc79C8";
       ProofServer.amount := "100" |};
    {| ProofServer.address := "0x3C44CdDdB6a900fa2b585dd299e03d12FA4293BC";
       ProofServer.amount := "50" |};
    {| ProofServer.address := "0x90F79bf6EB2c4f870365E785982E1f101E93b906";
       ProofServer.amount := "200" |} ].

End Samples.

(** ** The other routes of the proof server *)

Module ProofServerAPI.
Import JS MerkleTreeJS ProofServer.

(** [GET /root]. *)
Definition get_root (srv : server) : string := root srv.

(** [GET /whitelist]: each entry cut down to its address and amount. *)
Definition get_whitelist (srv : server) : list entry :=
  map (fun e => {| address := address e; amount := amount e |}) (whitelist srv).

(** The reply of [GET /verify/:address/:amount]:
    [{ eligible: !!entry, address: addr, amount: entry ? entry.amount : null }]. *)
Record verification := {
  eligible : bool;
  verified_address : string;
  verified_amount : option string
}.

Definition get_verify (srv : server) (address amount : string) : verification :=
  let addr := toLowerCase address in
  let entry := find (matches addr amount) (whitelist srv) in
  {| eligible := match entry with Some _ => true | None => false end;
     verified_address := addr;
     verified_amount := match entry with
                        | Some e => Some (ProofServer.amount e)
                        | None => None
                        end |}.

(** The fields of [GET /health] that come from the server's own data. *)
Record health := {
  whitelistCount : nat;
  merkleRoot : string
}.

Definition get_health (srv : server) : health :=
  {| whitelistCount := length (whitelist srv); merkleRoot := root srv |}.

End ProofServerAPI.

(** ** The other routes of the relayer *)

Module RelayerAPI.
Import Bytes JS Relayer.

(** What [provider.getTransactionReceipt(hash)] resolves with, as far as
    the route reads it. *)
Record receipt := {
  status : Z;
  blockNumber : Z;
  gasUsed : Z
}.

Definition decimalDigit (d : Z) : ascii := ascii_of_N (Z.to_N (48 + d)).

Fixpoint decimalDigits (fuel : nat) (n : Z) (acc : list ascii) : list ascii :=
  match fuel with
  | O => acc
  | S f =>
      if n <? 10 then decimalDigit n :: acc
      else decimalDigits f (n / 10) (decimalDigit (n mod 10) :: acc)
  end.

(** [receipt.gasUsed.toString()]: the decimal text of a big number. *)
Definition BigNumber_toString (n : Z) : string :=
  string_of_list_ascii
    (if n <? 0
     then "-"%char :: decimalDigits (S (Z.to_nat (Z.log2 (- n)))) (- n) []
     else decimalDigits (S (Z.to_nat (Z.log2 n))) n []).

(** The replies of [GET /tx-status/:hash]. *)
Inductive status_reply :=
| StatusPending (p : pendingTx)
| StatusNotFound
| StatusOnChain (status : string) (blockNumber : Z) (gasUsed : string)
| StatusFailure (error : string).

(** [GET /tx-status/:hash]: the pending map answers first; only for a
    hash it does not hold is the chain asked for the receipt. *)
Definition tx_status (st : state) (hash : string) (r : result (option receipt))
  : status_reply :=
  match pendingTxs st !! hash with
  | Some p => StatusPending p
  | None =>
      match r with
      | Rejected _ => StatusFailure "Failed to check transaction status"
      | Resolved None => StatusNotFound
      | Resolved (Some rc) =>
          StatusOnChain (if status rc =? 1 then "confirmed" else "failed")
            (blockNumber rc) (BigNumber_toString (gasUsed rc))
      end
  end.

(** The two counters of [GET /info]: [pendingTxs.size] and
    [usedNonces.size]. *)
Record counters := {
  pendingTransactions : nat;
  usedNoncesCount : nat
}.

Definition info (st : state) : counters :=
  {| pendingTransactions := size (pendingTxs st);
     usedNoncesCount := size (usedNonces st) |}.

End RelayerAPI.

(** ** Hash collisions and the nodes of a tree *)

Module Security.
Import Bytes JS MerkleTreeJS.

(** What the server hashed when it built its tree: the encodings of the
    whitelist entries, for the leaves, and layer by layer the concatenation
    of each sorted pair of nodes. *)
Fixpoint pairInputs (nodes : list Buffer) : list Buffer :=
  match nodes with
  | l :: r :: rest => concat (sortPair l r) :: pairInputs rest
  | _ => []
  end.

Definition treeInputs (wl : list ProofServer.entry) (t : MerkleTree) : list Buffer :=
  omap (fun e => ProofServer.encodeLeaf (toLowerCase (ProofServer.address e))
                   (ProofServer.amount e)) wl
  ++ concat (map pairInputs (layers t)).

(** What the contract hashes when [claim] checks a proof for [account]
    and [amount]: the packed leaf, then at each step of
    [MerkleProof.processProof] the pair in the order [_hashPair] puts
    it. *)
Fixpoint foldInputs (h : Buffer -> Buffer) (proof : list Buffer) (computedHash : Buffer)
  : list Buffer :=
  match proof with
  | [] => []
  | sibling :: rest =>
      (if Airdrop.bytes32_lt computedHash sibling
       then computedHash ++ sibling else sibling ++ computedHash)
        :: foldInputs h rest (Airdrop._hashPair h computedHash sibling)
  end.

Definition claimInputs (h : Buffer -> Buffer) (account amount : Z) (proof : list Buffer)
  : list Buffer :=
  Airdrop.encodePacked account amount
    :: foldInputs h proof (h (Airdrop.encodePacked account amount)).

(** The hash takes an input of [xs] and a different input of [ys] to one
    digest. *)
Definition collide (h : Buffer -> Buffer) (xs ys : list Buffer) : Prop :=
  exists x y, x ∈ xs /\ y ∈ ys /\ x <> y /\ h x = h y.

(** The entry's leaf encoding is not 64 bytes long, the length of what an
    inner node hashes. *)
Definition leaf_sized (e : ProofServer.entry) : bool :=
  match ProofServer.encodeLeaf (toLowerCase (ProofServer.address e)) (ProofServer.amount e) with
  | Some enc => negb (length enc =? 64)%nat
  | None => true
  end.

(** The account a transaction comes from. *)
Definition sender_of (c : Airdrop.call) : Z :=
  match c with
  | Airdrop.Claim msg_sender _ _ => msg_sender
  | Airdrop.SetMerkleRoot msg_sender _ => msg_sender
  | Airdrop.TransferOwnership msg_sender _ => msg_sender
  | Airdrop.RenounceOwnership msg_sender => msg_sender
  end.

(** The ABI's typing of the arguments: every element of [bytes32[] proof]
    is 32 bytes long. *)
Definition well_typed (c : Airdrop.call) : Prop :=
  match c with
  | Airdrop.Claim _ _ proof => Forall is_digest proof
  | _ => True
  end.

Definition is_setMerkleRoot (c : Airdrop.call) : bool :=
  match c with
  | Airdrop.SetMerkleRoot _ _ => true
  | _ => false
  end.

(** The transaction behind the relayer's [contract.claim(amount,
    proofData.proof)]: the contract object is connected to the relayer's
    [wallet], so the caller the contract sees is the wallet's address,
    whoever the recipient of the request is; the proof's hexadecimal
    strings are its [bytes32[]] argument. *)
Definition relayed_claim (wallet amount : Z) (proof : list string) : option Airdrop.call :=
  Airdrop.Claim wallet amount <$> mapM Airdrop.bytes32_of_hex proof.

End Security.

(** ** The relayer: a reserved nonce under interleaving *)

Module Replay.
Import Relayer.

(** The nonce [n] is in [usedNonces] and every suspended invocation that
    carries it is past its reply, waiting for the receipt of its
    transaction: none is a duplicate that got past the nonce check and has
    not sent its transaction yet. *)
Definition reserved (n : value) (s : system) : Prop :=
  n ∈ usedNonces (registries s)
  /\ forall j tk, inflight s !! j = Some tk -> nonce (request tk) = n ->
       exists hash, at_stage tk = AwaitReceipt hash.

(** The step settles [tx.wait()] of an invocation that carries [n] with a
    failure. *)
Definition fails_transaction_of (n : value) (s : system) (l : label) : bool :=
  match l with
  | Deliver _ i (ReceiptAnswer (Rejected _)) =>
      match inflight s !! i with
      | Some tk => bool_decide (nonce (request tk) = n)
      | None => false
      end
  | _ => false
  end.

Section WithEngine.
Variable recoverAddress : body -> option string.
Variable StringToNumber_lt : string -> Z -> bool.

(** No step of the run from [s] fails a transaction of [n]. *)
Fixpoint transaction_holds (n : value) (s : system) (ls : list label) : bool :=
  match ls with
  | [] => true
  | l :: rest =>
      negb (fails_transaction_of n s l)
      && match sys_step recoverAddress StringToNumber_lt s l with
         | Some s' => transaction_holds n s' rest
         | None => true
         end
  end.

End WithEngine.

(** The system right after the reply of a request that ran on its own
    from the registries behind [o] and was submitted with [hash]. *)
Definition submitted_alone (o : outcome) (req : body) (hash : string) : system :=
  {| registries := store o;
     inflight := [ {| request := req; at_stage := AwaitReceipt hash |} ];
     confirmed := [] |}.

End Replay.

(** ** The deployment script's leaf encoder

    [encodeLeaf] of the deployment script builds the packed leaf with
    [ethers.utils] (ethers v5, as hardhat provides it): [arrayify],
    [BigNumber.from(..).toHexString()], [zeroPad] and [concat]. The text
    functions are the library's, on the characters of the string; [None]
    is a thrown error. *)

Module DeployScript.
Import Bytes JS.

Definition isHexDigit (c : ascii) : bool :=
  match hexValue c with Some _ => true | None => false end.

Definition isDecimalDigit (c : ascii) : bool :=
  let n := charCode c in (48 <=? n) && (n <=? 57).

Definition startsWith0x (s : list ascii) : bool :=
  match s with
  | c0 :: c1 :: _ => Ascii.eqb c0 "0" && Ascii.eqb c1 "x"
  | _ => false
  end.

(** [isHexString(value)]: the pattern [/^0x[0-9A-Fa-f]*$/]. *)
Definition isHexString (s : list ascii) : bool :=
  startsWith0x s && forallb isHexDigit (drop 2 s).

(** [arrayify(value)] for a string: a hex string of even length, one byte
    per two digits; anything else throws. *)
Definition arrayify (s : list ascii) : option Buffer :=
  if isHexString s then
    let hex := drop 2 s in
    if Nat.odd (length hex) then None else Some (Buffer_from_hex hex)
  else None.

(** The last loop of [toHex]:
    [while (value.length > 4 && value.substring(0, 4) === "0x00")
       value = "0x" + value.substring(4)]. *)
Fixpoint trimZeroBytes (fuel : nat) (value : list ascii) : list ascii :=
  match fuel with
  | O => value
  | S f =>
      match value with
      | c0 :: c1 :: c2 :: c3 :: rest =>
          if (4 <? length value)%nat
             && Ascii.eqb c0 "0" && Ascii.eqb c1 "x" && Ascii.eqb c2 "0" && Ascii.eqb c3 "0"
          then trimZeroBytes f ("0"%char :: "x"%char :: rest)
          else value
      | _ => value
      end
  end.

(** [toHex] on text without a sign: the [0x] prefix is added when
    missing, [0x] alone is zero, the digits are made even in number and
    leading zero bytes are cut. *)
Definition toHex_unsigned (s : list ascii) : list ascii :=
  let value := if startsWith0x s then s else "0"%char :: "x"%char :: s in
  if bool_decide (value = ["0"%char; "x"%char]) then ["0"; "x"; "0"; "0"]%char
  else
    let value := if Nat.odd (length value)
                 then "0"%char :: "x"%char :: "0"%char :: drop 2 value
                 else value in
    trimZeroBytes (length value) value.

(** [toHex(value)] for a string: a leading minus sign is put back in front
    of the normalised rest, except in front of zero. *)
Definition toHex (s : list ascii) : option (list ascii) :=
  match s with
  | c :: rest =>
      if Ascii.eqb c "-" then
        match rest with
        | c' :: _ =>
            if Ascii.eqb c' "-" then None
            else
              let v := toHex_unsigned rest in
              if bool_decide (v = ["0"; "x"; "0"; "0"]%char) then Some v
              else Some ("-"%char :: v)
        | [] => Some ["0"; "x"; "0"; "0"]%char
        end
      else Some (toHex_unsigned s)
  | [] => Some (toHex_unsigned s)
  end.

Definition unsigned (s : list ascii) : list ascii :=
  match s with
  | c :: rest => if Ascii.eqb c "-" then rest else s
  | [] => []
  end.

(** [/^-?0x[0-9a-f]+$/i] and [/^-?[0-9]+$/]. *)
Definition isHexNumeral (s : list ascii) : bool :=
  match unsigned s with
  | c0 :: c1 :: d :: ds =>
      Ascii.eqb c0 "0" && (Ascii.eqb c1 "x" || Ascii.eqb c1 "X")
      && forallb isHexDigit (d :: ds)
  | _ => false
  end.

Definition isDecimalNumeral (s : list ascii) : bool :=
  match unsigned s with
  | d :: ds => forallb isDecimalDigit (d :: ds)
  | [] => false
  end.

(** [new BN(value)] for a decimal numeral. *)
Definition BN_decimal (s : list ascii) : option Z :=
  match s with
  | c :: rest =>
      if Ascii.eqb c "-" then Z.opp <$> parseDigits 10 rest else parseDigits 10 s
  | [] => None
  end.

(** [BigNumber.from(value).toHexString()] for a string: the hexadecimal
    text the big number keeps. *)
Definition BigNumber_from (s : list ascii) : option (list ascii) :=
  if isHexNumeral s then toHex s
  else if isDecimalNumeral s then bn ← BN_decimal s; toHex (BigInt_toString16 bn)
  else None.

(** [zeroPad(value, length)]: zero bytes in front, up to [length] bytes;
    a longer value throws. *)
Definition zeroPad (value : list ascii) (length : nat) : option Buffer :=
  b ← arrayify value;
  if (length <? List.length b)%nat then None
  else Some (repeat Byte.x00 (length - List.length b) ++ b).

Definition encodeLeaf (address amount : string) : option Buffer :=
  addressBytes ← arrayify (chars address);
  hex ← BigNumber_from (chars amount);
  amountBytes ← zeroPad hex 32;
  Some (addressBytes ++ amountBytes).

End DeployScript.

(** ** The dashboard's helpers *)

Module Dashboard.
Import JS.

(** [s.substring(start, end)]: both indices are clamped to the string and
    exchanged when out of order. *)
Definition substring (s : list ascii) (indexStart indexEnd : Z) : list ascii :=
  let len := Z.of_nat (length s) in
  let a := Z.min (Z.max indexStart 0) len in
  let b := Z.min (Z.max indexEnd 0) len in
  let from := Z.min a b in
  let to := Z.max a b in
  take (Z.to_nat (to - from)) (drop (Z.to_nat from) s).

(** [truncateUrl(url, maxLength = 50)]. *)
Definition truncateUrl (url : string) (maxLength : Z) : string :=
  if Z.of_nat (length (chars url)) <=? maxLength then url
  else string_of_list_ascii (substring (chars url) 0 (maxLength - 3) ++ chars "...").

Section LogContainer.
Variables log element : Type.
Variable createEntry : log -> element.

(** The loop at the end of [addLogEntry]:
    [while (container.children.length > 1000)
       container.removeChild(container.firstChild)]. *)
Fixpoint removeExcess (fuel : nat) (children : list element) : list element :=
  match fuel with
  | O => children
  | S f =>
      if (1000 <? length children)%nat then removeExcess f (tail children)
      else children
  end.

(** [addLogEntry(log, scroll)] on the children of [#log-container];
    [None] is a page without that element, where it returns at once. *)
Definition addLogEntry (container : option (list element)) (l : log)
  : option (list element) :=
  match container with
  | None => None
  | Some children =>
      let children := children ++ [createEntry l] in
      Some (removeExcess (length children) children)
  end.

(** [updateLogs(data)]: the container is emptied and every log of
    [data.logs || []] is added in turn. *)
Definition updateLogs (container : option (list element)) (logs : list log)
  : option (list element) :=
  match container with
  | None => None
  | Some _ => fold_left addLogEntry logs (Some [])
  end.

End LogContainer.

End Dashboard.

(** ** More sample data *)

Module Scenarios.
Import Bytes.

(** The first account of the default whitelist, as the contract sees it,
    and the 40 digits of its address as the whitelist spells them. *)
Definition alice_account : Z := 0x70997970C51812dc3A010C7d01b50e0d17dc79C8.

Definition alice_digits : list ascii :=
  list_ascii_of_string "70997970C51812dc3A010C7d01b50e0d17dc79C8".

Definition alice_leaf : Buffer :=
  Samples.checksum32 (Airdrop.encodePacked alice_account 100).

(** Every check passes and the transaction is sent with hash [0xabc]. *)
Definition submitting : Relayer.env :=
  {| Relayer.now := 1000000;
     Relayer.claimed_answer := Relayer.Resolved false;
     Relayer.proof_answer := Relayer.Resolved (Some []);
     Relayer.claim_answer := Relayer.Resolved "0xabc" |}.

(** Four transactions from accounts other than the deployer [1]. *)
Definition strangers : list Airdrop.call :=
  [Airdrop.Claim 5 100 []; Airdrop.SetMerkleRoot 2 []; Airdrop.TransferOwnership 3 3;
   Airdrop.RenounceOwnership 4].

(** The default whitelist with its first two entries exchanged. *)
Definition swapped_whitelist : list ProofServer.entry :=
  [ {| ProofServer.address := "0x3C44CdDdB6a900fa2b585dd299e03d12FA4293BC";
       ProofServer.amount := "50" |};
    {| ProofServer.address := "0x70997970C51812dc3A010C7d01b50e0d17dc79C8";
       ProofServer.amount := "100" |};
    {| ProofServer.address := "0x90F79bf6EB2c4f870365E785982E1f101E93b906";
       ProofServer.amount := "200" |} ].

End Scenarios.

(** ** Bytes and hexadecimal text: lemmas *)

Section BytesFacts.
Import Bytes.

Lemma Z_of_byte_range (b : byte) : 0 <= Z_of_byte b < 256.
Proof.
  unfold Z_of_byte. pose proof (Byte.to_N_bounded b). lia.
Qed.

Lemma byte_of_Z_of_byte (b : byte) : byte_of_Z (Z_of_byte b) = b.
Proof.
  unfold byte_of_Z. pose proof (Z_of_byte_range b) as Hr.
  rewrite Z.mod_small by lia. unfold Z_of_byte.
  rewrite N2Z.id, Byte.of_to_N. reflexivity.
Qed.

Lemma Z_of_byte_of_Z (z : Z) : Z_of_byte (byte_of_Z z) = z mod 256.
Proof.
  unfold byte_of_Z, Z_of_byte.
  pose proof (Z.mod_pos_bound z 256 ltac:(lia)) as Hr.
  destruct (Byte.of_N (Z.to_N (z mod 256))) as [b|] eqn:E.
  - apply Byte.to_of_N in E. rewrite E. lia.
  - apply Byte.of_N_None_iff in E. lia.
Qed.

Lemma Z_of_byte_inj (a b : byte) : Z_of_byte a = Z_of_byte b -> a = b.
Proof.
  intros H. rewrite <- (byte_of_Z_of_byte a), <- (byte_of_Z_of_byte b). congruence.
Qed.

Lemma hexValue_hexDigit (d : Z) : 0 <= d < 16 -> hexValue (hexDigit d) = Some d.
Proof.
  intros H.
  assert (d = 0 \/ d = 1 \/ d = 2 \/ d = 3 \/ d = 4 \/ d = 5 \/ d = 6 \/ d = 7 \/
          d = 8 \/ d = 9 \/ d = 10 \/ d = 11 \/ d = 12 \/ d = 13 \/ d = 14 \/ d = 15)
    as Hd by lia.
  repeat (destruct Hd as [-> | Hd]; [reflexivity |]). subst d. reflexivity.
Qed.

Lemma Buffer_toString_hex_app (a b : Buffer) :
  Buffer_toString_hex (a ++ b) = Buffer_toString_hex a ++ Buffer_toString_hex b.
Proof.
  induction a as [|x a IH]; simpl; [reflexivity | by rewrite IH].
Qed.

Lemma Buffer_toString_hex_length (b : Buffer) :
  length (Buffer_toString_hex b) = (2 * length b)%nat.
Proof.
  induction b as [|x b IH]; simpl; [reflexivity | rewrite IH; lia].
Qed.

(** Decoding what [toString('hex')] printed gives the bytes back, and
    goes on with the rest of the text. *)
Lemma Buffer_from_hex_toString (b : Buffer) (s : list ascii) :
  Buffer_from_hex (Buffer_toString_hex b ++ s) = b ++ Buffer_from_hex s.
Proof.
  induction b as [|x b IH]; [reflexivity |].
  pose proof (Z_of_byte_range x) as Hr.
  cbn [Buffer_toString_hex app Buffer_from_hex].
  rewrite !hexValue_hexDigit.
  - rewrite IH. f_equal.
    rewrite <- (byte_of_Z_of_byte x) at 3. f_equal.
    rewrite (Z.div_mod (Z_of_byte x) 16) at 3 by lia. lia.
  - apply Z.mod_pos_bound. lia.
  - split; [apply Z.div_pos; lia | apply Z.div_lt_upper_bound; lia].
Qed.

Lemma Buffer_from_hex_roundtrip (b : Buffer) :
  Buffer_from_hex (Buffer_toString_hex b) = b.
Proof.
  rewrite <- (app_nil_r (Buffer_toString_hex b)), Buffer_from_hex_toString.
  apply app_nil_r.
Qed.

Lemma Buffer_compare_eq (a b : Buffer) : Buffer_compare a b = Eq <-> a = b.
Proof.
  revert b. induction a as [|x a IH]; intros [|y b]; simpl; try (split; congruence).
  destruct (Z.compare_spec (Z_of_byte x) (Z_of_byte y)) as [E|E|E].
  - apply Z_of_byte_inj in E. subst y. rewrite IH. split; congruence.
  - split; [discriminate | intros [= -> _]; lia].
  - split; [discriminate | intros [= -> _]; lia].
Qed.

Lemma Buffer_compare_refl (a : Buffer) : Buffer_compare a a = Eq.
Proof. by apply Buffer_compare_eq. Qed.

Lemma Buffer_compare_antisym (a b : Buffer) :
  Buffer_compare b a = CompOpp (Buffer_compare a b).
Proof.
  revert b. induction a as [|x a IH]; intros [|y b]; simpl; try reflexivity.
  rewrite (Z.compare_antisym (Z_of_byte x) (Z_of_byte y)).
  destruct (Z_of_byte x ?= Z_of_byte y); simpl; auto.
Qed.

Lemma be_value_acc (b : Buffer) (acc : Z) :
  fold_left (fun a x => 256 * a + Z_of_byte x) b acc
  = acc * 256 ^ Z.of_nat (length b) + be_value b.
Proof.
  unfold be_value. revert acc.
  induction b as [|x b IH]; intros acc; simpl fold_left.
  - simpl. lia.
  - rewrite IH, (IH (256 * 0 + Z_of_byte x)).
    rewrite length_cons, Nat2Z.inj_succ, Z.pow_succ_r by lia. lia.
Qed.

Lemma be_value_cons (x : byte) (b : Buffer) :
  be_value (x :: b) = Z_of_byte x * 256 ^ Z.of_nat (length b) + be_value b.
Proof.
  unfold be_value at 1. simpl fold_left. rewrite be_value_acc. lia.
Qed.

Lemma be_value_range (b : Buffer) : 0 <= be_value b < 256 ^ Z.of_nat (length b).
Proof.
  induction b as [|x b IH].
  - unfold be_value. simpl. lia.
  - rewrite be_value_cons, length_cons, Nat2Z.inj_succ, Z.pow_succ_r by lia.
    pose proof (Z_of_byte_range x). nia.
Qed.

(** On buffers of one length, [Buffer.compare] is the order of the
    unsigned integers they denote. *)
Lemma Buffer_compare_be_value (a b : Buffer) :
  length a = length b -> Buffer_compare a b = (be_value a ?= be_value b).
Proof.
  revert b. induction a as [|x a IH]; intros [|y b] Hlen; try discriminate.
  - reflexivity.
  - injection Hlen as Hlen. simpl Buffer_compare.
    rewrite !be_value_cons, <- Hlen.
    pose proof (be_value_range a) as Ha. pose proof (be_value_range b) as Hb.
    rewrite <- Hlen in Hb.
    destruct (Z.compare_spec (Z_of_byte x) (Z_of_byte y)) as [E|E|E].
    + rewrite E, (IH b Hlen).
      destruct (Z.compare_spec (be_value a) (be_value b)); symmetry;
        [apply Z.compare_eq_iff | apply Z.compare_lt_iff | apply Z.compare_gt_iff]; lia.
    + symmetry. apply Z.compare_lt_iff. nia.
    + symmetry. apply Z.compare_gt_iff. nia.
Qed.

Lemma be_bytes_length (w : nat) (n : Z) : length (be_bytes w n) = w.
Proof.
  revert n. induction w as [|w IH]; intros n; simpl; [reflexivity |].
  rewrite length_app, IH. simpl. lia.
Qed.

End BytesFacts.

(** ** Hexadecimal rendering of integers *)

Section HexFacts.
Import Bytes JS.

Lemma nibbles_length (k : nat) (n : Z) : length (nibbles k n) = k.
Proof.
  revert n. induction k as [|k IH]; intros n; simpl; [reflexivity |].
  rewrite length_app, IH. simpl. lia.
Qed.

Lemma nibbles_zero (k : nat) : nibbles k 0 = repeat 0 k.
Proof.
  induction k as [|k IH]; [reflexivity |].
  simpl nibbles. rewrite Z.div_0_l, Z.mod_0_l, IH by lia.
  change [0] with (repeat 0 1). rewrite <- repeat_app.
  f_equal. lia.
Qed.

Lemma nibbles_pad (j k : nat) (n : Z) :
  0 <= n < 16 ^ Z.of_nat k -> nibbles (j + k) n = repeat 0 j ++ nibbles k n.
Proof.
  revert n. induction k as [|k IH]; intros n Hn.
  - simpl in Hn. assert (n = 0) as -> by lia.
    rewrite Nat.add_0_r, nibbles_zero. simpl. by rewrite app_nil_r.
  - rewrite Nat.add_succ_r. simpl nibbles.
    rewrite IH, app_assoc; [reflexivity |].
    rewrite Nat2Z.inj_succ, Z.pow_succ_r in Hn by lia.
    split; [apply Z.div_pos; lia | apply Z.div_lt_upper_bound; lia].
Qed.

Lemma hexDigits_nibbles (fuel : nat) : forall (n : Z) (acc : list ascii) (m : nat),
  0 <= n < 16 ^ Z.of_nat m -> (1 <= m)%nat -> n < 16 ^ Z.of_nat fuel -> (1 <= fuel)%nat ->
  exists k, (k <= m)%nat /\ n < 16 ^ Z.of_nat k /\
            hexDigits fuel n acc = map hexDigit (nibbles k n) ++ acc.
Proof.
  induction fuel as [|f IH]; intros n acc m Hn Hm Hf Hfuel; [lia |].
  simpl hexDigits. destruct (n <? 16) eqn:E.
  - apply Z.ltb_lt in E. exists 1%nat. split; [lia |]. split; [simpl; lia |].
    simpl. rewrite Z.mod_small by lia. reflexivity.
  - apply Z.ltb_ge in E.
    destruct m as [|m]; [lia |]. destruct m as [|m]; [simpl in Hn; lia |].
    destruct f as [|f]; [simpl in Hf; lia |].
    assert (0 <= n / 16 < 16 ^ Z.of_nat (S m)) as Hn'.
    { rewrite (Nat2Z.inj_succ (S m)), Z.pow_succ_r in Hn by lia.
      split; [apply Z.div_pos; lia | apply Z.div_lt_upper_bound; lia]. }
    assert (n / 16 < 16 ^ Z.of_nat (S f)) as Hf'.
    { rewrite (Nat2Z.inj_succ (S f)), Z.pow_succ_r in Hf by lia.
      apply Z.div_lt_upper_bound; lia. }
    destruct (IH (n / 16) (hexDigit (n mod 16) :: acc) (S m) Hn' ltac:(lia) Hf' ltac:(lia))
      as (k & Hk & Hlt & Heq).
    exists (S k). split; [lia |]. split.
    + rewrite Nat2Z.inj_succ, Z.pow_succ_r by lia.
      pose proof (Z.div_mod n 16 ltac:(lia)). pose proof (Z.mod_pos_bound n 16 ltac:(lia)). lia.
    + rewrite Heq. simpl nibbles. rewrite map_app, <- app_assoc. reflexivity.
Qed.

Lemma log2_fuel (n : Z) : 0 <= n -> n < 16 ^ Z.of_nat (S (Z.to_nat (Z.log2 n))).
Proof.
  intros Hn. destruct (Z.eq_dec n 0) as [-> | Hne]; [simpl; lia |].
  pose proof (Z.log2_nonneg n) as Hl.
  pose proof (Z.log2_spec n ltac:(lia)) as [_ Hup].
  rewrite Nat2Z.inj_succ, Z2Nat.id by lia.
  change 16 with (2 ^ 4). rewrite <- Z.pow_mul_r by lia.
  eapply Z.lt_le_trans; [exact Hup |].
  apply Z.pow_le_mono_r; lia.
Qed.

Lemma toString16_nibbles (n : Z) (m : nat) :
  0 <= n < 16 ^ Z.of_nat m -> (1 <= m)%nat ->
  exists k, (k <= m)%nat /\ n < 16 ^ Z.of_nat k /\
            BigInt_toString16 n = map hexDigit (nibbles k n).
Proof.
  intros Hn Hm. unfold BigInt_toString16.
  destruct (n <? 0) eqn:E; [apply Z.ltb_lt in E; lia |].
  destruct (hexDigits_nibbles (S (Z.to_nat (Z.log2 n))) n [] m Hn Hm
              (log2_fuel n ltac:(lia)) ltac:(lia)) as (k & Hk & Hlt & Heq).
  exists k. rewrite Heq, app_nil_r. auto.
Qed.

Lemma nibbles_be_bytes (w : nat) (n : Z) :
  map hexDigit (nibbles (2 * w) n) = Buffer_toString_hex (be_bytes w n).
Proof.
  revert n. induction w as [|w IH]; intros n; [reflexivity |].
  replace (2 * S w)%nat with (S (S (2 * w))) by lia.
  simpl nibbles. simpl be_bytes.
  rewrite Buffer_toString_hex_app, !map_app, <- app_assoc.
  rewrite Z.div_div by lia. change (16 * 16) with 256.
  rewrite IH. f_equal. simpl. rewrite Z_of_byte_of_Z.
  f_equal; [f_equal | f_equal; f_equal]; Z.div_mod_to_equations; lia.
Qed.

(** The amount half of [encodeLeaf]: for an amount that fits 256 bits, the
    padded hexadecimal text decodes to its 32-byte big-endian form. *)
Lemma amountBuf_in_range (bn : Z) :
  0 <= bn < 2 ^ 256 ->
  Buffer_from_hex (padStart 64 "0" (BigInt_toString16 bn)) = be_bytes 32 bn.
Proof.
  intros Hbn.
  destruct (toString16_nibbles bn 64) as (k & Hk & Hlt & Heq); [| lia |].
  { change (16 ^ Z.of_nat 64) with (2 ^ 256). exact Hbn. }
  rewrite Heq. unfold padStart. rewrite length_map, nibbles_length.
  replace (repeat "0"%char (64 - k)) with (map hexDigit (repeat 0 (64 - k)))
    by (induction (64 - k)%nat as [|j IHj]; simpl; [reflexivity | by rewrite IHj]).
  rewrite <- map_app, <- nibbles_pad by lia.
  replace (64 - k + k)%nat with (2 * 32)%nat by lia.
  rewrite nibbles_be_bytes. apply Buffer_from_hex_roundtrip.
Qed.

Lemma chars_string_of_list_ascii (l : list ascii) : chars (string_of_list_ascii l) = l.
Proof. apply list_ascii_of_string_of_list_ascii. Qed.

(** The address half of [encodeLeaf], for the lower-case hexadecimal text
    of a 20-byte address. *)
Lemma addrBuf_of_hex (account : Z) :
  Buffer_from_hex
    (padStart 40 "0" (replace_0x (chars (MerkleTreeJS.bufferToHex (be_bytes 20 account)))))
  = be_bytes 20 account.
Proof.
  unfold MerkleTreeJS.bufferToHex. rewrite chars_string_of_list_ascii.
  cbn [replace_0x Ascii.eqb Bool.eqb andb].
  unfold padStart. rewrite Buffer_toString_hex_length, be_bytes_length.
  change (repeat "0"%char (40 - 2 * 20)) with (@nil ascii).
  rewrite app_nil_l. apply Buffer_from_hex_roundtrip.
Qed.

Lemma digitsValue_app (radix : Z) (s1 s2 : list ascii) : forall acc,
  digitsValue radix (s1 ++ s2) acc
  = digitsValue radix s1 acc ≫= digitsValue radix s2.
Proof.
  induction s1 as [|c s1 IH]; intros acc; simpl; [reflexivity |].
  destruct (hexValue c) as [d|]; [| reflexivity].
  destruct (d <? radix); [apply IH | reflexivity].
Qed.

Lemma digitsValue_nibbles (k : nat) : forall n acc,
  0 <= n ->
  digitsValue 16 (map hexDigit (nibbles k n)) acc
  = Some (acc * 16 ^ Z.of_nat k + n mod 16 ^ Z.of_nat k).
Proof.
  induction k as [|k IH]; intros n acc Hn.
  - simpl. rewrite Z.mod_1_r. f_equal. lia.
  - simpl nibbles. rewrite map_app, digitsValue_app, IH
      by (apply Z.div_pos; lia).
    pose proof (Z.mod_pos_bound n 16 ltac:(lia)) as Hd.
    cbn [mbind option_bind map digitsValue]. rewrite hexValue_hexDigit by done.
    assert ((n mod 16 <? 16) = true) as -> by (apply Z.ltb_lt; lia).
    f_equal. rewrite Nat2Z.inj_succ, Z.pow_succ_r by lia.
    rewrite Z.rem_mul_r by lia. ring.
Qed.

(** What [toString(16)] prints reads back as the same integer. *)
Lemma BigInt_toString16_value (n : Z) :
  0 <= n -> parseDigits 16 (BigInt_toString16 n) = Some n.
Proof.
  intros Hn.
  destruct (toString16_nibbles n (S (Z.to_nat (Z.log2 n)))) as (k & Hk & Hlt & Heq).
  { split; [done | by apply log2_fuel]. }
  { lia. }
  rewrite Heq. unfold parseDigits.
  destruct (map hexDigit (nibbles k n)) as [|c s] eqn:E.
  - apply (f_equal length) in E. rewrite length_map, nibbles_length in E.
    simpl in E. subst k. simpl in Hlt.
    assert (n = 0) as -> by lia. discriminate Heq.
  - rewrite <- E, digitsValue_nibbles by done. f_equal.
    rewrite Z.mod_small by lia. lia.
Qed.

End HexFacts.

(** ** The Merkle tree: build, proof and fold *)

Section MerkleFacts.
Import Bytes MerkleTreeJS.

Variable hashFn : Buffer -> Buffer.

Lemma hashPair_comm (a b : Buffer) : hashPair hashFn a b = hashPair hashFn b a.
Proof.
  unfold hashPair, sortPair. rewrite (Buffer_compare_antisym a b).
  destruct (Buffer_compare a b) eqn:E; simpl; try reflexivity.
  apply Buffer_compare_eq in E. by subst.
Qed.

(** Induction two nodes at a time, as the [for] loop of a layer goes. *)
Lemma list_pair_ind {A} (P : list A -> Prop) :
  P [] -> (forall a, P [a]) -> (forall a b l, P l -> P (a :: b :: l)) -> forall l, P l.
Proof.
  intros H0 H1 H2.
  assert (forall l, P l /\ forall a, P (a :: l)) as H.
  { induction l as [|x l [IH1 IH2]]; split; auto. }
  intros l. apply H.
Qed.

Lemma half_SS (i : nat) : (S (S i) / 2 = S (i / 2))%nat.
Proof.
  replace (S (S i)) with (i + 1 * 2)%nat by lia. rewrite Nat.div_add by lia. lia.
Qed.

Lemma nextLayer_length (nodes : list Buffer) :
  length (nextLayer hashFn nodes) = (S (length nodes) / 2)%nat.
Proof.
  induction nodes as [| a | a b l IH] using list_pair_ind; try reflexivity.
  cbn [nextLayer length]. rewrite IH, half_SS. reflexivity.
Qed.

Lemma nextLayer_shorter (nodes : list Buffer) :
  (1 < length nodes)%nat -> (length (nextLayer hashFn nodes) < length nodes)%nat.
Proof.
  intros H. rewrite nextLayer_length.
  apply Nat.Div0.div_lt_upper_bound. lia.
Qed.

(** The node above position [i] is the hash of the pair at [i], or the
    node at [i] itself when it has no sibling in its layer. *)
Lemma nextLayer_lookup (nodes : list Buffer) : forall (i : nat) (x : Buffer),
  nodes !! i = Some x ->
  nextLayer hashFn nodes !! (i / 2)%nat
  = Some match nodes !! (if Nat.odd i then i - 1 else i + 1)%nat with
         | Some sibling => hashPair hashFn x sibling
         | None => x
         end.
Proof.
  induction nodes as [| a | a b l IH] using list_pair_ind; intros i x Hi.
  - discriminate.
  - destruct i as [|i]; [| discriminate]. injection Hi as <-. reflexivity.
  - destruct i as [|[|i]].
    + injection Hi as <-. reflexivity.
    + injection Hi as <-. simpl. by rewrite hashPair_comm.
    + cbn [lookup list_lookup] in Hi. rewrite half_SS.
      cbn [nextLayer]. rewrite lookup_cons_ne_0 by lia. cbn [Nat.pred].
      rewrite (IH i x Hi). rewrite Nat.odd_succ_succ.
      destruct (Nat.odd i) eqn:Hodd.
      * destruct i as [|i]; [discriminate |].
        replace (S (S (S i)) - 1)%nat with (S (S (S i - 1))) by lia. reflexivity.
      * replace (S (S i) + 1)%nat with (S (S (i + 1))) by lia. reflexivity.
Qed.

Lemma createHashes_cons (fuel : nat) (nodes : list Buffer) :
  exists upper, createHashes hashFn fuel nodes = nodes :: upper.
Proof. destruct fuel; simpl; eauto. Qed.

Lemma getRoot_step (fuel : nat) (nodes ls : list Buffer) :
  getRoot {| leaves := ls; layers := nodes :: createHashes hashFn fuel (nextLayer hashFn nodes) |}
  = getRoot {| leaves := ls; layers := createHashes hashFn fuel (nextLayer hashFn nodes) |}.
Proof.
  unfold getRoot. simpl layers.
  destruct (createHashes_cons fuel (nextLayer hashFn nodes)) as [upper ->].
  reflexivity.
Qed.

(** The fuel of [createHashes] never cuts the [while] loop short: the last
    layer built has at most one node, which is the loop's exit condition. *)
Lemma createHashes_complete (fuel : nat) : forall nodes : list Buffer,
  (length nodes <= fuel)%nat ->
  exists top, last (createHashes hashFn fuel nodes) = Some top /\ (length top <= 1)%nat.
Proof.
  induction fuel as [|fuel IH]; intros nodes Hlen.
  - exists nodes. simpl. split; [reflexivity | lia].
  - cbn [createHashes]. destruct (1 <? length nodes)%nat eqn:E.
    + apply Nat.ltb_lt in E.
      pose proof (nextLayer_shorter nodes E) as Hshort.
      destruct (IH (nextLayer hashFn nodes) ltac:(lia)) as (top & Htop & Hle).
      exists top. split; [| done].
      destruct (createHashes_cons fuel (nextLayer hashFn nodes)) as [upper Hc].
      rewrite Hc in Htop |- *. exact Htop.
    + apply Nat.ltb_ge in E. exists nodes. split; [reflexivity | done].
Qed.

Section Fold.

(** A verifier's pair function [f] that agrees with the builder's on the
    nodes of the tree, which all satisfy [wf]. *)
Variable f : Buffer -> Buffer -> Buffer.
Variable wf : Buffer -> Prop.
Hypothesis f_hashPair : forall a b, wf a -> wf b -> f a b = hashPair hashFn a b.
Hypothesis wf_hashPair : forall a b, wf a -> wf b -> wf (hashPair hashFn a b).

Lemma nextLayer_wf (nodes : list Buffer) :
  Forall wf nodes -> Forall wf (nextLayer hashFn nodes).
Proof.
  induction nodes as [| a | a b l IH] using list_pair_ind; intros H; simpl; auto.
  inversion H as [|? ? Ha H']; subst. inversion H' as [|? ? Hb Hl]; subst.
  constructor; auto.
Qed.

Lemma createHashes_wf (fuel : nat) : forall nodes,
  Forall wf nodes -> Forall (Forall wf) (createHashes hashFn fuel nodes).
Proof.
  induction fuel as [|fuel IH]; intros nodes H; simpl.
  - by constructor.
  - constructor; [done |]. destruct (1 <? length nodes)%nat; [| constructor].
    apply IH. by apply nextLayer_wf.
Qed.

Lemma proofFrom_wf (ls : list (list Buffer)) : forall i,
  Forall (Forall wf) ls -> Forall wf (proofFrom ls i).
Proof.
  induction ls as [|layer ls IH]; intros i H; simpl; [constructor |].
  inversion H as [|? ? Hl Hls]; subst.
  destruct (layer !! _) as [s|] eqn:E; [| by apply IH].
  constructor; [| by apply IH].
  exact (Forall_lookup_1 wf layer _ s Hl E).
Qed.

(** Folding the proof of the node at [i] from that node upwards arrives at
    the root. *)
Lemma fold_proofFrom (fuel : nat) : forall (nodes ls : list Buffer) (i : nat) (x : Buffer),
  (length nodes <= fuel)%nat -> Forall wf nodes -> nodes !! i = Some x ->
  fold_left f (proofFrom (createHashes hashFn fuel nodes) i) x
  = getRoot {| leaves := ls; layers := createHashes hashFn fuel nodes |}.
Proof.
  induction fuel as [|fuel IH]; intros nodes ls i x Hlen Hwf Hi.
  - destruct nodes; [discriminate | simpl in Hlen; lia].
  - cbn [createHashes]. destruct (1 <? length nodes)%nat eqn:E.
    + apply Nat.ltb_lt in E.
      rewrite getRoot_step. cbn [proofFrom].
      pose proof (nextLayer_lookup nodes i x Hi) as Hup.
      pose proof (nextLayer_shorter nodes E) as Hshort.
      pose proof (nextLayer_wf nodes Hwf) as Hwf'.
      assert (wf x) as Hx by exact (Forall_lookup_1 wf nodes i x Hwf Hi).
      destruct (nodes !! (if Nat.odd i then i - 1 else i + 1)%nat) as [s|] eqn:Es.
      * assert (wf s) as Hs by exact (Forall_lookup_1 wf nodes _ s Hwf Es).
        cbn [fold_left]. rewrite f_hashPair by done.
        apply IH; [lia | done | done].
      * apply IH; [lia | done | done].
    + apply Nat.ltb_ge in E.
      destruct nodes as [|a [|b nodes]]; [discriminate | | simpl in E; lia].
      destruct i as [|i]; [| discriminate]. injection Hi as <-. reflexivity.
Qed.

End Fold.

Lemma leafIndex_spec (leaf : Buffer) (ls : list Buffer) : forall (i : nat) (index : option nat),
  (leafIndex leaf ls i index = index /\ leaf ∉ ls) \/
  (exists k, leafIndex leaf ls i index = Some (i + k)%nat /\ ls !! k = Some leaf).
Proof.
  induction ls as [|l ls IH]; intros i index.
  - left. split; [reflexivity | apply not_elem_of_nil].
  - cbn [leafIndex].
    destruct (IH (S i) (match Buffer_compare leaf l with Eq => Some i | _ => index end))
      as [[Heq Hnot] | (k & Heq & Hk)].
    + destruct (Buffer_compare leaf l) eqn:E.
      * right. exists 0%nat. rewrite Heq, Nat.add_0_r. split; [done |].
        apply Buffer_compare_eq in E. by subst.
      * left. split; [done |]. apply not_elem_of_cons. split; [| done].
        intros ->. by rewrite Buffer_compare_refl in E.
      * left. split; [done |]. apply not_elem_of_cons. split; [| done].
        intros ->. by rewrite Buffer_compare_refl in E.
    + right. exists (S k). rewrite Heq. split; [f_equal; lia | done].
Qed.

Lemma leafIndex_found (leaf : Buffer) (ls : list Buffer) :
  leaf ∈ ls -> exists k, leafIndex leaf ls 0 None = Some k /\ ls !! k = Some leaf.
Proof.
  intros Hin. destruct (leafIndex_spec leaf ls 0 None) as [[_ Hnot] | (k & Heq & Hk)];
    [done | eauto].
Qed.

End MerkleFacts.

(** ** Proof server and contract: the round trip *)

Section ProofServerFacts.
Import Bytes JS MerkleTreeJS ProofServer.

Variable keccak256 : Buffer -> Buffer.
Hypothesis keccak256_length : forall b, length (keccak256 b) = 32%nat.

(** On two digests the contract's [_hashPair] and the tree's sorted-pair
    hash are the same function. *)
Lemma _hashPair_hashPair (a b : Buffer) :
  length a = length b -> Airdrop._hashPair keccak256 a b = hashPair keccak256 a b.
Proof.
  intros Hlen. unfold Airdrop._hashPair, Airdrop.bytes32_lt, Airdrop._efficientHash,
    hashPair, sortPair.
  rewrite (Buffer_compare_be_value a b Hlen).
  destruct (Z.compare_spec (be_value a) (be_value b)) as [E|E|E].
  - assert (a = b) as ->.
    { apply Buffer_compare_eq. rewrite (Buffer_compare_be_value a b Hlen).
      by apply Z.compare_eq_iff. }
    rewrite Z.ltb_irrefl. simpl. by rewrite app_nil_r.
  - apply Z.ltb_lt in E. rewrite E. simpl. by rewrite app_nil_r.
  - assert ((be_value a <? be_value b) = false) as -> by (apply Z.ltb_ge; lia).
    simpl. by rewrite app_nil_r.
Qed.

Lemma hashPair_is_digest (a b : Buffer) : is_digest (hashPair keccak256 a b).
Proof. apply keccak256_length. Qed.

Lemma fold_is_digest (proof : list Buffer) : forall x,
  is_digest x -> Forall is_digest proof ->
  is_digest (fold_left (Airdrop._hashPair keccak256) proof x).
Proof.
  induction proof as [|s proof IH]; intros x Hx Hp; [done |].
  inversion Hp as [|? ? Hs Hp']; subst. simpl. apply IH; [| done].
  rewrite _hashPair_hashPair by (unfold is_digest in *; congruence).
  apply hashPair_is_digest.
Qed.

(** For an amount that fits [uint256] and the lower-case text of a 20-byte
    address, [encodeLeaf] is [abi.encodePacked(address, uint256)]. *)
Lemma encodeLeaf_in_range (account : Z) (amount : string) (amt : Z) :
  BigInt amount = Some amt -> 0 <= amt < 2 ^ 256 ->
  encodeLeaf (bufferToHex (be_bytes 20 account)) amount
  = Some (Airdrop.encodePacked account amt).
Proof.
  intros Hbn Hr. unfold encodeLeaf. rewrite Hbn. cbn [mbind option_bind].
  by rewrite addrBuf_of_hex, amountBuf_in_range.
Qed.

Lemma bytes32_of_hex_bufferToHex (d : Buffer) :
  is_digest d -> Airdrop.bytes32_of_hex (bufferToHex d) = Some d.
Proof.
  intros Hd. unfold Airdrop.bytes32_of_hex, bufferToHex.
  rewrite chars_string_of_list_ascii.
  rewrite Buffer_from_hex_roundtrip, Buffer_toString_hex_length, Hd.
  reflexivity.
Qed.

Lemma mapM_bytes32_of_hex (proof : list Buffer) :
  Forall is_digest proof ->
  mapM Airdrop.bytes32_of_hex (map bufferToHex proof) = Some proof.
Proof.
  intros Hp. apply mapM_Some. induction Hp as [|d proof Hd Hp IH]; simpl.
  - constructor.
  - constructor; [by apply bytes32_of_hex_bufferToHex | done].
Qed.

Lemma leavesOf_digests (wl : list entry) (ls : list Buffer) :
  leavesOf keccak256 wl = Some ls -> Forall is_digest ls.
Proof.
  unfold leavesOf. intros H. apply mapM_Some in H.
  induction H as [|e l wl ls He H IH]; constructor; [| done].
  destruct (encodeLeaf _ _); [| discriminate]. injection He as <-.
  apply keccak256_length.
Qed.

Lemma leavesOf_elem (wl : list entry) (ls : list Buffer) (e : entry) :
  leavesOf keccak256 wl = Some ls -> e ∈ wl ->
  exists enc, encodeLeaf (toLowerCase (address e)) (amount e) = Some enc
              /\ keccak256 enc ∈ ls.
Proof.
  unfold leavesOf. intros H Hin. apply mapM_Some in H.
  induction H as [|e' l wl ls He H IH]; [by apply elem_of_nil in Hin |].
  apply elem_of_cons in Hin as [-> | Hin].
  - destruct (encodeLeaf _ _) as [enc|]; [| discriminate]. injection He as <-.
    exists enc. split; [done | apply list_elem_of_here].
  - destruct (IH Hin) as (enc & Henc & Hl). exists enc. split; [done |].
    by apply list_elem_of_further.
Qed.

(** The proof the tree gives for one of its leaves folds, with the
    contract's pair function, to the tree's root. *)
Lemma getProof_processProof (ls : list Buffer) (leaf : Buffer) :
  Forall is_digest ls -> leaf ∈ ls ->
  let t := new_MerkleTree keccak256 ls in
  Airdrop.processProof keccak256 (getProof t leaf) leaf = getRoot t
  /\ Forall is_digest (getProof t leaf) /\ is_digest (getRoot t).
Proof.
  intros Hls Hin t.
  destruct (leafIndex_found leaf ls Hin) as (k & Hk & Hlook).
  assert (Forall is_digest (getProof t leaf)) as Hp.
  { unfold getProof, t. simpl. rewrite Hk.
    apply proofFrom_wf. by apply createHashes_wf; [intros; apply hashPair_is_digest |]. }
  assert (Airdrop.processProof keccak256 (getProof t leaf) leaf = getRoot t) as Hfold.
  { unfold Airdrop.processProof, getProof, t. simpl leaves. rewrite Hk. simpl layers.
    apply (fold_proofFrom keccak256 (Airdrop._hashPair keccak256) is_digest); try done.
    - intros a b Ha Hb. apply _hashPair_hashPair. unfold is_digest in *. congruence.
    - intros; apply hashPair_is_digest. }
  split; [done |]. split; [done |].
  rewrite <- Hfold. apply fold_is_digest; [| done].
  exact (Forall_lookup_1 is_digest ls k leaf Hls Hlook).
Qed.

(** C1: for every entry of the whitelist the server started on,
    [GET /proof] answers with a proof, and the contract's fold of that proof
    from the entry's leaf digest arrives at the root the server published,
    so [MerkleProof.verify] holds; when the entry's address is the text of a
    20-byte account and its amount fits [uint256], that leaf is the one
    [claim] recomputes for the account, and the claim succeeds. *)
Theorem proof_roundtrip (wl : list entry) (srv : server) (e : entry) :
  start keccak256 wl = Some srv ->
  e ∈ wl ->
  exists enc proof32 root32,
    encodeLeaf (toLowerCase (address e)) (amount e) = Some enc
    /\ get_proof keccak256 srv (address e) (amount e)
       = Some (ProofData (toLowerCase (address e)) (amount e)
                 (map bufferToHex proof32) (bufferToHex (keccak256 enc)) (root srv))
    /\ mapM Airdrop.bytes32_of_hex (map bufferToHex proof32) = Some proof32
    /\ Airdrop.bytes32_of_hex (root srv) = Some root32
    /\ Airdrop.verify keccak256 proof32 root32 (keccak256 enc) = true
    /\ forall account amt deployer : Z,
         toLowerCase (address e) = bufferToHex (be_bytes 20 account) ->
         BigInt (amount e) = Some amt ->
         0 <= amt < 2 ^ 256 ->
         enc = Airdrop.encodePacked account amt
         /\ Airdrop.claim keccak256 account amt proof32
              (Airdrop.constructor deployer root32)
            = Airdrop.Success
                {| Airdrop.owner := deployer; Airdrop.merkleRoot := root32;
                   Airdrop.claimed := {[ account := true ]} |}
                [Airdrop.Claimed account amt].
Proof.
  intros Hstart Hin.
  unfold start in Hstart.
  destruct (leavesOf keccak256 wl) as [ls|] eqn:Hls; [| discriminate].
  cbn [mbind option_bind] in Hstart. injection Hstart as <-.
  destruct (leavesOf_elem wl ls e Hls Hin) as (enc & Henc & Hleaf).
  pose proof (leavesOf_digests wl ls Hls) as Hdig.
  destruct (getProof_processProof ls _ Hdig Hleaf) as (Hfold & Hproof & Hroot).
  set (t := new_MerkleTree keccak256 ls) in *.
  set (leaf := keccak256 enc) in *.
  assert (Airdrop.verify keccak256 (getProof t leaf) (getRoot t) leaf = true) as Hverify.
  { unfold Airdrop.verify. by apply bool_decide_eq_true_2. }
  exists enc, (getProof t leaf), (getRoot t).
  split; [exact Henc |]. split; [| split; [| split; [| split]]].
  - unfold get_proof. cbn [whitelist tree root].
    destruct (find _ wl) as [e'|] eqn:Hfind.
    + rewrite Henc. reflexivity.
    + apply list_elem_of_In in Hin.
      pose proof (find_none _ _ Hfind e Hin) as Hno.
      unfold matches in Hno. by rewrite !String.eqb_refl in Hno.
  - by apply mapM_bytes32_of_hex.
  - by apply bytes32_of_hex_bufferToHex.
  - exact Hverify.
  - intros account amt deployer Haddr Hamt Hrange.
    pose proof (encodeLeaf_in_range account (amount e) amt Hamt Hrange) as Hpacked.
    rewrite <- Haddr, Henc in Hpacked. injection Hpacked as Hpacked.
    split; [exact Hpacked |].
    unfold Airdrop.claim, Airdrop.constructor, Airdrop.claimed_at. cbn [Airdrop.claimed].
    rewrite lookup_empty. cbn [default Airdrop.merkleRoot Airdrop.owner].
    rewrite <- Hpacked. fold leaf. rewrite Hverify. reflexivity.
Qed.

(** C6: a one-entry whitelist gives a tree whose root is the entry's leaf
    digest; the proof for the entry is empty, and the empty proof verifies
    the entry against that root. *)
Theorem single_entry_tree (e : entry) (enc : Buffer) :
  encodeLeaf (toLowerCase (address e)) (amount e) = Some enc ->
  exists srv,
    start keccak256 [e] = Some srv
    /\ getRoot (tree srv) = keccak256 enc
    /\ root srv = bufferToHex (keccak256 enc)
    /\ getProof (tree srv) (keccak256 enc) = []
    /\ get_proof keccak256 srv (address e) (amount e)
       = Some (ProofData (toLowerCase (address e)) (amount e) []
                 (bufferToHex (keccak256 enc)) (bufferToHex (keccak256 enc)))
    /\ Airdrop.verify keccak256 [] (getRoot (tree srv)) (keccak256 enc) = true
    /\ forall account amt deployer,
         enc = Airdrop.encodePacked account amt ->
         Airdrop.claim keccak256 account amt []
           (Airdrop.constructor deployer (getRoot (tree srv)))
         = Airdrop.Success
             {| Airdrop.owner := deployer; Airdrop.merkleRoot := keccak256 enc;
                Airdrop.claimed := {[ account := true ]} |}
             [Airdrop.Claimed account amt].
Proof.
  intros Henc.
  assert (getProof (new_MerkleTree keccak256 [keccak256 enc]) (keccak256 enc) = [])
    as Hproof.
  { unfold getProof. cbn [new_MerkleTree leaves leafIndex].
    rewrite Buffer_compare_refl. reflexivity. }
  eexists. split.
  { unfold start, leavesOf. cbn [mapM]. rewrite Henc. reflexivity. }
  cbn [tree root]. split; [reflexivity |]. split; [reflexivity |].
  split; [exact Hproof |]. split; [| split].
  - unfold get_proof. cbn [whitelist find]. unfold matches.
    rewrite !String.eqb_refl. cbn [andb]. rewrite Henc. cbn [fmap option_fmap option_map mbind option_bind tree root].
    unfold getHexProof. rewrite Hproof. reflexivity.
  - unfold Airdrop.verify. apply bool_decide_eq_true_2. reflexivity.
  - intros account amt deployer ->.
    unfold Airdrop.claim, Airdrop.constructor, Airdrop.claimed_at. cbn [Airdrop.claimed].
    rewrite lookup_empty. cbn [default Airdrop.merkleRoot Airdrop.owner].
    unfold Airdrop.verify. rewrite bool_decide_eq_true_2 by reflexivity. reflexivity.
Qed.

(** C7: in a layer of odd length the unpaired last node goes up as it is:
    the next layer ends with that very node and has one node per pair plus
    it; proof generation adds no sibling for it at that layer; and in the
    tree over three leaves every leaf's proof verifies against the root. *)
Theorem odd_node_carried_up :
  (forall nodes : list Buffer,
      Nat.odd (length nodes) = true ->
      last (nextLayer keccak256 nodes) = last nodes
      /\ length (nextLayer keccak256 nodes) = S (length nodes / 2)
      /\ forall upper,
           proofFrom (nodes :: upper) (length nodes - 1)
           = proofFrom upper ((length nodes - 1) / 2))
  /\ (forall a b c x : Buffer,
        is_digest a -> is_digest b -> is_digest c -> x ∈ [a; b; c] ->
        let t := new_MerkleTree keccak256 [a; b; c] in
        layers t = [ [a; b; c];
                     [hashPair keccak256 a b; c];
                     [hashPair keccak256 (hashPair keccak256 a b) c] ]
        /\ Airdrop.verify keccak256 (getProof t x) (getRoot t) x = true).
Proof.
  split.
  - intros nodes Hodd. split; [| split].
    + revert Hodd. induction nodes as [| a | a b l IH] using list_pair_ind; intros Hodd.
      * discriminate.
      * reflexivity.
      * cbn [length] in Hodd. rewrite Nat.odd_succ_succ in Hodd.
        specialize (IH Hodd). cbn [nextLayer].
        rewrite last_cons, IH, !last_cons.
        destruct l as [|y l]; [discriminate |].
        rewrite last_cons. destruct (last l); reflexivity.
    + rewrite nextLayer_length.
      destruct (Nat.Even_or_Odd (length nodes)) as [[k Hk] | [k Hk]].
      * rewrite Hk, Nat.odd_even in Hodd. discriminate.
      * rewrite Hk. replace (S (2 * k + 1)) with ((k + 1) * 2)%nat by lia.
        rewrite Nat.div_mul by lia.
        replace (2 * k + 1)%nat with (1 + k * 2)%nat by lia.
        rewrite Nat.div_add by lia. simpl. lia.
    + intros upper. cbn [proofFrom].
      assert (Nat.odd (length nodes - 1) = false) as Hev.
      { destruct (length nodes) as [|n] eqn:E; [discriminate |].
        rewrite Nat.odd_succ in Hodd. replace (S n - 1)%nat with n by lia.
        rewrite <- Nat.negb_even, Hodd. reflexivity. }
      rewrite Hev.
      rewrite (lookup_ge_None_2 nodes); [reflexivity |].
      destruct (length nodes); [discriminate | lia].
  - intros a b c x Ha Hb Hc Hx t. split; [reflexivity |].
    assert (Forall is_digest [a; b; c]) as Hls by (repeat constructor; done).
    destruct (getProof_processProof [a; b; c] x Hls Hx) as (Hfold & _ & _).
    unfold Airdrop.verify. apply bool_decide_eq_true_2. exact Hfold.
Qed.

End ProofServerFacts.

(** C8 as the code has it: over zero leaves the tree is built without an
    error; its root is the empty buffer, published as [0x]. *)
Theorem empty_tree_has_empty_root (hashFn : Bytes.Buffer -> Bytes.Buffer) :
  MerkleTreeJS.getRoot (MerkleTreeJS.new_MerkleTree hashFn []) = []
  /\ MerkleTreeJS.getHexRoot (MerkleTreeJS.new_MerkleTree hashFn []) = "0x"%string
  /\ ProofServer.start hashFn []
     = Some {| ProofServer.whitelist := [];
               ProofServer.tree := MerkleTreeJS.new_MerkleTree hashFn [];
               ProofServer.root := "0x" |}.
Proof. repeat split. Qed.

(** C8 as stated fails: the server starts on the empty whitelist. *)
Lemma empty_whitelist_is_built :
  ProofServer.start Samples.checksum32 [] <> None.
Proof. discriminate. Qed.

(** C9 at an amount of 2^256: [encodeLeaf] raises nothing and returns the
    52 bytes it returns for 2^252. *)
Theorem encodeLeaf_overflow_is_not_rejected :
  ProofServer.encodeLeaf "0x70997970c51812dc3a010c7d01b50e0d17dc79c8"
    "115792089237316195423570985008687907853269984665640564039457584007913129639936"
  = Some (Airdrop.encodePacked 0x70997970c51812dc3a010c7d01b50e0d17dc79c8 (2 ^ 252))
  /\ ProofServer.encodeLeaf "0x70997970c51812dc3a010c7d01b50e0d17dc79c8"
       "115792089237316195423570985008687907853269984665640564039457584007913129639936"
     = ProofServer.encodeLeaf "0x70997970c51812dc3a010c7d01b50e0d17dc79c8"
         "7237005577332262213973186563042994240829374041602535252466099000494570602496".
Proof. split; vm_compute; reflexivity. Qed.

(** ** The Airdrop contract: one claim per account *)

Section AirdropFacts.
Import Bytes Airdrop.

Variable keccak256 : Buffer -> Buffer.

Lemma claimed_at_insert (st : gmap Z bool) (a b : Z) :
  default false (<[a := true]> st !! b)
  = if decide (a = b) then true else default false (st !! b).
Proof.
  destruct (decide (a = b)) as [-> | Hne].
  - by rewrite lookup_insert_eq.
  - by rewrite lookup_insert_ne.
Qed.

Lemma claim_inv (s amt : Z) (proof : list Buffer) (st st' : storage) (logs : list event) :
  claim keccak256 s amt proof st = Success st' logs ->
  claimed_at st s = false
  /\ logs = [Claimed s amt]
  /\ owner st' = owner st /\ merkleRoot st' = merkleRoot st
  /\ claimed st' = <[s := true]> (claimed st).
Proof.
  unfold claim. destruct (claimed_at st s) eqn:E; [discriminate |].
  destruct (verify _ _ _ _); [| discriminate].
  intros [= <- <-]. auto.
Qed.

Lemma claims_of_app (account : Z) (l1 l2 : list event) :
  claims_of account (l1 ++ l2) = (claims_of account l1 + claims_of account l2)%nat.
Proof.
  induction l1 as [|[a v] l1 IH]; simpl; [reflexivity |].
  destruct (a =? account); simpl; lia.
Qed.

(** What one successful transaction does to the flag of [account] and how
    many [Claimed] events for [account] it logs. *)
Lemma exec_flag (st st' : storage) (c : call) (logs : list event) (account : Z) :
  exec keccak256 st c = Success st' logs ->
  (claimed_at st account = true ->
     claimed_at st' account = true /\ claims_of account logs = 0%nat)
  /\ (claimed_at st account = false ->
        (claimed_at st' account = true /\ claims_of account logs = 1%nat)
        \/ (claimed_at st' account = false /\ claims_of account logs = 0%nat)).
Proof.
  destruct c as [s amt proof | s r | s o | s]; simpl exec.
  - intros H. apply claim_inv in H as (Hs & -> & _ & _ & Hc).
    unfold claimed_at in *. rewrite Hc, claimed_at_insert. simpl claims_of.
    destruct (decide (s = account)) as [-> | Hne].
    + rewrite Z.eqb_refl. split; [congruence | auto].
    + assert ((s =? account) = false) as -> by (apply Z.eqb_neq; done).
      split; [auto |]. intros ->. auto.
  - unfold setMerkleRoot. destruct (s =? owner st); [| discriminate].
    intros [= <- <-]. unfold claimed_at. simpl. split; auto.
  - unfold transferOwnership. destruct (s =? owner st); [| discriminate].
    destruct (o =? 0); [discriminate |].
    intros [= <- <-]. unfold claimed_at. simpl. split; auto.
  - unfold renounceOwnership. destruct (s =? owner st); [| discriminate].
    intros [= <- <-]. unfold claimed_at. simpl. split; auto.
Qed.

Lemma run_flag (cs : list call) : forall (st : storage) (account : Z),
  (claimed_at st account = true ->
     claimed_at (run keccak256 st cs).1 account = true
     /\ claims_of account (run keccak256 st cs).2 = 0%nat)
  /\ (claimed_at st account = false ->
        (claimed_at (run keccak256 st cs).1 account = true
         /\ claims_of account (run keccak256 st cs).2 = 1%nat)
        \/ (claimed_at (run keccak256 st cs).1 account = false
            /\ claims_of account (run keccak256 st cs).2 = 0%nat)).
Proof.
  induction cs as [|c cs IH]; intros st account.
  - simpl. split; auto.
  - simpl run. destruct (exec keccak256 st c) as [reason | st1 logs] eqn:E.
    + apply IH.
    + destruct (exec_flag st st1 c logs account E) as [Ht Hf].
      destruct (IH st1 account) as [IHt IHf].
      destruct (run keccak256 st1 cs) as [st2 logs2]. simpl in *.
      rewrite claims_of_app. split.
      * intros H. destruct (Ht H) as [H1 ->]. destruct (IHt H1) as [H2 ->]. auto.
      * intros H. destruct (Hf H) as [[H1 ->] | [H1 ->]].
        -- destruct (IHt H1) as [H2 ->]. auto.
        -- destruct (IHf H1) as [[H2 ->] | [H2 ->]]; auto.
Qed.

(** C2: a successful [claim] sets the caller's flag and logs
    [Claimed(caller, amount)]; with the flag set, [claim] by that account
    reverts with "Already claimed"; no transaction clears a flag, so after
    a successful claim and any further transactions a claim by the same
    account reverts; and in every sequence of transactions from deployment
    an account has at most one [Claimed] event, exactly one when its flag
    is set. *)
Theorem claim_at_most_once :
  (forall st s amt proof st' logs,
      claim keccak256 s amt proof st = Success st' logs ->
      claimed_at st' s = true /\ logs = [Claimed s amt])
  /\ (forall st s amt proof,
        claimed_at st s = true ->
        claim keccak256 s amt proof st = Revert "Already claimed")
  /\ (forall st c st' logs account,
        exec keccak256 st c = Success st' logs ->
        claimed_at st account = true -> claimed_at st' account = true)
  /\ (forall st s amt proof st' logs cs amt' proof',
        claim keccak256 s amt proof st = Success st' logs ->
        claim keccak256 s amt' proof' (run keccak256 st' cs).1 = Revert "Already claimed")
  /\ (forall deployer root cs account,
        let final := run keccak256 (constructor deployer root) cs in
        (claims_of account final.2 <= 1)%nat
        /\ (claimed_at final.1 account = true <-> claims_of account final.2 = 1%nat)).
Proof.
  split; [| split; [| split; [| split]]].
  - intros st s amt proof st' logs H.
    apply claim_inv in H as (_ & -> & _ & _ & Hc).
    unfold claimed_at. rewrite Hc, lookup_insert_eq. auto.
  - intros st s amt proof H. unfold claim. by rewrite H.
  - intros st c st' logs account H Hset.
    by destruct (exec_flag st st' c logs account H) as [Ht _], (Ht Hset).
  - intros st s amt proof st' logs cs amt' proof' H.
    apply claim_inv in H as (_ & _ & _ & _ & Hc).
    assert (claimed_at st' s = true) as Hset
      by (unfold claimed_at; by rewrite Hc, lookup_insert_eq).
    destruct (run_flag cs st' s) as [Ht _]. destruct (Ht Hset) as [Hfinal _].
    unfold claim. by rewrite Hfinal.
  - intros deployer root cs account final.
    destruct (run_flag cs (constructor deployer root) account) as [_ Hf].
    destruct Hf as [[H1 H2] | [H1 H2]]; [reflexivity | |]; fold final in H1, H2.
    + rewrite H1, H2. split; [lia | tauto].
    + rewrite H1, H2. split; [lia |]. split; [discriminate | lia].
Qed.

End AirdropFacts.

(** ** The relayer *)

Section RelayerFacts.
Import Relayer.

Variable recoverAddress : body -> option string.
Variable StringToNumber_lt : string -> Z -> bool.

Abbreviation receive := (receive recoverAddress StringToNumber_lt).
Abbreviation relay_claim := (relay_claim recoverAddress StringToNumber_lt).
Abbreviation verifySignature := (verifySignature recoverAddress).
Abbreviation expired := (expired StringToNumber_lt).
Abbreviation sys_step := (sys_step recoverAddress StringToNumber_lt).
Abbreviation sys_run := (sys_run recoverAddress StringToNumber_lt).

Lemma falsy_not_truthy (v : value) : falsy v -> truthy v = false.
Proof. intros [-> | [-> | [-> | [-> | ->]]]]; reflexivity. Qed.

Lemma missing_fields_true (req : body) :
  truthy (recipient req) = false \/ truthy (amount req) = false
  \/ truthy (nonce req) = false \/ truthy (deadline req) = false
  \/ truthy (signature req) = false ->
  missing_fields req = true.
Proof.
  unfold missing_fields. intros [H | [H | [H | [H | H]]]]; rewrite H; simpl;
    rewrite ?orb_true_r; reflexivity.
Qed.

Lemma missing_fields_false (req : body) :
  missing_fields req = false ->
  truthy (recipient req) = true /\ truthy (amount req) = true
  /\ truthy (nonce req) = true /\ truthy (deadline req) = true
  /\ truthy (signature req) = true.
Proof.
  unfold missing_fields.
  destruct (truthy (recipient req)), (truthy (amount req)), (truthy (nonce req)),
    (truthy (deadline req)), (truthy (signature req)); simpl; intros H;
    try discriminate; auto.
Qed.

Lemma relay_claim_rejected_early (e : env) (st : state) (req : body) (err : string)
    (done : list check) :
  receive (now e) st req = rejected st err done ->
  relay_claim e st req = rejected st err done.
Proof.
  intros H. unfold relay_claim. rewrite H. reflexivity.
Qed.

Lemma receive_store (t : Z) (st : state) (req : body) : store (receive t st req) = st.
Proof.
  unfold Relayer.receive.
  repeat match goal with |- context [if ?c then _ else _] => destruct c end; reflexivity.
Qed.

(** What a request that gets past the synchronous checks satisfies. *)
Lemma receive_suspended (t : Z) (st : state) (req : body) (s : stage) :
  next (receive t st req) = Some s ->
  s = AwaitClaimed /\ missing_fields req = false
  /\ expired (t / 1000) (deadline req) = false
  /\ (nonce req ∉ usedNonces st) /\ verifySignature req = true
  /\ receive t st req
     = suspended st AwaitClaimed
         [ShapeCheck; DeadlineCheck; NonceCheck; SignatureCheck; ClaimedCheck].
Proof.
  unfold Relayer.receive.
  destruct (missing_fields req); [discriminate |].
  destruct (expired _ _); [discriminate |].
  destruct (bool_decide _) eqn:Hn; [discriminate |].
  destruct (verifySignature req); [| discriminate].
  simpl. intros [= <-]. apply bool_decide_eq_false in Hn. repeat split; done.
Qed.

Lemma receive_accepts (t : Z) (st : state) (req : body) :
  missing_fields req = false -> expired (t / 1000) (deadline req) = false ->
  nonce req ∉ usedNonces st -> verifySignature req = true ->
  receive t st req
  = suspended st AwaitClaimed
      [ShapeCheck; DeadlineCheck; NonceCheck; SignatureCheck; ClaimedCheck].
Proof.
  intros Hm He Hn Hs. unfold Relayer.receive.
  rewrite Hm, He, Hs, bool_decide_eq_false_2 by done. reflexivity.
Qed.

(** C10: a request in which one of the five fields is absent or falsy
    gets the 400 reply "Missing required fields"; only the shape check has
    run (no deadline, nonce or signature check) and the registries are as
    they were; in particular so does a request whose amount, nonce or
    deadline is the number 0. *)
Theorem missing_fields_rejected (e : env) (st : state) (req : body) :
  (falsy (recipient req) \/ falsy (amount req) \/ falsy (nonce req)
   \/ falsy (deadline req) \/ falsy (signature req) ->
   relay_claim e st req
   = {| store := st;
        reply := Some (BadRequest
                   "Missing required fields: recipient, amount, nonce, deadline, signature");
        next := None;
        performed := [ShapeCheck] |})
  /\ (amount req = VNum 0 \/ nonce req = VNum 0 \/ deadline req = VNum 0 ->
      relay_claim e st req
      = {| store := st;
           reply := Some (BadRequest
                      "Missing required fields: recipient, amount, nonce, deadline, signature");
           next := None;
           performed := [ShapeCheck] |}).
Proof.
  assert (forall r : body,
            truthy (recipient r) = false \/ truthy (amount r) = false
            \/ truthy (nonce r) = false \/ truthy (deadline r) = false
            \/ truthy (signature r) = false ->
            relay_claim e st r
            = rejected st
                "Missing required fields: recipient, amount, nonce, deadline, signature"
                [ShapeCheck]) as Hshape.
  { intros r H. apply relay_claim_rejected_early. unfold Relayer.receive.
    by rewrite missing_fields_true. }
  split; intros H; apply Hshape.
  - destruct H as [H | [H | [H | [H | H]]]]; apply falsy_not_truthy in H; auto 6.
  - destruct H as [H | [H | H]]; rewrite H; auto 6.
Qed.

(** A request the synchronous checks reject leaves the whole system as it
    was: no registry changes and no invocation stays suspended. *)
Lemma arrive_rejected (s : system) (t : Z) (req : body) :
  next (receive t (registries s) req) = None ->
  sys_step s (Arrive t req) = Some s.
Proof.
  intros Hnext. cbn [Relayer.sys_step]. rewrite Hnext, receive_store, app_nil_r.
  by destruct s.
Qed.

(** C5: a request whose deadline is a number below the current time in
    seconds gets a 400 reply with the registries as they were and nothing
    left suspended, so its arrival leaves the system unchanged; when its
    five fields are present the reply is "Request expired", after the shape
    and deadline checks only. *)
Theorem expired_rejected (e : env) (st : state) (req : body) (d : Z) :
  deadline req = VNum d ->
  d < now e / 1000 ->
  (store (relay_claim e st req) = st
   /\ next (relay_claim e st req) = None
   /\ (exists err, reply (relay_claim e st req) = Some (BadRequest err))
   /\ forall s : system, sys_step s (Arrive (now e) req) = Some s)
  /\ (missing_fields req = false ->
      relay_claim e st req
      = {| store := st; reply := Some (BadRequest "Request expired"); next := None;
           performed := [ShapeCheck; DeadlineCheck] |}).
Proof.
  intros Hd Hlt.
  assert (expired (now e / 1000) (deadline req) = true) as Hexp.
  { rewrite Hd. simpl. apply Z.ltb_lt. exact Hlt. }
  assert (forall s : system, sys_step s (Arrive (now e) req) = Some s) as Hsys.
  { intros s. apply arrive_rejected. unfold Relayer.receive.
    destruct (missing_fields req); [reflexivity |]. by rewrite Hexp. }
  destruct (missing_fields req) eqn:Hm.
  - rewrite (relay_claim_rejected_early e st req
               "Missing required fields: recipient, amount, nonce, deadline, signature"
               [ShapeCheck]).
    + split; [| discriminate]. simpl. eauto 6.
    + unfold Relayer.receive. by rewrite Hm.
  - rewrite (relay_claim_rejected_early e st req "Request expired"
               [ShapeCheck; DeadlineCheck]).
    + split; [| reflexivity]. simpl. eauto 6.
    + unfold Relayer.receive. by rewrite Hm, Hexp.
Qed.

(** A resumed invocation that suspends again has moved to the next
    [await] of the handler's text. *)
Lemma resume_next_stage (t : Z) (st : state) (req : body) (s s' : stage) (a : answer)
    (o : outcome) :
  resume t st req s a = Some o -> next o = Some s' ->
  stage_rank s' = S (stage_rank s).
Proof.
  destruct s, a as [[[|]|] | [[|]|] | [|] | [|]]; simpl;
    intros [= <-]; simpl; intros [= <-]; reflexivity.
Qed.

(** C4 as the code has it. The checks are decided in the order shape,
    deadline, nonce, signature, already-claimed query, proof fetch,
    submission, and the first one that fails decides the reply, whatever
    the later ones would say: missing fields are reported whatever the
    deadline, the nonce and the signature are; a passed deadline whatever
    the nonce and the signature are; a used nonce whatever the signature
    is; a bad signature whatever the chain and the proof server would
    answer; an account that has claimed, or a failing already-claimed
    query, whatever the proof server would answer; a missing proof, or a
    failing proof fetch, whatever the submission would do. Every reply
    other than "submitted" ends the invocation with nothing left to run.
    The steps entered are a prefix of that order, the reply is the last
    step's, the handler suspends first on the already-claimed query and
    each resumption that suspends again is at the next [await]. *)
Theorem pipeline_runs_in_order (e : env) (st : state) (req : body) :
  (missing_fields req = true ->
   relay_claim e st req
   = rejected st "Missing required fields: recipient, amount, nonce, deadline, signature"
       [ShapeCheck])
  /\ (missing_fields req = false ->
      (expired (now e / 1000) (deadline req) = true ->
       relay_claim e st req = rejected st "Request expired" [ShapeCheck; DeadlineCheck])
      /\ (expired (now e / 1000) (deadline req) = false ->
          (nonce req ∈ usedNonces st ->
           relay_claim e st req
           = rejected st "Nonce already used" [ShapeCheck; DeadlineCheck; NonceCheck])
          /\ (nonce req ∉ usedNonces st ->
              (verifySignature req = false ->
               relay_claim e st req
               = rejected st "Invalid signature"
                   [ShapeCheck; DeadlineCheck; NonceCheck; SignatureCheck])
              /\ (verifySignature req = true ->
                  match claimed_answer e with
                  | Rejected message =>
                      reply (relay_claim e st req)
                      = Some (ServerError "Failed to relay transaction" message)
                      /\ next (relay_claim e st req) = None
                  | Resolved true =>
                      reply (relay_claim e st req) = Some (BadRequest "Already claimed")
                      /\ next (relay_claim e st req) = None
                  | Resolved false =>
                      match proof_answer e with
                      | Rejected _ =>
                          reply (relay_claim e st req)
                          = Some (ServerError "Failed to relay transaction"
                                    "Failed to fetch proof from server")
                          /\ next (relay_claim e st req) = None
                      | Resolved None =>
                          reply (relay_claim e st req)
                          = Some (BadRequest "Invalid proof or not eligible")
                          /\ next (relay_claim e st req) = None
                      | Resolved (Some proof) =>
                          match claim_answer e with
                          | Rejected message =>
                              reply (relay_claim e st req)
                              = Some (ServerError "Failed to relay transaction" message)
                              /\ next (relay_claim e st req) = None
                          | Resolved hash =>
                              reply (relay_claim e st req)
                              = Some (Submitted hash
                                        "Claim transaction submitted successfully")
                              /\ next (relay_claim e st req) = Some (AwaitReceipt hash)
                          end
                      end
                  end))))
  /\ performed (relay_claim e st req) `prefix_of` pipeline_order
  /\ match reply (relay_claim e st req) with
     | Some (BadRequest err) =>
         exists c, last (performed (relay_claim e st req)) = Some c
                   /\ rejection_of c = Some err
     | Some (ServerError _ _) =>
         exists c, last (performed (relay_claim e st req)) = Some c
                   /\ c ∈ [ClaimedCheck; EligibilityCheck; Submit]
     | Some (Submitted _ _) => performed (relay_claim e st req) = pipeline_order
     | None => False
     end
  /\ (forall s, next (receive (now e) st req) = Some s -> s = AwaitClaimed)
  /\ (forall t st' s s' a o,
        resume t st' req s a = Some o -> next o = Some s' ->
        stage_rank s' = S (stage_rank s)).
Proof.
  split; [| split; [| split; [| split; [| split]]]].
  5: { intros s Hs. by destruct (receive_suspended _ _ _ _ Hs) as [-> _]. }
  5: { intros t st' s s' a o. apply resume_next_stage. }
  - intros Hm. apply relay_claim_rejected_early. unfold Relayer.receive. by rewrite Hm.
  - intros Hm. split.
    + intros He. apply relay_claim_rejected_early. unfold Relayer.receive.
      by rewrite Hm, He.
    + intros He. split.
      * intros Hn. apply relay_claim_rejected_early. unfold Relayer.receive.
        by rewrite Hm, He, bool_decide_eq_true_2.
      * intros Hn. split.
        -- intros Hs. apply relay_claim_rejected_early. unfold Relayer.receive.
           by rewrite Hm, He, bool_decide_eq_false_2, Hs.
        -- intros Hs. unfold Relayer.relay_claim.
           rewrite (receive_accepts _ _ _ Hm He Hn Hs).
           unfold and_then at 3. simpl.
           destruct (claimed_answer e) as [[|] | m]; simpl; [done | | done].
           unfold and_then at 2. simpl.
           destruct (proof_answer e) as [[p|] | m]; simpl; [| done | done].
           unfold and_then. simpl.
           by destruct (claim_answer e) as [h | m].
  - unfold Relayer.relay_claim, Relayer.receive, pipeline_order.
    destruct (missing_fields req); [simpl; by eexists |].
    destruct (expired _ _); [simpl; by eexists |].
    destruct (bool_decide _); [simpl; by eexists |].
    destruct (verifySignature req); simpl; [| by eexists].
    unfold and_then at 3; simpl.
    destruct (claimed_answer e) as [[|] | m]; simpl; try by eexists.
    unfold and_then at 2; simpl.
    destruct (proof_answer e) as [[p|] | m']; simpl; try by eexists.
    unfold and_then; simpl. destruct (claim_answer e) as [h | m'']; simpl; by exists [].
  - unfold Relayer.relay_claim, Relayer.receive, pipeline_order.
    destruct (missing_fields req); [simpl; by exists ShapeCheck |].
    destruct (expired _ _); [simpl; by exists DeadlineCheck |].
    destruct (bool_decide _); [simpl; by exists NonceCheck |].
    destruct (verifySignature req); simpl; [| by exists SignatureCheck].
    unfold and_then at 3; simpl.
    destruct (claimed_answer e) as [[|] | m]; simpl;
      [by exists ClaimedCheck | | eexists; split; [reflexivity | set_solver]].
    unfold and_then at 2; simpl.
    destruct (proof_answer e) as [[p|] | m']; simpl;
      [| by exists EligibilityCheck | eexists; split; [reflexivity | set_solver]].
    unfold and_then; simpl. destruct (claim_answer e) as [h | m'']; simpl;
      [reflexivity | eexists; split; [reflexivity | set_solver]].
Qed.

Ltac absurd_elem H :=
  repeat (apply elem_of_cons in H as [H | H]; [discriminate H |]);
  by apply elem_of_nil in H.

(** A run that reached the submission went through every check before. *)
Lemma relay_claim_submit (e : env) (st : state) (req : body) :
  Submit ∈ performed (relay_claim e st req) ->
  exists proof,
    receive (now e) st req
    = suspended st AwaitClaimed
        [ShapeCheck; DeadlineCheck; NonceCheck; SignatureCheck; ClaimedCheck]
    /\ claimed_answer e = Resolved false
    /\ proof_answer e = Resolved (Some proof).
Proof.
  unfold Relayer.relay_claim.
  destruct (next (receive (now e) st req)) as [s|] eqn:Hnext.
  - destruct (receive_suspended _ _ _ _ Hnext) as (-> & _ & _ & _ & _ & Hrecv).
    rewrite Hrecv. unfold and_then at 3. simpl.
    destruct (claimed_answer e) as [[|] | m]; simpl;
      try (intros H; absurd_elem H).
    unfold and_then at 2. simpl.
    destruct (proof_answer e) as [[p|] | m]; simpl;
      try (intros H; absurd_elem H).
    intros _. by exists p.
  - unfold and_then. rewrite Hnext. clear Hnext.
    unfold Relayer.receive.
    repeat match goal with |- context [if ?c then _ else _] => destruct c end;
      simpl; intros H; absurd_elem H.
Qed.

Lemma relay_claim_accepts (e : env) (st : state) (req : body) (proof : list string)
    (hash : string) :
  missing_fields req = false -> verifySignature req = true ->
  nonce req ∉ usedNonces st ->
  expired (now e / 1000) (deadline req) = false ->
  claimed_answer e = Resolved false ->
  proof_answer e = Resolved (Some proof) ->
  claim_answer e = Resolved hash ->
  relay_claim e st req
  = {| store := set_pending hash
                  {| pending_recipient := recipient req; pending_amount := amount req;
                     timestamp := now e |}
                  (add_nonce (nonce req) st);
       reply := Some (Submitted hash "Claim transaction submitted successfully");
       next := Some (AwaitReceipt hash);
       performed := pipeline_order |}.
Proof.
  intros Hm Hs Hn He Hc Hp Hh. unfold Relayer.relay_claim.
  rewrite (receive_accepts _ _ _ Hm He Hn Hs), Hc, Hp, Hh. reflexivity.
Qed.

Lemma accepted_again_intro (st : state) (req : body) :
  missing_fields req = false -> verifySignature req = true ->
  nonce req ∉ usedNonces st ->
  accepted_again recoverAddress StringToNumber_lt st req.
Proof.
  intros Hm Hs Hn e proof hash He Hc Hp Hh.
  by rewrite (relay_claim_accepts e st req proof hash).
Qed.

(** *** Interleaved invocations: the nonce invariant *)

Lemma lookup_delete_other {A} (l : list A) (i j : nat) (x : A) :
  l !! j = Some x -> i <> j -> exists j', delete i l !! j' = Some x.
Proof.
  intros Hj Hne. destruct (decide (j < i)%nat) as [Hlt | Hge].
  - exists j. by rewrite list_lookup_delete_lt.
  - exists (j - 1)%nat. rewrite list_lookup_delete_ge by lia.
    by replace (S (j - 1)) with j by lia.
Qed.

Lemma lookup_delete_inv {A} (l : list A) (i j : nat) (x : A) :
  delete i l !! j = Some x -> exists j', l !! j' = Some x.
Proof.
  destruct (decide (j < i)%nat) as [Hlt | Hge].
  - rewrite list_lookup_delete_lt by done. eauto.
  - rewrite list_lookup_delete_ge by lia. eauto.
Qed.

Lemma accounted_boot : accounted boot.
Proof.
  split.
  - intros n Hn. simpl in Hn. set_solver.
  - intros j tk Hj. simpl in Hj. by rewrite lookup_nil in Hj.
Qed.

Lemma accounted_arrive (s s' : system) (t : Z) (req : body) :
  accounted s -> sys_step s (Arrive t req) = Some s' ->
  accounted s'.
Proof.
  intros [Hnonce Hvalid] [= <-]. split; simpl.
  - rewrite receive_store. intros n Hn.
    destruct (Hnonce n Hn) as [(j & tk & Hj & Hh) | Hc]; [left | by right].
    exists j, tk. split; [by apply lookup_app_l_Some | done].
  - intros j tk Hj. apply lookup_app_Some in Hj as [Hj | [_ Hj]]; [by eapply Hvalid |].
    destruct (next (receive t (registries s) req)) as [st|] eqn:Hnext.
    + destruct (receive_suspended _ _ _ _ Hnext) as (_ & Hm & _).
      destruct (j - length (inflight s))%nat; simpl in Hj; [| discriminate].
      by injection Hj as <-.
    + by rewrite lookup_nil in Hj.
Qed.

(** A task whose slot is rewritten or removed: the other tasks stay. *)
Lemma other_task_stays (l : list task) (i j : nat) (tk : task) (st : option stage)
    (r : body) :
  l !! j = Some tk -> i <> j ->
  exists j', match st with
             | Some s => <[i := {| request := r; at_stage := s |}]> l
             | None => delete i l
             end !! j' = Some tk.
Proof.
  intros Hj Hne. destruct st as [s|].
  - exists j. by rewrite list_lookup_insert_ne.
  - by eapply lookup_delete_other.
Qed.

Lemma task_valid_after (l : list task) (i j : nat) (tk tk' : task) (st : option stage) :
  l !! i = Some tk ->
  (forall j tk, l !! j = Some tk -> missing_fields (request tk) = false) ->
  match st with
  | Some s => <[i := {| request := request tk; at_stage := s |}]> l
  | None => delete i l
  end !! j = Some tk' ->
  missing_fields (request tk') = false.
Proof.
  intros Hi Hvalid Hj. destruct st as [s|].
  - apply list_lookup_insert_Some in Hj as [(-> & <- & _) | [_ Hj]].
    + simpl. by eapply Hvalid.
    + by eapply Hvalid.
  - apply lookup_delete_inv in Hj as [j' Hj]. by eapply Hvalid.
Qed.

Lemma accounted_deliver (s s' : system) (t : Z) (i : nat) (a : answer) :
  accounted s -> sys_step s (Deliver t i a) = Some s' ->
  accounted s'.
Proof.
  intros [Hnonce Hvalid]. simpl.
  destruct (inflight s !! i) as [tk|] eqn:Hi; [| discriminate]. simpl.
  destruct (resume t (registries s) (request tk) (at_stage tk) a) as [o|] eqn:Hres;
    [| discriminate].
  simpl. intros [= <-].
  pose proof (Hvalid i tk Hi) as Hm.
  apply missing_fields_false in Hm as (_ & _ & Htruthy & _).
  split; simpl;
    [| intros j tk' Hj;
       exact (task_valid_after (inflight s) i j tk tk' (next o) Hi Hvalid Hj)].
  (* a nonce held by another task, or confirmed before, stays accounted for *)
  assert (forall n, n ∈ usedNonces (registries s) ->
            (holds_nonce n tk ->
               (exists s', next o = Some s' /\ match s' with
                                              | AwaitClaim _ | AwaitReceipt _ => True
                                              | _ => False end)
               \/ (is_confirmation (at_stage tk) a = true)) ->
            (exists j tk',
                match next o with
                | Some st => <[i := {| request := request tk; at_stage := st |}]> (inflight s)
                | None => delete i (inflight s)
                end !! j = Some tk' /\ holds_nonce n tk')
            \/ (exists r, r ∈ (if is_confirmation (at_stage tk) a
                               then request tk :: confirmed s else confirmed s)
                          /\ nonce r = n)) as Hkeep.
  { intros n Hn Hself.
    destruct (Hnonce n Hn) as [(j & tk' & Hj & Hh) | (r & Hr & Hrn)].
    - destruct (decide (i = j)) as [<- | Hne].
      + rewrite Hi in Hj. injection Hj as <-.
        destruct (Hself Hh) as [(st & Hst & Hstage) | Hconf].
        * left. exists i, {| request := request tk; at_stage := st |}.
          rewrite Hst. split.
          -- apply list_lookup_insert_eq. by eapply lookup_lt_Some.
          -- destruct Hh as [Hreq _]. split; [done | done].
        * right. exists (request tk). rewrite Hconf.
          split; [apply list_elem_of_here | apply Hh].
      + left. destruct (other_task_stays (inflight s) i j tk' (next o) (request tk) Hj Hne)
          as [j' Hj'].
        by exists j', tk'.
    - right. exists r. split; [| done].
      destruct (is_confirmation _ _); [by apply list_elem_of_further | done]. }
  destruct tk as [req stg]. simpl in *.
  destruct stg as [| | proof | hash], a as [[b|m] | [p|m] | [h|m] | [u|m]];
    try discriminate; simpl in Hres.
  - (* claimed(recipient) resolved *)
    destruct b; injection Hres as <-; simpl in *;
      intros n Hn; apply Hkeep; [done | intros [_ []] | done | intros [_ []]].
  - (* claimed(recipient) rejected *)
    injection Hres as <-. simpl in *. rewrite Htruthy. simpl.
    intros n Hn. apply Hkeep; [set_solver | intros [_ []]].
  - (* the proof server answered *)
    destruct p as [proof|]; injection Hres as <-; simpl in *.
    + intros n Hn. apply elem_of_union in Hn as [Hn | Hn].
      * apply elem_of_singleton in Hn as ->. left.
        exists i, {| request := req; at_stage := AwaitClaim proof |}. split.
        -- apply list_lookup_insert_eq. by eapply lookup_lt_Some.
        -- by split.
      * apply Hkeep; [done | intros [_ []]].
    + intros n Hn. apply Hkeep; [done | intros [_ []]].
  - (* the proof server failed *)
    injection Hres as <-. simpl in *. rewrite Htruthy. simpl.
    intros n Hn. apply Hkeep; [set_solver | intros [_ []]].
  - (* contract.claim sent the transaction *)
    injection Hres as <-. simpl in *.
    intros n Hn. apply Hkeep; [done |]. intros _. left. by exists (AwaitReceipt h).
  - (* contract.claim threw *)
    injection Hres as <-. simpl in *. rewrite Htruthy. simpl.
    intros n Hn. apply Hkeep; [set_solver |]. intros [Hreq _]. set_solver.
  - (* the transaction was mined *)
    injection Hres as <-. simpl in *.
    intros n Hn. apply Hkeep; [done |]. intros _. by right.
  - (* the transaction failed *)
    injection Hres as <-. simpl in *.
    intros n Hn. apply Hkeep; [set_solver |]. intros [Hreq _]. set_solver.
Qed.

Lemma accounted_run (ls : list label) : forall s s',
  accounted s -> sys_run s ls = Some s' -> accounted s'.
Proof.
  induction ls as [|l ls IH]; intros s s' Hacc Hrun.
  - by injection Hrun as <-.
  - cbn [Relayer.sys_run] in Hrun.
    destruct (sys_step s l) as [s1|] eqn:Hstep; [| discriminate].
    simpl in Hrun. apply (IH s1 s'); [| done].
    destruct l as [t req | t i a];
      [by eapply accounted_arrive | by eapply accounted_deliver].
Qed.

(** C3: when a request has reached the submission, (1) a submission that
    throws leaves the nonce out of [usedNonces] and the same request is
    accepted again; (2) a sent transaction keeps the nonce in [usedNonces]
    while it is pending and once it is confirmed, and when it fails the
    nonce is taken out and the same request is accepted again; (3) over any
    interleaving of requests and answers, a nonce in [usedNonces] is held by
    an invocation between reservation and settlement or is the nonce of a
    confirmed transaction. *)
Theorem nonce_released_on_failure :
  (forall e st req,
      Submit ∈ performed (relay_claim e st req) ->
      match claim_answer e with
      | Rejected message =>
          reply (relay_claim e st req)
          = Some (ServerError "Failed to relay transaction" message)
          /\ (nonce req ∉ usedNonces (store (relay_claim e st req)))
          /\ accepted_again recoverAddress StringToNumber_lt
               (store (relay_claim e st req)) req
      | Resolved hash =>
          reply (relay_claim e st req)
          = Some (Submitted hash "Claim transaction submitted successfully")
          /\ nonce req ∈ usedNonces (store (relay_claim e st req))
          /\ nonce req ∈ usedNonces (settle (relay_claim e st req) req (Resolved ()))
          /\ forall message,
               (nonce req ∉
                  usedNonces (settle (relay_claim e st req) req (Rejected message)))
               /\ accepted_again recoverAddress StringToNumber_lt
                    (settle (relay_claim e st req) req (Rejected message)) req
      end)
  /\ (forall ls s n,
        sys_run boot ls = Some s ->
        n ∈ usedNonces (registries s) ->
        (exists j tk, inflight s !! j = Some tk /\ holds_nonce n tk)
        \/ (exists r, r ∈ confirmed s /\ nonce r = n)).
Proof.
  split.
  - intros e st req Hsub.
    destruct (relay_claim_submit e st req Hsub) as (proof & Hrecv & Hc & Hp).
    assert (next (receive (now e) st req) = Some AwaitClaimed) as Hnext
      by (by rewrite Hrecv).
    destruct (receive_suspended _ _ _ _ Hnext) as (_ & Hm & He & Hn & Hs & _).
    pose proof (missing_fields_false req Hm) as (_ & _ & Htruthy & _).
    destruct (claim_answer e) as [hash | message] eqn:Hh.
    + rewrite (relay_claim_accepts e st req proof hash) by done.
      simpl. unfold settle. simpl.
      split; [done |]. split; [set_solver |]. split; [set_solver |].
      intros message. split; [set_solver |].
      apply accepted_again_intro; [done | done | simpl; set_solver].
    + unfold Relayer.relay_claim. rewrite Hrecv, Hc, Hp, Hh. simpl.
      rewrite Htruthy. simpl.
      split; [done |]. split; [set_solver |].
      apply accepted_again_intro; [done | done | simpl; set_solver].
  - intros ls s n Hrun Hn.
    destruct (accounted_run ls boot s accounted_boot Hrun) as [Hnonce _].
    by apply Hnonce.
Qed.

End RelayerFacts.

(** C4 as stated fails: for an account that has already claimed, the
    handler replies "Already claimed" after the already-claimed query and
    never asks the proof server, so its steps are not a prefix of the order
    that has eligibility first. *)
Lemma claimed_is_queried_before_eligibility :
  Relayer.performed
    (Relayer.relay_claim Samples.recover_tagged Samples.no_string_is_number
       Samples.already_claimed Relayer.initial (Samples.intent 7 2000))
  = [Relayer.ShapeCheck; Relayer.DeadlineCheck; Relayer.NonceCheck;
     Relayer.SignatureCheck; Relayer.ClaimedCheck]
  /\ Relayer.reply
       (Relayer.relay_claim Samples.recover_tagged Samples.no_string_is_number
          Samples.already_claimed Relayer.initial (Samples.intent 7 2000))
     = Some (Relayer.BadRequest "Already claimed")
  /\ ~ (Relayer.performed
          (Relayer.relay_claim Samples.recover_tagged Samples.no_string_is_number
             Samples.already_claimed Relayer.initial (Samples.intent 7 2000))
        `prefix_of` Relayer.eligibility_first_order).
Proof.
  assert (Relayer.relay_claim Samples.recover_tagged Samples.no_string_is_number
            Samples.already_claimed Relayer.initial (Samples.intent 7 2000)
          = Relayer.rejected Relayer.initial "Already claimed"
              [Relayer.ShapeCheck; Relayer.DeadlineCheck; Relayer.NonceCheck;
               Relayer.SignatureCheck; Relayer.ClaimedCheck]) as H.
  { unfold Relayer.relay_claim, Relayer.receive. simpl.
    rewrite bool_decide_eq_false_2 by apply not_elem_of_empty. reflexivity. }
  rewrite H. simpl. split; [reflexivity |]. split; [reflexivity |].
  intros [k Hk]. discriminate Hk.
Qed.

(** ** The statements at sample data *)

Lemma checksum32_length (b : Bytes.Buffer) : length (Samples.checksum32 b) = 32%nat.
Proof. apply be_bytes_length. Qed.

Lemma proof_roundtrip_witness :
  exists srv,
    ProofServer.start Samples.checksum32 Samples.default_whitelist = Some srv
    /\ exists proof32 root32,
         ProofServer.get_proof Samples.checksum32 srv
           "0x70997970C51812dc3A010C7d01b50e0d17dc79C8" "100"
         = Some (ProofServer.ProofData
                   "0x70997970c51812dc3a010c7d01b50e0d17dc79c8" "100"
                   (map MerkleTreeJS.bufferToHex proof32)
                   (MerkleTreeJS.bufferToHex
                      (Samples.checksum32
                         (Airdrop.encodePacked 0x70997970C51812dc3A010C7d01b50e0d17dc79C8
                            100)))
                   (ProofServer.root srv))
         /\ Airdrop.bytes32_of_hex (ProofServer.root srv) = Some root32
         /\ Airdrop.claim Samples.checksum32 0x70997970C51812dc3A010C7d01b50e0d17dc79C8 100
              proof32 (Airdrop.constructor 1 root32)
            = Airdrop.Success
                {| Airdrop.owner := 1; Airdrop.merkleRoot := root32;
                   Airdrop.claimed := {[ 0x70997970C51812dc3A010C7d01b50e0d17dc79C8 := true ]} |}
                [Airdrop.Claimed 0x70997970C51812dc3A010C7d01b50e0d17dc79C8 100].
Proof.
  destruct (ProofServer.start Samples.checksum32 Samples.default_whitelist) as [srv|] eqn:E;
    [| vm_compute in E; discriminate E].
  exists srv. split; [reflexivity |].
  destruct (proof_roundtrip Samples.checksum32 checksum32_length Samples.default_whitelist srv
              {| ProofServer.address := "0x70997970C51812dc3A010C7d01b50e0d17dc79C8";
                 ProofServer.amount := "100" |} E (list_elem_of_here _ _))
    as (enc & proof32 & root32 & _ & Hget & _ & Hroot & _ & Hclaim).
  destruct (Hclaim 0x70997970C51812dc3A010C7d01b50e0d17dc79C8 100 1)
    as [-> Hsuccess]; [vm_compute; reflexivity | vm_compute; reflexivity | lia |].
  exists proof32, root32. split; [exact Hget |]. split; [exact Hroot | exact Hsuccess].
Defined.

Lemma single_entry_tree_witness :
  ProofServer.encodeLeaf (JS.toLowerCase "0x70997970C51812dc3A010C7d01b50e0d17dc79C8") "100"
  = Some (Airdrop.encodePacked 0x70997970C51812dc3A010C7d01b50e0d17dc79C8 100)
  /\ exists srv,
       ProofServer.start Samples.checksum32
         [ {| ProofServer.address := "0x70997970C51812dc3A010C7d01b50e0d17dc79C8";
              ProofServer.amount := "100" |} ] = Some srv
       /\ MerkleTreeJS.getProof (ProofServer.tree srv)
            (Samples.checksum32
               (Airdrop.encodePacked 0x70997970C51812dc3A010C7d01b50e0d17dc79C8 100)) = []
       /\ Airdrop.verify Samples.checksum32 [] (MerkleTreeJS.getRoot (ProofServer.tree srv))
            (Samples.checksum32
               (Airdrop.encodePacked 0x70997970C51812dc3A010C7d01b50e0d17dc79C8 100)) = true.
Proof.
  assert (ProofServer.encodeLeaf
            (JS.toLowerCase "0x70997970C51812dc3A010C7d01b50e0d17dc79C8") "100"
          = Some (Airdrop.encodePacked 0x70997970C51812dc3A010C7d01b50e0d17dc79C8 100)) as H
    by (vm_compute; reflexivity).
  split; [exact H |].
  destruct (single_entry_tree Samples.checksum32
              {| ProofServer.address := "0x70997970C51812dc3A010C7d01b50e0d17dc79C8";
                 ProofServer.amount := "100" |} _ H)
    as (srv & Hstart & _ & _ & Hproof & _ & Hverify & _).
  exists srv. split; [exact Hstart |]. split; [exact Hproof | exact Hverify].
Defined.

Lemma odd_node_carried_up_witness :
  (forall b, length (Samples.checksum32 b) = 32%nat)
  /\ forall a b c : Bytes.Buffer,
       ProofServer.leavesOf Samples.checksum32 Samples.default_whitelist = Some [a; b; c] ->
       MerkleTreeJS.nextLayer Samples.checksum32 [a; b; c]
       = [MerkleTreeJS.hashPair Samples.checksum32 a b; c]
       /\ Airdrop.verify Samples.checksum32
            (MerkleTreeJS.getProof (MerkleTreeJS.new_MerkleTree Samples.checksum32 [a; b; c]) c)
            (MerkleTreeJS.getRoot (MerkleTreeJS.new_MerkleTree Samples.checksum32 [a; b; c]))
            c = true.
Proof.
  split; [exact checksum32_length |].
  intros a b c H. split; [reflexivity |].
  assert (Bytes.is_digest a /\ Bytes.is_digest b /\ Bytes.is_digest c) as (Ha & Hb & Hc).
  { vm_compute in H. injection H as <- <- <-. repeat split. }
  apply (proj2 (odd_node_carried_up Samples.checksum32 checksum32_length) a b c c Ha Hb Hc).
  apply list_elem_of_further, list_elem_of_further, list_elem_of_here.
Defined.

Lemma claim_at_most_once_witness :
  (Airdrop.claims_of 5
     (Airdrop.run Samples.checksum32 (Airdrop.constructor 1 Samples.leaf5)
        Samples.three_attempts).2 <= 1)%nat
  /\ (Airdrop.claimed_at
        (Airdrop.run Samples.checksum32 (Airdrop.constructor 1 Samples.leaf5)
           Samples.three_attempts).1 5 = true
      <-> Airdrop.claims_of 5
            (Airdrop.run Samples.checksum32 (Airdrop.constructor 1 Samples.leaf5)
               Samples.three_attempts).2 = 1%nat).
Proof.
  exact (proj2 (proj2 (proj2 (proj2 (claim_at_most_once Samples.checksum32)))) 1
           Samples.leaf5 Samples.three_attempts 5).
Defined.

Lemma nonce_released_on_failure_witness :
  Relayer.Submit ∈ Relayer.performed
    (Relayer.relay_claim Samples.recover_tagged Samples.no_string_is_number
       Samples.failing_submission Relayer.initial (Samples.intent 7 2000))
  /\ (Relayer.nonce (Samples.intent 7 2000) ∉
       Relayer.usedNonces
         (Relayer.store
            (Relayer.relay_claim Samples.recover_tagged Samples.no_string_is_number
               Samples.failing_submission Relayer.initial (Samples.intent 7 2000))))
  /\ Relayer.accepted_again Samples.recover_tagged Samples.no_string_is_number
       (Relayer.store
          (Relayer.relay_claim Samples.recover_tagged Samples.no_string_is_number
             Samples.failing_submission Relayer.initial (Samples.intent 7 2000)))
       (Samples.intent 7 2000).
Proof.
  assert (Relayer.Submit ∈ Relayer.performed
            (Relayer.relay_claim Samples.recover_tagged Samples.no_string_is_number
               Samples.failing_submission Relayer.initial (Samples.intent 7 2000))) as H.
  { unfold Relayer.relay_claim, Relayer.receive. simpl.
    rewrite bool_decide_eq_false_2 by apply not_elem_of_empty. simpl.
    do 6 apply list_elem_of_further. apply list_elem_of_here. }
  split; [exact H |].
  exact (proj2 (proj1 (nonce_released_on_failure Samples.recover_tagged
                         Samples.no_string_is_number)
                  Samples.failing_submission Relayer.initial (Samples.intent 7 2000) H)).
Defined.

Lemma expired_rejected_witness :
  2000 < Relayer.now Samples.late / 1000
  /\ Relayer.relay_claim Samples.recover_tagged Samples.no_string_is_number
       Samples.late Relayer.initial (Samples.intent 7 2000)
     = {| Relayer.store := Relayer.initial;
          Relayer.reply := Some (Relayer.BadRequest "Request expired");
          Relayer.next := None;
          Relayer.performed := [Relayer.ShapeCheck; Relayer.DeadlineCheck] |}.
Proof.
  split; [reflexivity |].
  apply (proj2 (expired_rejected Samples.recover_tagged Samples.no_string_is_number
                  Samples.late Relayer.initial (Samples.intent 7 2000) 2000
                  eq_refl eq_refl)).
  reflexivity.
Defined.

Lemma missing_fields_rejected_witness :
  Relayer.amount Samples.zero_amount_intent = Relayer.VNum 0
  /\ Relayer.relay_claim Samples.recover_tagged Samples.no_string_is_number
       Samples.failing_submission Relayer.initial Samples.zero_amount_intent
     = {| Relayer.store := Relayer.initial;
          Relayer.reply :=
            Some (Relayer.BadRequest
                    "Missing required fields: recipient, amount, nonce, deadline, signature");
          Relayer.next := None;
          Relayer.performed := [Relayer.ShapeCheck] |}.
Proof.
  split; [reflexivity |].
  exact (proj2 (missing_fields_rejected Samples.recover_tagged Samples.no_string_is_number
                  Samples.failing_submission Relayer.initial Samples.zero_amount_intent)
           (or_introl eq_refl)).
Defined.

(** ** Soundness of the claim up to collisions with the tree *)

Section SoundnessFacts.
Import Bytes JS MerkleTreeJS ProofServer Security.

Variable keccak256 : Buffer -> Buffer.
Hypothesis keccak256_length : forall b, length (keccak256 b) = 32%nat.

Lemma sorted_concat (a b : Buffer) :
  concat (sortPair a b) = a ++ b \/ concat (sortPair a b) = b ++ a.
Proof.
  unfold sortPair. destruct (Buffer_compare a b); simpl; rewrite app_nil_r; auto.
Qed.

Lemma elem_of_concat {A} (x : A) (ls : list (list A)) :
  x ∈ concat ls <-> exists l, l ∈ ls /\ x ∈ l.
Proof.
  rewrite list_elem_of_In, in_concat. split; intros (l & H1 & H2); exists l;
    by rewrite ?list_elem_of_In in *.
Qed.

(** A node of the next layer is a node carried up or the hash of a pair
    the builder hashed. *)
Lemma nextLayer_inv (nodes : list Buffer) (v : Buffer) :
  v ∈ nextLayer keccak256 nodes ->
  v ∈ nodes
  \/ exists a b, a ∈ nodes /\ b ∈ nodes /\ concat (sortPair a b) ∈ pairInputs nodes
                 /\ v = keccak256 (concat (sortPair a b)).
Proof.
  induction nodes as [| a | a b rest IH] using list_pair_ind; intros Hv.
  - by apply elem_of_nil in Hv.
  - by left.
  - cbn [nextLayer] in Hv. apply elem_of_cons in Hv as [-> | Hv].
    + right. exists a, b. cbn [pairInputs]. set_solver.
    + destruct (IH Hv) as [Hin | (a' & b' & Ha & Hb & Hi & Heq)].
      * left. set_solver.
      * right. exists a', b'. cbn [pairInputs]. set_solver.
Qed.

(** Every node of the tree is a leaf or the hash of a pair of nodes that
    the builder hashed. *)
Lemma layers_inv (fuel : nat) : forall (nodes : list Buffer) (v : Buffer),
  v ∈ concat (createHashes keccak256 fuel nodes) ->
  v ∈ nodes
  \/ exists a b, a ∈ concat (createHashes keccak256 fuel nodes)
                 /\ b ∈ concat (createHashes keccak256 fuel nodes)
                 /\ concat (sortPair a b)
                      ∈ concat (map pairInputs (createHashes keccak256 fuel nodes))
                 /\ v = keccak256 (concat (sortPair a b)).
Proof.
  induction fuel as [|f IH]; intros nodes v Hv.
  - simpl in Hv. rewrite app_nil_r in Hv. by left.
  - cbn [createHashes concat map] in *.
    apply elem_of_app in Hv as [Hv | Hv]; [by left |].
    destruct (1 <? length nodes)%nat; [| by apply elem_of_nil in Hv].
    destruct (IH _ _ Hv) as [Hup | (a & b & Ha & Hb & Hi & Heq)].
    + destruct (nextLayer_inv nodes v Hup) as [Hin | (a & b & Ha & Hb & Hi & Heq)];
        [by left | right].
      exists a, b. set_solver.
    + right. exists a, b. set_solver.
Qed.

Lemma tree_digests (ls : list Buffer) (v : Buffer) :
  Forall is_digest ls ->
  v ∈ concat (layers (new_MerkleTree keccak256 ls)) -> is_digest v.
Proof.
  intros Hls Hv. apply elem_of_concat in Hv as (l & Hl & Hv).
  pose proof (createHashes_wf keccak256 is_digest
                (fun a b _ _ => hashPair_is_digest keccak256 keccak256_length a b)
                (length ls) ls Hls) as Hwf.
  apply (proj1 (Forall_forall _ _) (proj1 (Forall_forall _ _) Hwf l Hl) v Hv).
Qed.

Lemma root_in_tree (t : MerkleTree) : getRoot t <> [] -> getRoot t ∈ concat (layers t).
Proof.
  unfold getRoot. destruct (last (layers t)) as [[|r top]|] eqn:E; try done.
  intros _. apply elem_of_concat. exists (r :: top). split; [| apply list_elem_of_here].
  apply last_Some in E as [l' ->]. set_solver.
Qed.

Lemma collide_cons_l (x : Buffer) (xs ys : list Buffer) :
  collide keccak256 xs ys -> collide keccak256 (x :: xs) ys.
Proof.
  intros (u & v & Hu & Hv & Hne & Heq). exists u, v. set_solver.
Qed.

Lemma _hashPair_input (x s : Buffer) :
  Airdrop._hashPair keccak256 x s
  = keccak256 (if Airdrop.bytes32_lt x s then x ++ s else s ++ x).
Proof.
  unfold Airdrop._hashPair, Airdrop._efficientHash.
  by destruct (Airdrop.bytes32_lt x s).
Qed.

Section Descent.

(** The nodes of a tree, its leaves with the inputs they are the digests
    of, and the pairs its inner nodes are the digests of. *)
Variables nodes leafs encs pairs : list Buffer.
Hypothesis node_digest : forall v, v ∈ nodes -> is_digest v.
Hypothesis node_inv : forall v, v ∈ nodes ->
  v ∈ leafs
  \/ exists a b, a ∈ nodes /\ b ∈ nodes /\ concat (sortPair a b) ∈ pairs
                 /\ v = keccak256 (concat (sortPair a b)).
Hypothesis leaf_inv : forall l, l ∈ leafs ->
  exists enc, enc ∈ encs /\ l = keccak256 enc /\ length enc <> 64%nat.

(** One step down: when the hash of the pair of [x] and [s] is a node,
    [x] is a node, or the contract's input collides with one of the
    builder's. *)
Lemma step_in_tree (x s : Buffer) :
  is_digest x -> is_digest s ->
  Airdrop._hashPair keccak256 x s ∈ nodes ->
  x ∈ nodes
  \/ collide keccak256
       [if Airdrop.bytes32_lt x s then x ++ s else s ++ x] (encs ++ pairs).
Proof.
  intros Hx Hs Hin. rewrite _hashPair_input in Hin.
  set (input := if Airdrop.bytes32_lt x s then x ++ s else s ++ x) in *.
  assert (length input = 64%nat) as Hlen.
  { unfold input, is_digest in *. destruct (Airdrop.bytes32_lt x s);
      rewrite length_app; lia. }
  destruct (node_inv _ Hin) as [Hleaf | (a & b & Ha & Hb & Hi & Heq)].
  - right. destruct (leaf_inv _ Hleaf) as (enc & Henc & Heq & Hne).
    exists input, enc. split; [apply list_elem_of_here |]. split; [set_solver |].
    split; [| done]. intros <-. done.
  - destruct (decide (input = concat (sortPair a b))) as [Hsame | Hdiff].
    + left. pose proof (node_digest a Ha) as Hda. pose proof (node_digest b Hb) as Hdb.
      assert (x = a \/ x = b) as [-> | ->]; [| done | done].
      unfold input, is_digest in *.
      destruct (sorted_concat a b) as [Hc | Hc]; rewrite Hc in Hsame;
        destruct (Airdrop.bytes32_lt x s);
        apply app_inj_1 in Hsame as [? ?]; auto; congruence.
    + right. exists input, (concat (sortPair a b)).
      split; [apply list_elem_of_here |]. split; [set_solver | done].
Qed.

(** A proof that folds from [x] to a node starts from a node, or one of
    the contract's inputs collides with one of the builder's. *)
Lemma fold_in_tree (proof : list Buffer) : forall x,
  is_digest x -> Forall is_digest proof ->
  Airdrop.processProof keccak256 proof x ∈ nodes ->
  x ∈ nodes \/ collide keccak256 (foldInputs keccak256 proof x) (encs ++ pairs).
Proof.
  induction proof as [|s proof IH]; intros x Hx Hp Hin; [by left |].
  inversion Hp as [|? ? Hs Hp']; subst.
  unfold Airdrop.processProof in *. cbn [fold_left foldInputs] in *.
  destruct (IH (Airdrop._hashPair keccak256 x s)) as [Hnode | Hc]; try done.
  - rewrite _hashPair_input. apply keccak256_length.
  - destruct (step_in_tree x s Hx Hs Hnode) as [Hx' | (u & v & Hu & Hv & Hne & Heq)];
      [by left | right].
    exists u, v. set_solver.
  - right. by apply collide_cons_l.
Qed.

End Descent.

Lemma leavesOf_preimages (wl : list entry) (ls : list Buffer) (l : Buffer) :
  leavesOf keccak256 wl = Some ls ->
  l ∈ ls ->
  exists e enc, e ∈ wl /\ encodeLeaf (toLowerCase (address e)) (amount e) = Some enc
                /\ l = keccak256 enc.
Proof.
  unfold leavesOf. intros H Hin. apply mapM_Some in H.
  induction H as [|e l' wl ls He H IH]; [by apply elem_of_nil in Hin |].
  apply elem_of_cons in Hin as [-> | Hin].
  - destruct (encodeLeaf _ _) as [enc|] eqn:E; [| discriminate]. injection He as <-.
    exists e, enc. split; [apply list_elem_of_here | done].
  - destruct (IH Hin) as (e0 & enc & He0 & Henc & Hl).
    exists e0, enc. split; [by apply list_elem_of_further | done].
Qed.

Lemma leaf_sized_length (wl : list entry) (e : entry) (enc : Buffer) :
  forallb leaf_sized wl = true -> e ∈ wl ->
  encodeLeaf (toLowerCase (address e)) (amount e) = Some enc ->
  length enc <> 64%nat.
Proof.
  intros Hs He Henc. apply list_elem_of_In in He.
  pose proof (proj1 (forallb_forall _ _) Hs e He) as H.
  unfold leaf_sized in H. rewrite Henc in H.
  by apply negb_true_iff, Nat.eqb_neq in H.
Qed.

Lemma encodePacked_length (account amt : Z) :
  length (Airdrop.encodePacked account amt) = 52%nat.
Proof.
  unfold Airdrop.encodePacked. rewrite length_app, !be_bytes_length. reflexivity.
Qed.

(** One accepted proof: the pair (sender, amount) is in the whitelist, or
    one of the inputs the contract hashed while it checked the proof and a
    different input the server hashed while it built the tree have the same
    digest. *)
Lemma verify_sound (wl : list entry) (srv : server) (sender amt : Z)
    (proof : list Buffer) :
  start keccak256 wl = Some srv ->
  forallb leaf_sized wl = true ->
  Forall is_digest proof ->
  Airdrop.verify keccak256 proof (getRoot (tree srv))
    (keccak256 (Airdrop.encodePacked sender amt)) = true ->
  (exists e, e ∈ wl
             /\ encodeLeaf (toLowerCase (address e)) (amount e)
                = Some (Airdrop.encodePacked sender amt))
  \/ collide keccak256 (claimInputs keccak256 sender amt proof) (treeInputs wl (tree srv)).
Proof.
  intros Hstart Hsized Hproof Hverify.
  unfold start in Hstart.
  destruct (leavesOf keccak256 wl) as [ls|] eqn:Hls; [| discriminate].
  cbn [mbind option_bind] in Hstart. injection Hstart as <-. cbn [tree] in *.
  unfold Airdrop.verify in Hverify. apply bool_decide_eq_true in Hverify.
  pose proof (leavesOf_digests keccak256 keccak256_length wl ls Hls) as Hdig.
  set (t := new_MerkleTree keccak256 ls) in *.
  set (leaf := keccak256 (Airdrop.encodePacked sender amt)) in *.
  set (encs := omap (fun e => encodeLeaf (toLowerCase (address e)) (amount e)) wl).
  set (pairs := concat (map pairInputs (layers t))).
  assert (is_digest leaf) as Hleaf by apply keccak256_length.
  assert (Airdrop.processProof keccak256 proof leaf ∈ concat (layers t)) as Hin.
  { rewrite Hverify. apply root_in_tree. rewrite <- Hverify. intros Hnil.
    pose proof (fold_is_digest keccak256 keccak256_length proof leaf Hleaf Hproof) as Hf.
    unfold Airdrop.processProof in Hnil. rewrite Hnil in Hf. discriminate Hf. }
  assert (forall l, l ∈ ls ->
            exists enc, enc ∈ encs /\ l = keccak256 enc /\ length enc <> 64%nat) as Hleafs.
  { intros l Hl. destruct (leavesOf_preimages wl ls l Hls Hl) as (e & enc & He & Henc & ->).
    exists enc. split; [| split; [done | by eapply leaf_sized_length]].
    apply list_elem_of_omap. by exists e. }
  assert (forall v, v ∈ concat (layers t) ->
            v ∈ ls
            \/ exists a b, a ∈ concat (layers t) /\ b ∈ concat (layers t)
                           /\ concat (sortPair a b) ∈ pairs
                           /\ v = keccak256 (concat (sortPair a b))) as Hinv.
  { intros v Hv. by apply layers_inv. }
  unfold treeInputs, claimInputs. fold encs. fold pairs. fold leaf.
  destruct (fold_in_tree (concat (layers t)) ls encs pairs
              (fun v => tree_digests ls v Hdig) Hinv Hleafs proof leaf Hleaf Hproof Hin)
    as [Hnode | Hc]; [| right; by apply collide_cons_l].
  destruct (Hinv leaf Hnode) as [Hl | (a & b & Ha & Hb & Hi & Heq)].
  - destruct (leavesOf_preimages wl ls leaf Hls Hl) as (e & enc & He & Henc & Heq).
    destruct (decide (enc = Airdrop.encodePacked sender amt)) as [-> | Hne].
    + left. by exists e.
    + right. exists (Airdrop.encodePacked sender amt), enc.
      split; [apply list_elem_of_here |].
      split; [apply elem_of_app; left; apply list_elem_of_omap; by exists e |].
      split; [done | by rewrite <- Heq].
  - right. exists (Airdrop.encodePacked sender amt), (concat (sortPair a b)).
    split; [apply list_elem_of_here |]. split; [set_solver |]. split; [| done].
    intros Hsame. apply (f_equal length) in Hsame. rewrite encodePacked_length in Hsame.
    pose proof (tree_digests ls a Hdig Ha) as Hda.
    pose proof (tree_digests ls b Hdig Hb) as Hdb.
    destruct (sorted_concat a b) as [Hc | Hc]; rewrite Hc, length_app in Hsame;
      unfold is_digest in *; lia.
Qed.

(** Without a [setMerkleRoot] among them, transactions leave the root as
    it is. *)
Lemma run_keeps_root (cs : list Airdrop.call) : forall st,
  existsb is_setMerkleRoot cs = false ->
  Airdrop.merkleRoot (Airdrop.run keccak256 st cs).1 = Airdrop.merkleRoot st.
Proof.
  induction cs as [|c cs IH]; intros st Hno; [reflexivity |].
  simpl in Hno. apply orb_false_iff in Hno as [Hc Hcs].
  simpl Airdrop.run.
  destruct (Airdrop.exec keccak256 st c) as [reason | st1 logs] eqn:E.
  - by apply IH.
  - specialize (IH st1 Hcs).
    destruct (Airdrop.run keccak256 st1 cs) as [st2 logs2]. simpl in *.
    rewrite IH. clear IH.
    destruct c as [s amt proof | s r | s o | s]; simpl in E; try discriminate.
    + by apply claim_inv in E as (_ & _ & _ & -> & _).
    + unfold Airdrop.transferOwnership in E.
      destruct (s =? Airdrop.owner st); [| discriminate].
      destruct (o =? 0); [discriminate |]. by injection E as <- _.
    + unfold Airdrop.renounceOwnership in E.
      destruct (s =? Airdrop.owner st); [| discriminate]. by injection E as <- _.
Qed.

(** X1: on a contract deployed with the root of the tree the server built
    over a whitelist whose leaf encodings are not 64 bytes long, and whose
    root is not replaced, every [Claimed(account, amount)] event of every
    sequence of well-typed transactions comes from a [claim] of the
    sequence by that account for that amount, and either the pair's packed
    encoding is the encoding of a whitelist entry, or [keccak256] takes one
    of the inputs the contract hashed while it checked that claim's proof
    and a different one of the inputs the server hashed while it built the
    tree to the same digest. *)
Theorem only_whitelisted_claims_are_logged (wl : list entry) (srv : server)
    (deployer : Z) (cs : list Airdrop.call) (account amt : Z) :
  start keccak256 wl = Some srv ->
  forallb leaf_sized wl = true ->
  Forall well_typed cs ->
  existsb is_setMerkleRoot cs = false ->
  Airdrop.Claimed account amt
    ∈ (Airdrop.run keccak256 (Airdrop.constructor deployer (getRoot (tree srv))) cs).2 ->
  exists proof,
    Airdrop.Claim account amt proof ∈ cs
    /\ ((exists e, e ∈ wl
                   /\ encodeLeaf (toLowerCase (address e)) (amount e)
                      = Some (Airdrop.encodePacked account amt))
        \/ collide keccak256 (claimInputs keccak256 account amt proof)
             (treeInputs wl (tree srv))).
Proof.
  intros Hstart Hsized Htyped Hno.
  generalize (Airdrop.constructor deployer (getRoot (tree srv))),
    (eq_refl : Airdrop.merkleRoot (Airdrop.constructor deployer (getRoot (tree srv)))
               = getRoot (tree srv)).
  induction cs as [|c cs IH]; intros st Hroot Hin.
  - by apply elem_of_nil in Hin.
  - inversion Htyped as [|? ? Hc Hcs]; subst.
    simpl in Hno. apply orb_false_iff in Hno as [Hnc Hncs].
    assert (forall st1, Airdrop.merkleRoot st1 = getRoot (tree srv) ->
              Airdrop.Claimed account amt ∈ (Airdrop.run keccak256 st1 cs).2 ->
              exists proof,
                Airdrop.Claim account amt proof ∈ c :: cs
                /\ ((exists e, e ∈ wl
                               /\ encodeLeaf (toLowerCase (address e)) (amount e)
                                  = Some (Airdrop.encodePacked account amt))
                    \/ collide keccak256 (claimInputs keccak256 account amt proof)
                         (treeInputs wl (tree srv)))) as Hrest.
    { intros st1 Hroot1 Hin1. destruct (IH Hcs Hncs st1 Hroot1 Hin1) as (proof & Hp & H).
      exists proof. split; [by apply list_elem_of_further | done]. }
    simpl Airdrop.run in Hin.
    destruct (Airdrop.exec keccak256 st c) as [reason | st1 logs] eqn:E.
    + by apply (Hrest st).
    + assert (Airdrop.merkleRoot st1 = getRoot (tree srv)) as Hroot1.
      { pose proof (run_keeps_root [c] st) as Hk. simpl in Hk.
        rewrite E, Hnc in Hk. simpl in Hk. by rewrite Hk. }
      destruct (Airdrop.run keccak256 st1 cs) as [st2 logs2] eqn:Erun. simpl in Hin.
      apply elem_of_app in Hin as [Hin | Hin].
      * destruct c as [s a proof | s r | s o | s]; simpl in E.
        -- pose proof E as E'. apply claim_inv in E' as (Hnot & -> & _).
           apply list_elem_of_singleton in Hin. injection Hin as -> ->.
           unfold Airdrop.claim in E. rewrite Hnot in E.
           destruct (Airdrop.verify _ _ _ _) eqn:Hv; [| discriminate].
           rewrite Hroot in Hv. exists proof. split; [apply list_elem_of_here |].
           by apply (verify_sound wl srv s a proof).
        -- discriminate.
        -- unfold Airdrop.transferOwnership in E.
           destruct (s =? Airdrop.owner st); [| discriminate].
           destruct (o =? 0); [discriminate |]. injection E as _ <-.
           by apply elem_of_nil in Hin.
        -- unfold Airdrop.renounceOwnership in E.
           destruct (s =? Airdrop.owner st); [| discriminate]. injection E as _ <-.
           by apply elem_of_nil in Hin.
      * apply (Hrest st1 Hroot1). by rewrite Erun.
Qed.

Lemma bytes32_of_hex_digest (s : string) (b : Buffer) :
  Airdrop.bytes32_of_hex s = Some b -> is_digest b.
Proof.
  unfold Airdrop.bytes32_of_hex.
  destruct (chars s) as [|c0 [|c1 ds]]; try discriminate.
  destruct (_ && _) eqn:H; [| discriminate]. intros [= <-].
  apply andb_true_iff in H as [_ H]. by apply Nat.eqb_eq in H.
Qed.

(** X11: what the relayer's transaction can do. On a contract that holds
    the root of the server's tree, the relayer's [contract.claim] either
    reverts, with "Already claimed" when the relayer's wallet has claimed
    and with "Invalid proof" otherwise, or goes through; when it goes
    through, the account marked as claimed and named in the [Claimed]
    event is the wallet, the flag of every other account (the recipient
    of the request among them), the owner and the root are as before, and
    either the wallet with that amount is itself an entry of the whitelist,
    or [keccak256] takes one of the inputs the contract hashed while it
    checked the proof and a different one of the inputs the server hashed
    while it built the tree to the same digest. *)
Theorem relayed_claim_credits_the_wallet (wl : list entry) (srv : server)
    (st : Airdrop.storage) (wallet amt : Z) (proof : list string) (c : Airdrop.call) :
  start keccak256 wl = Some srv ->
  forallb leaf_sized wl = true ->
  Airdrop.merkleRoot st = getRoot (tree srv) ->
  relayed_claim wallet amt proof = Some c ->
  exists proof32,
    mapM Airdrop.bytes32_of_hex proof = Some proof32
    /\ c = Airdrop.Claim wallet amt proof32
    /\ match Airdrop.exec keccak256 st c with
       | Airdrop.Revert reason =>
           if Airdrop.claimed_at st wallet then reason = "Already claimed"%string
           else reason = "Invalid proof"%string
                /\ Airdrop.verify keccak256 proof32 (getRoot (tree srv))
                     (keccak256 (Airdrop.encodePacked wallet amt)) = false
       | Airdrop.Success st' logs =>
           logs = [Airdrop.Claimed wallet amt]
           /\ Airdrop.claimed_at st wallet = false
           /\ Airdrop.claimed_at st' wallet = true
           /\ (forall account, account <> wallet ->
                 Airdrop.claimed_at st' account = Airdrop.claimed_at st account)
           /\ Airdrop.owner st' = Airdrop.owner st
           /\ Airdrop.merkleRoot st' = Airdrop.merkleRoot st
           /\ ((exists e, e ∈ wl
                          /\ encodeLeaf (toLowerCase (address e)) (amount e)
                             = Some (Airdrop.encodePacked wallet amt))
               \/ collide keccak256 (claimInputs keccak256 wallet amt proof32)
                    (treeInputs wl (tree srv)))
       end.
Proof.
  intros Hstart Hsized Hroot Hcall.
  unfold relayed_claim in Hcall.
  destruct (mapM Airdrop.bytes32_of_hex proof) as [proof32|] eqn:Hmap; [| discriminate].
  injection Hcall as <-. exists proof32. split; [reflexivity |]. split; [reflexivity |].
  assert (Forall is_digest proof32) as Hdig.
  { apply mapM_Some in Hmap. clear -Hmap.
    induction Hmap as [|s b ss bs H _ IH]; constructor; [| done].
    by apply bytes32_of_hex_digest in H. }
  cbn [Airdrop.exec]. unfold Airdrop.claim.
  destruct (Airdrop.claimed_at st wallet) eqn:Hflag; [reflexivity |].
  destruct (Airdrop.verify keccak256 proof32 (Airdrop.merkleRoot st) _) eqn:Hverify;
    rewrite Hroot in Hverify; [| done].
  split; [reflexivity |]. split; [reflexivity |].
  unfold Airdrop.claimed_at. cbn [Airdrop.claimed Airdrop.owner Airdrop.merkleRoot].
  split; [by rewrite lookup_insert_eq |].
  split; [intros account Hne; by rewrite lookup_insert_ne |].
  split; [reflexivity |]. split; [reflexivity |].
  exact (verify_sound wl srv wallet amt proof32 Hstart Hsized Hdig Hverify).
Qed.

End SoundnessFacts.

(** ** The tree: proof size and pair order *)

Section TreeShape.
Import Bytes JS MerkleTreeJS ProofServer ProofServerAPI.

Variable keccak256 : Buffer -> Buffer.

Lemma createHashes_depth (k : nat) : forall (fuel : nat) (nodes : list Buffer),
  (length nodes <= 2 ^ k)%nat ->
  (length (createHashes keccak256 fuel nodes) <= S k)%nat.
Proof.
  induction k as [|k IH]; intros fuel nodes Hlen.
  - simpl in Hlen. destruct fuel as [|fuel]; simpl; [lia |].
    assert ((1 <? length nodes)%nat = false) as -> by (apply Nat.ltb_ge; lia).
    simpl. lia.
  - destruct fuel as [|fuel]; simpl; [lia |].
    destruct (1 <? length nodes)%nat; simpl; [| lia].
    apply le_n_S, IH. rewrite nextLayer_length.
    rewrite Nat.pow_succ_r' in Hlen.
    apply Nat.lt_succ_r, Nat.Div0.div_lt_upper_bound. lia.
Qed.

Lemma proofFrom_length (fuel : nat) : forall (nodes : list Buffer) (i : nat),
  (length nodes <= fuel)%nat -> (i < length nodes)%nat ->
  (S (length (proofFrom (createHashes keccak256 fuel nodes) i))
   <= length (createHashes keccak256 fuel nodes))%nat.
Proof.
  induction fuel as [|fuel IH]; intros nodes i Hlen Hi; [lia |].
  cbn [createHashes]. destruct (1 <? length nodes)%nat eqn:E.
  - apply Nat.ltb_lt in E.
    pose proof (nextLayer_shorter keccak256 nodes E) as Hshort.
    assert (i / 2 < length (nextLayer keccak256 nodes))%nat as Hi'.
    { rewrite nextLayer_length.
      apply Nat.Div0.div_lt_upper_bound.
      pose proof (Nat.div_mod (S (length nodes)) 2 ltac:(lia)) as Hdm.
      pose proof (Nat.mod_upper_bound (S (length nodes)) 2 ltac:(lia)). lia. }
    specialize (IH (nextLayer keccak256 nodes) (i / 2)%nat ltac:(lia) Hi').
    cbn [proofFrom length].
    destruct (nodes !! _); cbn [length]; lia.
  - apply Nat.ltb_ge in E.
    destruct nodes as [|a [|b nodes]]; [simpl in Hi; lia | | simpl in E; lia].
    destruct i as [|i]; [| simpl in Hi; lia]. simpl. lia.
Qed.

Lemma getProof_length (ls : list Buffer) (leaf : Buffer) (k : nat) :
  (length ls <= 2 ^ k)%nat ->
  (length (getProof (new_MerkleTree keccak256 ls) leaf) <= k)%nat.
Proof.
  intros Hlen. unfold getProof, new_MerkleTree. cbn [leaves layers].
  destruct (leafIndex_spec leaf ls 0 None) as [[-> _] | (i & -> & Hi)]; [simpl; lia |].
  apply lookup_lt_Some in Hi.
  pose proof (proofFrom_length (length ls) ls (0 + i) (le_n _) ltac:(lia)) as Hp.
  pose proof (createHashes_depth k (length ls) ls Hlen) as Hd. lia.
Qed.

Lemma leavesOf_length (wl : list entry) (ls : list Buffer) :
  leavesOf keccak256 wl = Some ls -> length ls = length wl.
Proof.
  unfold leavesOf. intros H. apply mapM_Some in H.
  symmetry. by eapply Forall2_length.
Qed.

(** X2: on a server started over at most [2 ^ k] entries, a proof
    returned by [GET /proof] has at most [k] sibling hashes. *)
Theorem proof_has_at_most_log_siblings (wl : list entry) (srv : server)
    (address amount addr amt leaf root : string) (proof : list string) (k : nat) :
  start keccak256 wl = Some srv ->
  (length wl <= 2 ^ k)%nat ->
  get_proof keccak256 srv address amount = Some (ProofData addr amt proof leaf root) ->
  (length proof <= k)%nat.
Proof.
  intros Hstart Hlen Hget. unfold start in Hstart.
  destruct (leavesOf keccak256 wl) as [ls|] eqn:Hls; [| discriminate].
  cbn [mbind option_bind] in Hstart. injection Hstart as <-.
  unfold get_proof in Hget. cbn [whitelist tree ProofServer.root] in Hget.
  destruct (find _ wl); [| discriminate].
  destruct (encodeLeaf _ _) as [enc|]; [| discriminate].
  cbn [fmap option_fmap option_map mbind option_bind] in Hget.
  injection Hget as _ _ <- _ _.
  unfold getHexProof. rewrite length_map.
  apply getProof_length. by rewrite (leavesOf_length wl ls Hls).
Qed.

Lemma nextLayer_swap (l1 l2 : list Buffer) (a b : Buffer) :
  Nat.even (length l1) = true ->
  nextLayer keccak256 (l1 ++ a :: b :: l2) = nextLayer keccak256 (l1 ++ b :: a :: l2).
Proof.
  induction l1 as [| x | x y l1 IH] using list_pair_ind; intros Hev.
  - simpl. by rewrite hashPair_comm.
  - discriminate.
  - cbn [length] in Hev. rewrite Nat.even_succ_succ in Hev.
    cbn [app nextLayer]. by rewrite (IH Hev).
Qed.

Lemma getRoot_swap (l1 l2 : list Buffer) (a b : Buffer) :
  Nat.even (length l1) = true ->
  getRoot (new_MerkleTree keccak256 (l1 ++ a :: b :: l2))
  = getRoot (new_MerkleTree keccak256 (l1 ++ b :: a :: l2)).
Proof.
  intros Hev. unfold new_MerkleTree.
  assert (length (l1 ++ b :: a :: l2) = length (l1 ++ a :: b :: l2)) as ->
    by (rewrite !length_app; reflexivity).
  assert (1 < length (l1 ++ a :: b :: l2))%nat as Hlen
    by (rewrite length_app; simpl; lia).
  destruct (length (l1 ++ a :: b :: l2)) as [|fuel] eqn:E; [lia |].
  cbn [createHashes].
  assert (length (l1 ++ b :: a :: l2) = S fuel) as E'
    by (rewrite <- E, !length_app; reflexivity).
  rewrite E, E'.
  assert ((1 <? S fuel)%nat = true) as -> by (apply Nat.ltb_lt; lia).
  rewrite !getRoot_step, (nextLayer_swap l1 l2 a b Hev).
  unfold getRoot. reflexivity.
Qed.

Lemma leavesOf_app (w1 w2 : list entry) :
  leavesOf keccak256 (w1 ++ w2)
  = la ← leavesOf keccak256 w1; lb ← leavesOf keccak256 w2; Some (la ++ lb).
Proof.
  unfold leavesOf. induction w1 as [|e w1 IH]; simpl.
  - by destruct (mapM _ w2).
  - destruct (encodeLeaf _ _) as [enc|]; simpl; [| reflexivity].
    rewrite IH. destruct (mapM _ w1); simpl; [| reflexivity].
    by destruct (mapM _ w2).
Qed.

(** X3: exchanging the two entries of one pair of the whitelist (places
    [2i] and [2i+1]) leaves the published root as it was. *)
Theorem root_ignores_order_within_a_pair (w1 w2 : list entry) (e1 e2 : entry) :
  Nat.even (length w1) = true ->
  get_root <$> start keccak256 (w1 ++ e1 :: e2 :: w2)
  = get_root <$> start keccak256 (w1 ++ e2 :: e1 :: w2).
Proof.
  intros Hev. unfold start. rewrite !leavesOf_app.
  destruct (leavesOf keccak256 w1) as [la|] eqn:Ha; [| reflexivity].
  cbn [mbind option_bind].
  change (e1 :: e2 :: w2) with ([e1] ++ [e2] ++ w2).
  change (e2 :: e1 :: w2) with ([e2] ++ [e1] ++ w2).
  rewrite !leavesOf_app.
  destruct (leavesOf keccak256 [e1]) as [l1|] eqn:H1,
           (leavesOf keccak256 [e2]) as [l2|] eqn:H2,
           (leavesOf keccak256 w2) as [lb|] eqn:Hb; try reflexivity.
  cbn [mbind option_bind fmap option_fmap option_map get_root root].
  unfold getHexRoot. do 2 f_equal.
  pose proof (leavesOf_length [e1] l1 H1) as L1.
  pose proof (leavesOf_length [e2] l2 H2) as L2.
  destruct l1 as [|x [|? ?]]; try discriminate.
  destruct l2 as [|y [|? ?]]; try discriminate.
  simpl app. apply getRoot_swap.
  by rewrite (leavesOf_length w1 la Ha).
Qed.

(** ** [GET /verify] and [GET /proof] *)

Lemma toLowerChar_idem (c : ascii) : toLowerChar (toLowerChar c) = toLowerChar c.
Proof. destruct c as [[] [] [] [] [] [] [] []]; reflexivity. Qed.

Lemma toLowerCase_idem (s : string) : toLowerCase (toLowerCase s) = toLowerCase s.
Proof.
  unfold toLowerCase. rewrite chars_string_of_list_ascii, map_map.
  f_equal. apply map_ext. intros c. apply toLowerChar_idem.
Qed.

(** X4: on a started server [GET /verify] and [GET /proof] agree and
    [GET /proof] raises nothing: [eligible] is true exactly when the proof
    route returns a proof, which is when the whitelist has an entry with
    that address (compared in lower case) and exactly that amount text;
    otherwise the proof route answers 404; and both routes give the same
    answer for an address and for its lower-case spelling. *)
Theorem verify_agrees_with_proof (wl : list entry) (srv : server)
    (address amount : string) :
  start keccak256 wl = Some srv ->
  (if eligible (get_verify srv address amount)
   then (exists proof leaf,
           get_proof keccak256 srv address amount
           = Some (ProofData (toLowerCase address) amount proof leaf (root srv)))
        /\ verified_amount (get_verify srv address amount) = Some amount
        /\ (exists e, e ∈ wl /\ toLowerCase (ProofServer.address e) = toLowerCase address
                      /\ ProofServer.amount e = amount)
   else get_proof keccak256 srv address amount
        = Some (NotFound "Address not found in whitelist or amount mismatch")
        /\ verified_amount (get_verify srv address amount) = None
        /\ (forall e, e ∈ wl ->
              ~ (toLowerCase (ProofServer.address e) = toLowerCase address
                 /\ ProofServer.amount e = amount)))
  /\ get_verify srv (toLowerCase address) amount = get_verify srv address amount
  /\ get_proof keccak256 srv (toLowerCase address) amount
     = get_proof keccak256 srv address amount.
Proof.
  intros Hstart. split; [| split].
  2: { unfold get_verify. by rewrite toLowerCase_idem. }
  2: { unfold get_proof. by rewrite toLowerCase_idem. }
  unfold start in Hstart.
  destruct (leavesOf keccak256 wl) as [ls|] eqn:Hls; [| discriminate].
  cbn [mbind option_bind] in Hstart. injection Hstart as <-.
  unfold get_verify, get_proof. cbn [whitelist tree root eligible verified_amount].
  destruct (find _ wl) as [e|] eqn:Hfind.
  - apply find_some in Hfind as [Hin Hm]. apply list_elem_of_In in Hin.
    unfold matches in Hm. apply andb_true_iff in Hm as [Ha Hamt].
    apply String.eqb_eq in Ha, Hamt.
    destruct (leavesOf_elem keccak256 wl ls e Hls Hin) as (enc & Henc & _).
    rewrite Ha, Hamt in Henc. rewrite Henc.
    split; [eauto |]. split; [by rewrite Hamt |]. by exists e.
  - split; [reflexivity |]. split; [reflexivity |].
    intros e Hin [Ha Hamt]. apply list_elem_of_In in Hin.
    pose proof (find_none _ _ Hfind e Hin) as Hno. unfold matches in Hno.
    rewrite Ha, Hamt, !String.eqb_refl in Hno. discriminate.
Qed.

End TreeShape.

(** ** The relayer: what a request leaves behind *)

Section RelayerMoreFacts.
Import Relayer RelayerAPI.

Variable recoverAddress : body -> option string.
Variable StringToNumber_lt : string -> Z -> bool.

Abbreviation receive' := (receive recoverAddress StringToNumber_lt).
Abbreviation relay_claim' := (relay_claim recoverAddress StringToNumber_lt).
Abbreviation expired' := (expired StringToNumber_lt).

Lemma delete_fresh_nonce (n : value) (st : state) :
  n ∉ usedNonces st -> delete_nonce n st = st.
Proof.
  intros Hn. destruct st as [U P]. unfold delete_nonce. simpl in *.
  f_equal. set_solver.
Qed.

Lemma delete_added_nonce (n : value) (st : state) :
  n ∉ usedNonces st -> delete_nonce n (add_nonce n st) = st.
Proof.
  intros Hn. destruct st as [U P]. unfold delete_nonce, add_nonce. simpl in *.
  f_equal. set_solver.
Qed.

Lemma and_then_done (t : Z) (req : body) (o : outcome) (a : answer) :
  next o = None -> and_then t req o a = o.
Proof.
  intros H. unfold and_then. by rewrite H.
Qed.

(** The shape of a run, by the answers it got. *)
Lemma relay_claim_cases (e : env) (st : state) (req : body) :
  (next (receive' (now e) st req) = None
   /\ relay_claim' e st req = receive' (now e) st req)
  \/ (next (receive' (now e) st req) = Some AwaitClaimed
      /\ missing_fields req = false /\ nonce req ∉ usedNonces st
      /\ expired' (now e / 1000) (deadline req) = false
      /\ relay_claim' e st req
         = match claimed_answer e with
           | Rejected m =>
               {| store := delete_nonce (nonce req) st;
                  reply := Some (ServerError "Failed to relay transaction" m);
                  next := None;
                  performed := [ShapeCheck; DeadlineCheck; NonceCheck; SignatureCheck;
                                ClaimedCheck] |}
           | Resolved true =>
               rejected st "Already claimed"
                 [ShapeCheck; DeadlineCheck; NonceCheck; SignatureCheck; ClaimedCheck]
           | Resolved false =>
               match proof_answer e with
               | Rejected _ =>
                   {| store := delete_nonce (nonce req) st;
                      reply := Some (ServerError "Failed to relay transaction"
                                       "Failed to fetch proof from server");
                      next := None;
                      performed := [ShapeCheck; DeadlineCheck; NonceCheck; SignatureCheck;
                                    ClaimedCheck; EligibilityCheck] |}
               | Resolved None =>
                   rejected st "Invalid proof or not eligible"
                     [ShapeCheck; DeadlineCheck; NonceCheck; SignatureCheck; ClaimedCheck;
                      EligibilityCheck]
               | Resolved (Some proof) =>
                   match claim_answer e with
                   | Rejected m =>
                       {| store := delete_nonce (nonce req) (add_nonce (nonce req) st);
                          reply := Some (ServerError "Failed to relay transaction" m);
                          next := None;
                          performed := pipeline_order |}
                   | Resolved hash =>
                       {| store := set_pending hash
                                     {| pending_recipient := recipient req;
                                        pending_amount := amount req;
                                        timestamp := now e |}
                                     (add_nonce (nonce req) st);
                          reply := Some (Submitted hash
                                           "Claim transaction submitted successfully");
                          next := Some (AwaitReceipt hash);
                          performed := pipeline_order |}
                   end
               end
           end).
Proof.
  destruct (next (receive' (now e) st req)) as [s|] eqn:Hnext.
  - right. destruct (receive_suspended _ _ _ _ _ _ Hnext) as (-> & Hm & He & Hn & _ & Hrecv).
    pose proof (missing_fields_false req Hm) as (_ & _ & Htruthy & _).
    split; [reflexivity |]. split; [done |]. split; [done |]. split; [done |].
    unfold Relayer.relay_claim. rewrite Hrecv.
    unfold and_then at 3. simpl.
    destruct (claimed_answer e) as [[|] | m]; simpl; try reflexivity.
    + unfold and_then at 2. simpl.
      destruct (proof_answer e) as [[p|] | m]; simpl; try reflexivity.
      * unfold and_then. simpl.
        destruct (claim_answer e) as [h | m]; simpl; [reflexivity |].
        unfold catch_block. by rewrite Htruthy.
      * unfold catch_block. by rewrite Htruthy.
    + unfold catch_block. by rewrite Htruthy.
  - left. split; [reflexivity |]. unfold Relayer.relay_claim. cbv zeta.
    by do 3 rewrite (and_then_done _ _ _ _ Hnext).
Qed.

(** X5: whatever the reply, a run of the handler that does not end in
    "submitted" leaves [usedNonces] and [pendingTxs] exactly as they were
    and nothing suspended; a run that ends in "submitted" has added the
    nonce and the pending entry of its transaction, and nothing else. *)
Theorem only_a_submission_changes_the_registries (e : env) (st : state) (req : body) :
  match reply (relay_claim' e st req) with
  | Some (Submitted hash _) =>
      store (relay_claim' e st req)
      = set_pending hash
          {| pending_recipient := recipient req; pending_amount := amount req;
             timestamp := now e |}
          (add_nonce (nonce req) st)
      /\ next (relay_claim' e st req) = Some (AwaitReceipt hash)
  | _ => store (relay_claim' e st req) = st /\ next (relay_claim' e st req) = None
  end.
Proof.
  destruct (relay_claim_cases e st req) as [[Hnext ->] | (_ & _ & Hn & _ & ->)].
  - pose proof (receive_store recoverAddress StringToNumber_lt (now e) st req) as Hs.
    unfold Relayer.receive in *.
    repeat match goal with
           | H : context [if ?c then _ else _] |- _ => destruct c
           end; simpl in *; try done.
  - destruct (claimed_answer e) as [[|] | m]; simpl;
      rewrite ?delete_fresh_nonce by done; try done.
    destruct (proof_answer e) as [[p|] | m]; simpl;
      rewrite ?delete_fresh_nonce by done; try done.
    destruct (claim_answer e) as [h | m]; simpl;
      rewrite ?delete_added_nonce by done; done.
Qed.

Lemma submitted_inv (e : env) (st : state) (req : body) (hash message : string) :
  reply (relay_claim' e st req) = Some (Submitted hash message) ->
  nonce req ∉ usedNonces st /\ missing_fields req = false
  /\ relay_claim' e st req
     = {| store := set_pending hash
                     {| pending_recipient := recipient req;
                        pending_amount := amount req;
                        timestamp := now e |}
                     (add_nonce (nonce req) st);
          reply := Some (Submitted hash "Claim transaction submitted successfully");
          next := Some (AwaitReceipt hash);
          performed := pipeline_order |}.
Proof.
  destruct (relay_claim_cases e st req) as [[Hnext ->] | (_ & Hm & Hn & _ & ->)].
  - unfold Relayer.receive in *.
    repeat match goal with
           | |- context [if ?c then _ else _] => destruct c
           end; simpl; discriminate.
  - destruct (claimed_answer e) as [[|] | m]; simpl; try discriminate.
    destruct (proof_answer e) as [[p|] | m]; simpl; try discriminate.
    destruct (claim_answer e) as [h | m]; simpl; try discriminate.
    intros [= -> _]. done.
Qed.

(** X6: after a submitted transaction whose hash was not pending before,
    the failure of [tx.wait()] puts both registries back exactly as they
    were before the request, and its success leaves the nonce in
    [usedNonces] and nothing else. *)
Theorem settlement_of_a_transaction (e : env) (st : state) (req : body)
    (hash message : string) :
  reply (relay_claim' e st req) = Some (Submitted hash message) ->
  pendingTxs st !! hash = None ->
  (forall m, settle (relay_claim' e st req) req (Rejected m) = st)
  /\ settle (relay_claim' e st req) req (Resolved ()) = add_nonce (nonce req) st.
Proof.
  intros Hsub Hfresh. destruct (submitted_inv e st req hash message Hsub) as (Hn & _ & ->).
  unfold settle. simpl. destruct st as [U P]. simpl in *.
  unfold delete_nonce, delete_pending, set_pending, add_nonce. simpl.
  split; [intros _ |]; f_equal; try set_solver;
    rewrite delete_insert_eq; by apply delete_id.
Qed.

(** X8: [GET /tx-status] for the hash of a submitted transaction answers
    "pending" with the request's recipient and amount and the submission
    time, whatever the chain would say; once [tx.wait()] has settled, either
    way, it answers what it answered before the request, from the chain's
    receipt; the answer for any other hash is never affected. *)
Theorem tx_status_follows_the_pending_map (e : env) (st : state) (req : body)
    (hash message : string) :
  reply (relay_claim' e st req) = Some (Submitted hash message) ->
  (forall r, tx_status (store (relay_claim' e st req)) hash r
             = StatusPending {| pending_recipient := recipient req;
                                pending_amount := amount req;
                                timestamp := now e |})
  /\ (pendingTxs st !! hash = None ->
      forall u r, tx_status (settle (relay_claim' e st req) req u) hash r
                  = tx_status st hash r)
  /\ (forall other u r, other <> hash ->
        tx_status (store (relay_claim' e st req)) other r = tx_status st other r
        /\ tx_status (settle (relay_claim' e st req) req u) other r
           = tx_status st other r).
Proof.
  intros Hsub. destruct (submitted_inv e st req hash message Hsub) as (_ & _ & ->).
  unfold settle, tx_status. simpl. split; [| split].
  - intros r. by rewrite lookup_insert_eq.
  - intros Hfresh [u | m] r; simpl; by rewrite lookup_delete_eq, Hfresh.
  - intros other u r Hne. split.
    + by rewrite lookup_insert_ne.
    + destruct u; simpl; by rewrite lookup_delete_ne, lookup_insert_ne.
Qed.

(** X9: the counters of [GET /info]: a submission of a transaction with a
    new hash raises both by one; the failure of the transaction brings both
    back; its confirmation brings the pending count back and keeps the
    nonce counted. *)
Theorem info_counts_submissions (e : env) (st : state) (req : body)
    (hash message : string) :
  reply (relay_claim' e st req) = Some (Submitted hash message) ->
  pendingTxs st !! hash = None ->
  info (store (relay_claim' e st req))
  = {| pendingTransactions := S (pendingTransactions (info st));
       usedNoncesCount := S (usedNoncesCount (info st)) |}
  /\ (forall m, info (settle (relay_claim' e st req) req (Rejected m)) = info st)
  /\ info (settle (relay_claim' e st req) req (Resolved ()))
     = {| pendingTransactions := pendingTransactions (info st);
          usedNoncesCount := S (usedNoncesCount (info st)) |}.
Proof.
  intros Hsub Hfresh. destruct (submitted_inv e st req hash message Hsub) as (Hn & _ & ->).
  assert (size ({[nonce req]} ∪ usedNonces st) = S (size (usedNonces st))) as Hsize.
  { rewrite size_union by set_solver. by rewrite size_singleton. }
  unfold settle, info. simpl. split; [| split].
  - by rewrite map_size_insert_None, Hsize.
  - intros m. f_equal.
    + rewrite delete_insert_eq. by rewrite delete_id.
    + f_equal. set_solver.
  - rewrite delete_insert_eq, delete_id by done. by rewrite Hsize.
Qed.

(** X10: the nonce check reserves nothing. When a request the
    synchronous checks accept arrives twice before either invocation has
    come back from its first [await], both invocations go on to send a
    transaction: both end up waiting for a receipt, with both hashes
    pending. *)
Theorem concurrent_duplicates_are_both_submitted (t : Z) (st : state) (req : body)
    (proof : list string) (h1 h2 : string) :
  next (receive' t st req) = Some AwaitClaimed ->
  h1 <> h2 ->
  exists s,
    sys_run recoverAddress StringToNumber_lt
      {| registries := st; inflight := []; confirmed := [] |}
      [ Arrive t req; Arrive t req;
        Deliver t 0 (ClaimedAnswer (Resolved false));
        Deliver t 1 (ClaimedAnswer (Resolved false));
        Deliver t 0 (ProofAnswer (Resolved (Some proof)));
        Deliver t 1 (ProofAnswer (Resolved (Some proof)));
        Deliver t 0 (ClaimAnswer (Resolved h1));
        Deliver t 1 (ClaimAnswer (Resolved h2)) ]
    = Some s
    /\ inflight s = [ {| request := req; at_stage := AwaitReceipt h1 |};
                      {| request := req; at_stage := AwaitReceipt h2 |} ]
    /\ is_Some (pendingTxs (registries s) !! h1)
    /\ is_Some (pendingTxs (registries s) !! h2).
Proof.
  intros Hnext Hne.
  destruct (receive_suspended _ _ _ _ _ _ Hnext) as (_ & _ & _ & _ & _ & Hrecv).
  eexists. split.
  - cbn [Relayer.sys_run Relayer.sys_step registries inflight confirmed mbind
         option_bind app].
    rewrite Hrecv.
    cbn [Relayer.sys_run Relayer.sys_step registries inflight confirmed mbind
         option_bind app store next suspended].
    rewrite Hrecv. cbn. reflexivity.
  - cbn. split; [reflexivity |]. split.
    + rewrite lookup_insert_ne by done. rewrite lookup_insert_eq. by eexists.
    + rewrite lookup_insert_eq. by eexists.
Qed.

End RelayerMoreFacts.

(** ** The relayer: a reserved nonce under interleaving *)

Section ReplayFacts.
Import Relayer Replay.

Variable recoverAddress : body -> option string.
Variable StringToNumber_lt : string -> Z -> bool.

Abbreviation receive'' := (receive recoverAddress StringToNumber_lt).
Abbreviation sys_step'' := (sys_step recoverAddress StringToNumber_lt).
Abbreviation sys_run'' := (sys_run recoverAddress StringToNumber_lt).

(** A request whose nonce is in [usedNonces] is turned down by the
    synchronous checks, at the nonce check when it gets that far. *)
Lemma used_nonce_refused (t : Z) (st : state) (req : body) :
  nonce req ∈ usedNonces st ->
  next (receive'' t st req) = None
  /\ exists err,
       reply (receive'' t st req) = Some (BadRequest err)
       /\ (missing_fields req = false ->
           expired StringToNumber_lt (t / 1000) (deadline req) = false ->
           receive'' t st req
           = rejected st "Nonce already used" [ShapeCheck; DeadlineCheck; NonceCheck]).
Proof.
  intros Hn. unfold Relayer.receive.
  destruct (missing_fields req); [simpl; split; [done |]; eexists; by split |].
  destruct (expired _ _ _); [simpl; split; [done |]; eexists; by split |].
  rewrite bool_decide_eq_true_2 by done.
  simpl. split; [done |]. eexists. by split.
Qed.

(** What one resumption does to [usedNonces]: it removes at most the
    nonce of its own request, and that only on a failure. *)
Lemma resume_keeps_nonce (t : Z) (st : state) (req : body) (stg : stage) (a : answer)
    (o : outcome) (n : value) :
  resume t st req stg a = Some o ->
  n ∈ usedNonces st ->
  nonce req <> n \/ (exists hash u, stg = AwaitReceipt hash /\ a = ReceiptAnswer (Resolved u)) ->
  n ∈ usedNonces (store o).
Proof.
  intros Hres Hn Hcase.
  destruct stg, a as [[[|] | m] | [[p|] | m] | [h | m] | [u | m]]; simpl in Hres;
    try discriminate; injection Hres as <-; simpl;
    try destruct (truthy (nonce req)); simpl; try done;
    destruct Hcase as [Hne | (h' & u' & Hs & Ha)]; try discriminate; set_solver.
Qed.

(** One step keeps a reserved nonce reserved, unless it fails a
    transaction that carries it. *)
Lemma reserved_step (n : value) (s s' : system) (l : label) :
  reserved n s ->
  fails_transaction_of n s l = false ->
  sys_step'' s l = Some s' ->
  reserved n s'.
Proof.
  intros [Hn Htasks] Hfail Hstep. destruct l as [t req | t i a].
  - cbn [Relayer.sys_step] in Hstep. injection Hstep as <-. split; simpl.
    + by rewrite receive_store.
    + intros j tk Hj Hnonce.
      apply lookup_app_Some in Hj as [Hj | [_ Hj]]; [by eapply Htasks |].
      destruct (next (receive'' t (registries s) req)) as [stg|] eqn:Hnext.
      * destruct (receive_suspended _ _ _ _ _ _ Hnext) as (_ & _ & _ & Hfresh & _).
        destruct (j - length (inflight s))%nat; simpl in Hj; [| discriminate].
        injection Hj as <-. simpl in Hnonce. congruence.
      * by rewrite lookup_nil in Hj.
  - cbn [Relayer.sys_step] in Hstep.
    destruct (inflight s !! i) as [tk|] eqn:Hi; [| discriminate].
    cbn [mbind option_bind] in Hstep.
    destruct (resume t (registries s) (request tk) (at_stage tk) a) as [o|] eqn:Hres;
      [| discriminate].
    cbn [mbind option_bind] in Hstep. injection Hstep as <-. split; simpl.
    + apply (resume_keeps_nonce _ _ _ _ _ _ _ Hres Hn).
      destruct (decide (nonce (request tk) = n)) as [Heq | Hne]; [right | by left].
      destruct (Htasks i tk Hi Heq) as [hash Hstage]. rewrite Hstage in Hres.
      destruct a as [r | r | r | [u | m]]; try discriminate Hres; [by eauto |].
      simpl in Hfail. rewrite Hi in Hfail.
      by rewrite bool_decide_eq_true_2 in Hfail.
    + intros j tk' Hj Hnonce.
      destruct (next o) as [stg|] eqn:Hnext.
      * apply list_lookup_insert_Some in Hj as [(_ & Htk & _) | [_ Hj]];
          [| by eapply Htasks].
        subst tk'. simpl in Hnonce. destruct (Htasks i tk Hi Hnonce) as [hash Hstage].
        rewrite Hstage in Hres.
        destruct a as [r | r | r | [u | m]]; try discriminate Hres;
          injection Hres as <-; discriminate Hnext.
      * apply lookup_delete_inv in Hj as [j' Hj]. by eapply Htasks.
Qed.

Lemma reserved_run (n : value) (ls : list label) : forall s s',
  reserved n s ->
  transaction_holds recoverAddress StringToNumber_lt n s ls = true ->
  sys_run'' s ls = Some s' ->
  reserved n s'.
Proof.
  induction ls as [|l ls IH]; intros s s' Hres Hholds Hrun.
  - by injection Hrun as <-.
  - cbn [Relayer.sys_run] in Hrun. cbn [transaction_holds] in Hholds.
    apply andb_true_iff in Hholds as [Hl Hrest]. apply negb_true_iff in Hl.
    destruct (sys_step'' s l) as [s1|] eqn:Hstep; [| discriminate].
    simpl in Hrun. apply (IH s1 s'); [| done | done].
    by apply (reserved_step n s s1 l).
Qed.

(** X7: replay protection, as far as it goes. The reply "submitted" of
    a request that ran on its own leaves its nonce reserved: in
    [usedNonces], with no other invocation carrying the same nonce still
    on its way to a submission. From any state in which a nonce is
    reserved, after any interleaving of arrivals and answers in which no
    transaction carrying that nonce fails, confirmations of it included,
    the nonce is still reserved; and then the arrival of a request with
    that nonce value leaves the whole system as it was, with a 400 reply,
    which is "Nonce already used" when the request's fields are present
    and its deadline has not passed. *)
Theorem reserved_nonce_is_refused :
  (forall (e : env) (st : state) (req : body) (hash message : string),
      reply (relay_claim recoverAddress StringToNumber_lt e st req)
      = Some (Submitted hash message) ->
      reserved (nonce req)
        (submitted_alone (relay_claim recoverAddress StringToNumber_lt e st req) req hash))
  /\ (forall (n : value) (s s' : system) (ls : list label),
        reserved n s ->
        transaction_holds recoverAddress StringToNumber_lt n s ls = true ->
        sys_run'' s ls = Some s' ->
        reserved n s'
        /\ forall (t : Z) (req' : body),
             nonce req' = n ->
             sys_step'' s' (Arrive t req') = Some s'
             /\ exists err,
                  reply (receive'' t (registries s') req') = Some (BadRequest err)
                  /\ (missing_fields req' = false ->
                      expired StringToNumber_lt (t / 1000) (deadline req') = false ->
                      receive'' t (registries s') req'
                      = rejected (registries s') "Nonce already used"
                          [ShapeCheck; DeadlineCheck; NonceCheck])).
Proof.
  split.
  - intros e st req hash message Hsub.
    destruct (submitted_inv recoverAddress StringToNumber_lt e st req hash message Hsub)
      as (_ & _ & ->).
    unfold submitted_alone. split; simpl; [set_solver |].
    intros [|j] tk Hj Hnonce; simpl in Hj; [| by rewrite lookup_nil in Hj].
    injection Hj as <-. by eexists.
  - intros n s s' ls Hres Hholds Hrun.
    pose proof (reserved_run n ls s s' Hres Hholds Hrun) as Hres'.
    split; [done |]. intros t req' Hnonce. destruct Hres' as [Hn _].
    rewrite <- Hnonce in Hn.
    destruct (used_nonce_refused t (registries s') req' Hn) as [Hnext Hreply].
    split; [| done]. by apply arrive_rejected.
Qed.

End ReplayFacts.

(** ** The contract: who can change what *)

Section AccessControl.
Import Bytes Airdrop Security.

Variable keccak256 : Buffer -> Buffer.

Lemma exec_by_other (st st' : storage) (c : call) (logs : list event) :
  exec keccak256 st c = Success st' logs ->
  sender_of c <> owner st ->
  owner st' = owner st /\ merkleRoot st' = merkleRoot st.
Proof.
  intros H Hne. destruct c as [s amt proof | s r | s o | s]; simpl in *.
  - by apply claim_inv in H as (_ & _ & ? & ? & _).
  - unfold setMerkleRoot in H. apply Z.eqb_neq in Hne. by rewrite Hne in H.
  - unfold transferOwnership in H. apply Z.eqb_neq in Hne. by rewrite Hne in H.
  - unfold renounceOwnership in H. apply Z.eqb_neq in Hne. by rewrite Hne in H.
Qed.

Lemma run_by_others (cs : list call) : forall st,
  Forall (fun c => sender_of c <> owner st) cs ->
  owner (run keccak256 st cs).1 = owner st
  /\ merkleRoot (run keccak256 st cs).1 = merkleRoot st.
Proof.
  induction cs as [|c cs IH]; intros st Hcs; [done |].
  apply Forall_cons in Hcs as [Hc Hcs]. simpl run.
  destruct (exec keccak256 st c) as [reason | st1 logs] eqn:E.
  - by apply IH.
  - destruct (exec_by_other st st1 c logs E Hc) as [Ho Hr].
    specialize (IH st1). rewrite Ho in IH. specialize (IH Hcs).
    destruct (run keccak256 st1 cs) as [st2 logs2]. simpl in *.
    destruct IH as [-> ->]. done.
Qed.

(** X12: [onlyOwner]. Whatever transactions accounts other than the
    owner send, claims included, the owner and the Merkle root stay as they
    are; and once the owner has renounced ownership, no transaction from
    an account other than the zero address changes the root again. *)
Theorem only_the_owner_changes_the_root (st : storage) (cs : list call) :
  Forall (fun c => sender_of c <> owner st) cs ->
  (owner (run keccak256 st cs).1 = owner st
   /\ merkleRoot (run keccak256 st cs).1 = merkleRoot st)
  /\ exists st',
       exec keccak256 st (RenounceOwnership (owner st)) = Success st' []
       /\ forall cs',
            Forall (fun c => sender_of c <> 0) cs' ->
            merkleRoot (run keccak256 st' cs').1 = merkleRoot st.
Proof.
  intros Hcs. split; [by apply run_by_others |].
  simpl. unfold renounceOwnership. rewrite Z.eqb_refl. eexists. split; [reflexivity |].
  intros cs' Hcs'.
  by destruct (run_by_others cs'
                 {| owner := 0; merkleRoot := merkleRoot st; claimed := claimed st |} Hcs')
    as [_ ->].
Qed.

End AccessControl.

(** ** The deployment script's encoder and the server's *)

Section DeployFacts.
Import Bytes JS DeployScript.

Lemma hexValue_toLowerChar (c : ascii) : hexValue (toLowerChar c) = hexValue c.
Proof.
  destruct c as [[] [] [] [] [] [] [] []]; reflexivity.
Qed.

Lemma Buffer_from_hex_toLower (s : list ascii) :
  Buffer_from_hex (map toLowerChar s) = Buffer_from_hex s.
Proof.
  induction s as [| a | hi lo rest IH] using list_pair_ind; try reflexivity.
  cbn [map Buffer_from_hex]. rewrite !hexValue_toLowerChar.
  destruct (hexValue hi), (hexValue lo); try reflexivity. by rewrite IH.
Qed.

Lemma nibbles_head (k : nat) : forall n,
  nibbles (S k) n = (n / 16 ^ Z.of_nat k) mod 16 :: nibbles k n.
Proof.
  induction k as [|k IH]; intros n.
  - simpl. by rewrite Z.div_1_r.
  - change (nibbles (S (S k)) n) with (nibbles (S k) (n / 16) ++ [n mod 16]).
    rewrite IH. simpl app. f_equal.
    rewrite Z.div_div by lia.
    by rewrite (Nat2Z.inj_succ k), Z.pow_succ_r by lia.
Qed.

Lemma pow_256_16 (j : nat) : 256 ^ Z.of_nat j = 16 ^ Z.of_nat (2 * j).
Proof.
  change 256 with (16 ^ 2). rewrite <- Z.pow_mul_r by lia. f_equal. lia.
Qed.

(** [toString(16)] prints no more digits than the number has. *)
Lemma hexDigits_exact (fuel : nat) : forall n acc,
  0 <= n < 16 ^ Z.of_nat fuel -> (1 <= fuel)%nat ->
  exists k, (1 <= k)%nat /\ n < 16 ^ Z.of_nat k
            /\ (k = 1%nat \/ 16 ^ Z.of_nat (k - 1) <= n)
            /\ hexDigits fuel n acc = map hexDigit (nibbles k n) ++ acc.
Proof.
  induction fuel as [|f IH]; intros n acc Hn Hf; [lia |].
  simpl hexDigits. destruct (n <? 16) eqn:E.
  - apply Z.ltb_lt in E. exists 1%nat. simpl.
    rewrite Z.mod_small by lia. repeat split; auto; lia.
  - apply Z.ltb_ge in E.
    rewrite Nat2Z.inj_succ, Z.pow_succ_r in Hn by lia.
    assert (1 <= f)%nat as Hf'.
    { destruct f; [simpl in Hn; lia | lia]. }
    destruct (IH (n / 16) (hexDigit (n mod 16) :: acc)) as (k & Hk & Hlt & Hmin & Heq);
      [split; [apply Z.div_pos; lia | apply Z.div_lt_upper_bound; lia] | done |].
    exists (S k). rewrite Heq. simpl nibbles. rewrite map_app, <- app_assoc. simpl.
    rewrite Nat2Z.inj_succ, Z.pow_succ_r by lia.
    replace (k - 0)%nat with k by lia.
    split; [lia |]. split; [Z.div_mod_to_equations; lia |]. split; [| reflexivity].
    right. destruct Hmin as [-> | Hmin]; [simpl; lia |].
    replace k with (S (k - 1)) at 1 by lia.
    rewrite Nat2Z.inj_succ, Z.pow_succ_r by lia. Z.div_mod_to_equations; lia.
Qed.

Lemma toString16_exact (n : Z) :
  0 <= n ->
  exists k, (1 <= k)%nat /\ n < 16 ^ Z.of_nat k
            /\ (k = 1%nat \/ 16 ^ Z.of_nat (k - 1) <= n)
            /\ BigInt_toString16 n = map hexDigit (nibbles k n).
Proof.
  intros Hn. unfold BigInt_toString16.
  destruct (n <? 0) eqn:E; [apply Z.ltb_lt in E; lia |].
  destruct (hexDigits_exact (S (Z.to_nat (Z.log2 n))) n [])
    as (k & Hk & Hlt & Hmin & Heq); [split; [done | by apply log2_fuel] | lia |].
  exists k. rewrite Heq, app_nil_r. auto.
Qed.

Lemma hexDigit_zero (d : Z) :
  0 <= d < 16 -> Ascii.eqb (hexDigit d) "0" = true -> d = 0.
Proof.
  intros Hd H. apply Ascii.eqb_eq in H.
  pose proof (hexValue_hexDigit d Hd) as Hv. rewrite H in Hv. by injection Hv.
Qed.

Lemma hexDigit_is_hex (d : Z) : 0 <= d < 16 -> isHexDigit (hexDigit d) = true.
Proof.
  intros Hd. unfold isHexDigit. by rewrite hexValue_hexDigit.
Qed.

Lemma isHexDigit_not (c x : ascii) :
  isHexDigit c = true -> isHexDigit x = false -> Ascii.eqb c x = false.
Proof.
  intros Hc Hx. apply Ascii.eqb_neq. intros ->. congruence.
Qed.

Lemma toString_hex_digits (b : Buffer) : forallb isHexDigit (Buffer_toString_hex b) = true.
Proof.
  induction b as [|x b IH]; [reflexivity |].
  pose proof (Z_of_byte_range x) as Hx.
  cbn [Buffer_toString_hex forallb].
  rewrite !hexDigit_is_hex, IH; [reflexivity | |]; Z.div_mod_to_equations; lia.
Qed.

(** [arrayify] reads back what [toString('hex')] prints after [0x]. *)
Lemma arrayify_hex (b : Buffer) :
  arrayify ("0"%char :: "x"%char :: Buffer_toString_hex b) = Some b.
Proof.
  unfold arrayify, isHexString. cbn [startsWith0x drop Ascii.eqb Bool.eqb andb].
  rewrite drop_0, toString_hex_digits, Buffer_toString_hex_length.
  replace (Nat.odd (2 * length b)) with false
    by (symmetry; apply Nat.odd_even).
  by rewrite Buffer_from_hex_roundtrip.
Qed.

Lemma trimZeroBytes_minimal (j : nat) (n : Z) (fuel : nat) :
  0 <= n < 256 ^ Z.of_nat j -> (j = 1%nat \/ 256 ^ Z.of_nat (j - 1) <= n) -> (1 <= j)%nat ->
  trimZeroBytes fuel ("0"%char :: "x"%char :: map hexDigit (nibbles (2 * j) n))
  = "0"%char :: "x"%char :: map hexDigit (nibbles (2 * j) n).
Proof.
  intros Hn Hmin Hj. destruct fuel as [|fuel]; [reflexivity |].
  destruct j as [|[|j]]; [lia | reflexivity |].
  destruct Hmin as [Hmin | Hmin]; [lia |].
  replace (2 * S (S j))%nat with (S (S (2 * S j))) by lia.
  rewrite (nibbles_head (S (2 * S j))), (nibbles_head (2 * S j)).
  set (m := (2 * S j)%nat) in *.
  rewrite pow_256_16 in Hn, Hmin.
  replace (2 * (S (S j) - 1))%nat with m in Hmin by lia.
  replace (2 * S (S j))%nat with (S (S m)) in Hn by lia.
  rewrite !Nat2Z.inj_succ, !Z.pow_succ_r in Hn by lia.
  rewrite Nat2Z.inj_succ, Z.pow_succ_r by lia.
  rewrite (Z.mul_comm 16 (16 ^ Z.of_nat m)), <- Z.div_div by lia.
  set (q := n / 16 ^ Z.of_nat m).
  assert (1 <= q < 256) as Hq.
  { unfold q. split.
    - apply Z.div_le_lower_bound; lia.
    - apply Z.div_lt_upper_bound; lia. }
  cbn [map trimZeroBytes].
  destruct (Ascii.eqb (hexDigit (q / 16 mod 16)) "0") eqn:Ea;
    [| by rewrite !andb_false_r].
  destruct (Ascii.eqb (hexDigit (q mod 16)) "0") eqn:Eb;
    [| by rewrite !andb_false_r].
  apply hexDigit_zero in Ea; [| Z.div_mod_to_equations; lia].
  apply hexDigit_zero in Eb; [| Z.div_mod_to_equations; lia].
  exfalso. Z.div_mod_to_equations. lia.
Qed.

(** The text a non-negative big number keeps: [0x] and the digits of its
    shortest big-endian byte string. *)
Lemma toHex_of_BN (n : Z) :
  0 <= n ->
  exists j, (1 <= j)%nat /\ n < 256 ^ Z.of_nat j
            /\ (j = 1%nat \/ 256 ^ Z.of_nat (j - 1) <= n)
            /\ toHex (BigInt_toString16 n)
               = Some ("0"%char :: "x"%char :: Buffer_toString_hex (be_bytes j n)).
Proof.
  intros Hn. destruct (toString16_exact n Hn) as (k & Hk & Hlt & Hmin & ->).
  assert (Forall (fun c => isHexDigit c = true) (map hexDigit (nibbles k n))) as Hhex.
  { apply Forall_map. clear. revert n. induction k as [|k IH]; intros n; simpl.
    - constructor.
    - apply Forall_app. split; [apply IH |]. constructor; [| constructor].
      apply hexDigit_is_hex. Z.div_mod_to_equations. lia. }
  assert (exists j, (1 <= j)%nat /\ n < 256 ^ Z.of_nat j
                    /\ (j = 1%nat \/ 256 ^ Z.of_nat (j - 1) <= n)
                    /\ toHex_unsigned (map hexDigit (nibbles k n))
                       = "0"%char :: "x"%char :: map hexDigit (nibbles (2 * j) n))
    as (j & Hj & Hjlt & Hjmin & Heq).
  { unfold toHex_unsigned.
    assert (startsWith0x (map hexDigit (nibbles k n)) = false) as ->.
    { destruct (map hexDigit (nibbles k n)) as [|c0 [|c1 rest]]; try reflexivity.
      apply Forall_cons in Hhex as [_ Hhex]. apply Forall_cons in Hhex as [H1 _].
      simpl. rewrite (isHexDigit_not c1 "x" H1 eq_refl). apply andb_false_r. }
    rewrite bool_decide_eq_false_2.
    2: { destruct k; [lia |]. rewrite nibbles_head. discriminate. }
    cbn [length drop]. rewrite length_map, nibbles_length.
    destruct (Nat.odd k) eqn:Hodd.
    - apply Nat.odd_spec in Hodd as [i ->].
      assert (map hexDigit (nibbles (2 * S i) n)
              = "0"%char :: map hexDigit (nibbles (2 * i + 1) n)) as Hpad.
      { replace (2 * S i)%nat with (1 + (2 * i + 1))%nat by lia.
        by rewrite (nibbles_pad 1) by lia. }
      assert (n < 16 ^ Z.of_nat (2 * S i)) as Hup.
      { replace (2 * S i)%nat with (S (2 * i + 1)) by lia.
        rewrite Nat2Z.inj_succ, Z.pow_succ_r by lia. lia. }
      assert (S i = 1%nat \/ 256 ^ Z.of_nat (S i - 1) <= n) as Hlow.
      { destruct Hmin as [Hmin | Hmin]; [left; lia | right].
        rewrite pow_256_16. by replace (2 * (S i - 1))%nat with (2 * i + 1 - 1)%nat by lia. }
      exists (S i). rewrite pow_256_16.
      split; [lia |]. split; [done |]. split; [done |].
      replace (Nat.odd (S (S (2 * i + 1)))) with true
        by (symmetry; apply Nat.odd_spec; exists (S i); lia).
      cbn [drop]. rewrite drop_0, <- Hpad.
      apply trimZeroBytes_minimal; [rewrite pow_256_16; lia | done | lia].
    - assert (Nat.even k = true) as Heven
        by (rewrite <- Nat.negb_odd; by rewrite Hodd).
      apply Nat.even_spec in Heven as [i ->].
      replace (Nat.odd (S (S (2 * i)))) with false by (by rewrite <- Hodd).
      exists i. rewrite pow_256_16.
      assert (i = 1%nat \/ 256 ^ Z.of_nat (i - 1) <= n) as Hlow.
      { destruct Hmin as [Hmin | Hmin]; [lia |].
        destruct (decide (i = 1%nat)) as [-> | Hi]; [by left | right].
        rewrite pow_256_16. etrans; [| exact Hmin].
        apply Z.pow_le_mono_r; lia. }
      split; [lia |]. split; [done |]. split; [done |].
      apply trimZeroBytes_minimal; [rewrite pow_256_16; lia | done | lia]. }
  exists j. split; [done |]. split; [done |]. split; [done |].
  rewrite <- nibbles_be_bytes, <- Heq.
  unfold toHex.
  destruct (map hexDigit (nibbles k n)) as [|c rest] eqn:E; [reflexivity |].
  apply Forall_cons in Hhex as [Hc _].
  by rewrite (isHexDigit_not c "-" Hc eq_refl).
Qed.

Lemma be_bytes_zero (w : nat) : be_bytes w 0 = repeat Byte.x00 w.
Proof.
  induction w as [|w IH]; [reflexivity |].
  simpl be_bytes. change (0 / 256) with 0. rewrite IH.
  change (byte_of_Z (0 mod 256)) with Byte.x00.
  symmetry. apply repeat_cons.
Qed.

Lemma be_bytes_pad (i j : nat) : forall n,
  0 <= n < 256 ^ Z.of_nat j -> be_bytes (i + j) n = repeat Byte.x00 i ++ be_bytes j n.
Proof.
  induction j as [|j IH]; intros n Hn.
  - simpl in Hn. assert (n = 0) as -> by lia.
    rewrite Nat.add_0_r, be_bytes_zero. simpl. by rewrite app_nil_r.
  - rewrite Nat.add_succ_r. simpl be_bytes.
    rewrite Nat2Z.inj_succ, Z.pow_succ_r in Hn by lia.
    rewrite IH by (Z.div_mod_to_equations; lia).
    by rewrite app_assoc.
Qed.

(** The amount half of the script's [encodeLeaf], by the size of the
    amount. *)
Lemma zeroPad_of_BN (n : Z) (hex : list ascii) :
  0 <= n -> toHex (BigInt_toString16 n) = Some hex ->
  zeroPad hex 32 = if n <? 2 ^ 256 then Some (be_bytes 32 n) else None.
Proof.
  intros Hn Hhex. destruct (toHex_of_BN n Hn) as (j & Hj & Hlt & Hmin & Heq).
  rewrite Heq in Hhex. injection Hhex as <-.
  unfold zeroPad. rewrite arrayify_hex. cbn [mbind option_bind].
  rewrite be_bytes_length.
  change (2 ^ 256) with (256 ^ Z.of_nat 32).
  destruct (n <? 256 ^ Z.of_nat 32) eqn:E.
  - apply Z.ltb_lt in E.
    assert (j <= 32)%nat as Hle.
    { destruct Hmin as [-> | Hmin]; [lia |].
      destruct (decide (j <= 32)%nat) as [|Hgt]; [done | exfalso].
      assert (256 ^ Z.of_nat 32 <= 256 ^ Z.of_nat (j - 1))
        by (apply Z.pow_le_mono_r; lia).
      lia. }
    rewrite (proj2 (Nat.ltb_ge 32 j)) by done.
    f_equal. replace 32%nat with ((32 - j) + j)%nat at 2 by lia.
    symmetry. apply be_bytes_pad. lia.
  - apply Z.ltb_ge in E.
    assert (32 < j)%nat as Hgt.
    { destruct (decide (32 < j)%nat) as [|Hle]; [done | exfalso].
      assert (256 ^ Z.of_nat j <= 256 ^ Z.of_nat 32)
        by (apply Z.pow_le_mono_r; lia).
      lia. }
    by rewrite (proj2 (Nat.ltb_lt 32 j)).
Qed.

(** Decimal digits are no signs, prefixes or white space. *)
Lemma decimal_digit_inv (c : ascii) :
  isDecimalDigit c = true ->
  (exists d, hexValue c = Some d /\ 0 <= d < 10)
  /\ isWhiteSpace c = false
  /\ Ascii.eqb c "+" = false /\ Ascii.eqb c "-" = false
  /\ Ascii.eqb c "x" = false /\ Ascii.eqb c "X" = false
  /\ Ascii.eqb c "o" = false /\ Ascii.eqb c "O" = false
  /\ Ascii.eqb c "b" = false /\ Ascii.eqb c "B" = false.
Proof.
  destruct c as [[] [] [] [] [] [] [] []]; try discriminate; intros _;
    (split; [eexists; split; [vm_compute; reflexivity | lia] | repeat split]).
Qed.

Lemma digitsValue_decimal (s : list ascii) : forall acc,
  forallb isDecimalDigit s = true -> 0 <= acc ->
  exists n, digitsValue 10 s acc = Some n /\ 0 <= n.
Proof.
  induction s as [|c s IH]; intros acc Hs Hacc; [by exists acc |].
  simpl in Hs. apply andb_true_iff in Hs as [Hc Hs].
  destruct (decimal_digit_inv c Hc) as [(d & Hd & Hr) _].
  simpl. rewrite Hd. rewrite (proj2 (Z.ltb_lt d 10)) by lia.
  apply IH; [done | lia].
Qed.

Lemma trimStart_id (s : list ascii) :
  Forall (fun c => isWhiteSpace c = false) s -> trimStart s = s.
Proof.
  intros H. destruct H as [|c s Hc _]; [reflexivity |]. simpl. by rewrite Hc.
Qed.

Lemma trim_decimal (s : list ascii) : forallb isDecimalDigit s = true -> trim s = s.
Proof.
  intros Hs.
  assert (Forall (fun c => isWhiteSpace c = false) s) as H.
  { apply Is_true_true_2, forallb_True in Hs. eapply Forall_impl; [exact Hs |].
    intros c Hc. apply Is_true_true_1 in Hc. by destruct (decimal_digit_inv c Hc) as (_ & ? & _). }
  unfold trim. rewrite (trimStart_id s H).
  rewrite trimStart_id by by apply Forall_rev.
  apply rev_involutive.
Qed.

(** [BigInt] and the script's [BigNumber.from] read a decimal numeral
    without a sign as the same number. *)
Lemma decimal_amount (amount : string) :
  chars amount <> [] -> forallb isDecimalDigit (chars amount) = true ->
  exists n, 0 <= n /\ BigInt amount = Some n
            /\ BigNumber_from (chars amount) = toHex (BigInt_toString16 n).
Proof.
  intros Hne Hdec.
  destruct (digitsValue_decimal (chars amount) 0 Hdec ltac:(lia)) as (n & Hval & Hn).
  exists n. split; [done |].
  unfold BigInt, BigNumber_from, isHexNumeral, isDecimalNumeral, BN_decimal, unsigned.
  rewrite (trim_decimal _ Hdec).
  destruct (chars amount) as [|c0 rest] eqn:E; [done |].
  pose proof Hdec as Hdec'. simpl in Hdec'.
  apply andb_true_iff in Hdec' as [H0 Hrest].
  destruct (decimal_digit_inv c0 H0) as (_ & _ & Hp & Hm & _).
  rewrite Hp, Hm, Hdec.
  assert (parseDigits 10 (c0 :: rest) = Some n) as Hparse by exact Hval.
  rewrite Hparse. cbn [mbind option_bind]. split.
  - destruct (Ascii.eqb c0 "0") eqn:Hz; [| reflexivity].
    destruct rest as [|c1 ds].
    + apply Ascii.eqb_eq in Hz. subst c0. vm_compute in Hval. congruence.
    + simpl in Hrest. apply andb_true_iff in Hrest as [H1 _].
      destruct (decimal_digit_inv c1 H1) as (_ & _ & _ & _ & -> & -> & -> & -> & -> & ->).
      reflexivity.
  - destruct rest as [|c1 [|c2 ds]]; try reflexivity.
    simpl in Hrest. apply andb_true_iff in Hrest as [H1 _].
    destruct (decimal_digit_inv c1 H1) as (_ & _ & _ & _ & -> & -> & _).
    by rewrite andb_false_r.
Qed.

(** X13: the two leaf encoders. For an address written as [0x] and 40
    hexadecimal digits of either case and an amount written as a decimal
    numeral: when the amount fits [uint256], the deployment script's
    [encodeLeaf] and the server's (on the lower-cased address) give the same
    52 bytes, the address bytes and the 32-byte big-endian amount; when it
    does not fit, the script throws, whereas the server encodes. *)
Theorem deploy_and_server_encode_alike (address amount : string) (ds : list ascii) :
  chars address = "0"%char :: "x"%char :: ds ->
  length ds = 40%nat ->
  forallb isHexDigit ds = true ->
  chars amount <> [] ->
  forallb isDecimalDigit (chars amount) = true ->
  exists n,
    0 <= n /\ BigInt amount = Some n
    /\ (n < 2 ^ 256 ->
        DeployScript.encodeLeaf address amount = Some (Buffer_from_hex ds ++ be_bytes 32 n)
        /\ ProofServer.encodeLeaf (toLowerCase address) amount
           = Some (Buffer_from_hex ds ++ be_bytes 32 n))
    /\ (2 ^ 256 <= n ->
        DeployScript.encodeLeaf address amount = None
        /\ is_Some (ProofServer.encodeLeaf (toLowerCase address) amount)).
Proof.
  intros Haddr Hlen Hhex Hne Hdec.
  destruct (decimal_amount amount Hne Hdec) as (n & Hn & Hbig & Hfrom).
  exists n. split; [done |]. split; [done |].
  assert (arrayify (chars address) = Some (Buffer_from_hex ds)) as Harr.
  { unfold arrayify, isHexString. rewrite Haddr.
    cbn [startsWith0x drop Ascii.eqb Bool.eqb andb]. rewrite drop_0, Hhex, Hlen.
    reflexivity. }
  assert (DeployScript.encodeLeaf address amount
          = match (if n <? 2 ^ 256 then Some (be_bytes 32 n) else None) with
            | Some amountBytes => Some (Buffer_from_hex ds ++ amountBytes)
            | None => None
            end) as Hd.
  { unfold DeployScript.encodeLeaf. rewrite Harr, Hfrom.
    cbn [mbind option_bind].
    destruct (toHex_of_BN n Hn) as (j & _ & _ & _ & Hj).
    rewrite Hj. cbn [mbind option_bind].
    rewrite (zeroPad_of_BN n _ Hn Hj).
    by destruct (n <? 2 ^ 256). }
  assert (ProofServer.encodeLeaf (toLowerCase address) amount
          = Some (Buffer_from_hex ds
                    ++ Buffer_from_hex (padStart 64 "0" (BigInt_toString16 n)))) as Hs.
  { unfold ProofServer.encodeLeaf. rewrite Hbig. cbn [mbind option_bind].
    unfold toLowerCase. rewrite chars_string_of_list_ascii, Haddr.
    cbn [map]. change (toLowerChar "0") with "0"%char. change (toLowerChar "x") with "x"%char.
    cbn [replace_0x Ascii.eqb Bool.eqb andb].
    unfold padStart at 1. rewrite length_map, Hlen. cbn [Nat.sub repeat app].
    by rewrite Buffer_from_hex_toLower. }
  split.
  - intros Hlt. rewrite Hd, Hs, (proj2 (Z.ltb_lt n (2 ^ 256))) by done.
    split; [reflexivity |]. by rewrite amountBuf_in_range.
  - intros Hge. rewrite Hd, Hs, (proj2 (Z.ltb_ge n (2 ^ 256))) by done.
    split; [reflexivity | by eexists].
Qed.

End DeployFacts.

(** ** The further statements at sample data *)

Lemma sample_submission :
  Relayer.reply
    (Relayer.relay_claim Samples.recover_tagged Samples.no_string_is_number
       Scenarios.submitting Relayer.initial (Samples.intent 7 2000))
  = Some (Relayer.Submitted "0xabc" "Claim transaction submitted successfully").
Proof.
  unfold Relayer.relay_claim, Relayer.receive. simpl.
  rewrite bool_decide_eq_false_2 by apply not_elem_of_empty. reflexivity.
Qed.

Lemma sample_accepted :
  Relayer.next
    (Relayer.receive Samples.recover_tagged Samples.no_string_is_number 1000000
       Relayer.initial (Samples.intent 7 2000))
  = Some Relayer.AwaitClaimed.
Proof.
  unfold Relayer.receive. simpl.
  rewrite bool_decide_eq_false_2 by apply not_elem_of_empty. reflexivity.
Qed.

(** The server started on the default whitelist, evaluated. *)
Ltac started_server srv E :=
  let srv0 := fresh "srv" in
  destruct (ProofServer.start Samples.checksum32 Samples.default_whitelist)
    as [srv0|] eqn:E; [| vm_compute in E; discriminate E];
  let E' := fresh "E" in
  pose proof E as E'; vm_compute in E'; injection E' as <-;
  match type of E with _ = Some ?t => set (srv := t) in * end.

Lemma only_whitelisted_claims_are_logged_witness :
  exists srv proof,
    ProofServer.start Samples.checksum32 Samples.default_whitelist = Some srv
    /\ Airdrop.Claimed Scenarios.alice_account 100
         ∈ (Airdrop.run Samples.checksum32
              (Airdrop.constructor 1 (MerkleTreeJS.getRoot (ProofServer.tree srv)))
              [Airdrop.Claim Scenarios.alice_account 100
                 (MerkleTreeJS.getProof (ProofServer.tree srv) Scenarios.alice_leaf)]).2
    /\ Airdrop.Claim Scenarios.alice_account 100 proof
         ∈ [Airdrop.Claim Scenarios.alice_account 100
              (MerkleTreeJS.getProof (ProofServer.tree srv) Scenarios.alice_leaf)]
    /\ ((exists e, e ∈ Samples.default_whitelist
                   /\ ProofServer.encodeLeaf (JS.toLowerCase (ProofServer.address e))
                        (ProofServer.amount e)
                      = Some (Airdrop.encodePacked Scenarios.alice_account 100))
        \/ Security.collide Samples.checksum32
             (Security.claimInputs Samples.checksum32 Scenarios.alice_account 100 proof)
             (Security.treeInputs Samples.default_whitelist (ProofServer.tree srv))).
Proof.
  started_server srv E.
  assert (Airdrop.Claimed Scenarios.alice_account 100
            ∈ (Airdrop.run Samples.checksum32
                 (Airdrop.constructor 1 (MerkleTreeJS.getRoot (ProofServer.tree srv)))
                 [Airdrop.Claim Scenarios.alice_account 100
                    (MerkleTreeJS.getProof (ProofServer.tree srv) Scenarios.alice_leaf)]).2)
    as Hlog by (vm_compute; apply list_elem_of_here).
  destruct (only_whitelisted_claims_are_logged Samples.checksum32 checksum32_length
              Samples.default_whitelist srv 1
              [Airdrop.Claim Scenarios.alice_account 100
                 (MerkleTreeJS.getProof (ProofServer.tree srv) Scenarios.alice_leaf)]
              Scenarios.alice_account 100 E ltac:(vm_compute; reflexivity)
              ltac:(constructor; [vm_compute; repeat constructor | constructor])
              eq_refl Hlog) as (proof & Hin & Hsound).
  exists srv, proof. split; [exact E |]. split; [exact Hlog |].
  split; [exact Hin | exact Hsound].
Defined.

Lemma proof_has_at_most_log_siblings_witness :
  exists srv proof leaf root,
    ProofServer.start Samples.checksum32 Samples.default_whitelist = Some srv
    /\ ProofServer.get_proof Samples.checksum32 srv
         "0x70997970C51812dc3A010C7d01b50e0d17dc79C8" "100"
       = Some (ProofServer.ProofData Samples.alice "100" proof leaf root)
    /\ (length proof <= 2)%nat.
Proof.
  started_server srv E.
  exists srv. do 3 eexists. split; [exact E |].
  match goal with
  | |- ?A /\ _ => assert A as Hget by (vm_compute; reflexivity)
  end.
  split; [exact Hget |].
  exact (proof_has_at_most_log_siblings Samples.checksum32 Samples.default_whitelist srv
           _ _ _ _ _ _ _ 2%nat E ltac:(simpl; lia) Hget).
Defined.

Lemma root_ignores_order_within_a_pair_witness :
  ProofServerAPI.get_root <$> ProofServer.start Samples.checksum32 Samples.default_whitelist
  = ProofServerAPI.get_root <$> ProofServer.start Samples.checksum32 Scenarios.swapped_whitelist.
Proof.
  exact (root_ignores_order_within_a_pair Samples.checksum32 []
           [ {| ProofServer.address := "0x90F79bf6EB2c4f870365E785982E1f101E93b906";
                ProofServer.amount := "200" |} ]
           {| ProofServer.address := "0x70997970C51812dc3A010C7d01b50e0d17dc79C8";
              ProofServer.amount := "100" |}
           {| ProofServer.address := "0x3C44CdDdB6a900fa2b585dd299e03d12FA4293BC";
              ProofServer.amount := "50" |} eq_refl).
Defined.

Lemma verify_agrees_with_proof_witness :
  exists srv,
    ProofServer.start Samples.checksum32 Samples.default_whitelist = Some srv
    /\ ProofServerAPI.eligible
         (ProofServerAPI.get_verify srv "0x70997970C51812dc3A010C7d01b50e0d17dc79C8" "100")
       = true
    /\ (exists proof leaf,
          ProofServer.get_proof Samples.checksum32 srv
            "0x70997970C51812dc3A010C7d01b50e0d17dc79C8" "100"
          = Some (ProofServer.ProofData
                    (JS.toLowerCase "0x70997970C51812dc3A010C7d01b50e0d17dc79C8") "100"
                    proof leaf (ProofServer.root srv)))
    /\ ProofServerAPI.get_verify srv
         (JS.toLowerCase "0x70997970C51812dc3A010C7d01b50e0d17dc79C8") "100"
       = ProofServerAPI.get_verify srv "0x70997970C51812dc3A010C7d01b50e0d17dc79C8" "100".
Proof.
  destruct (ProofServer.start Samples.checksum32 Samples.default_whitelist) as [srv|] eqn:E;
    [| vm_compute in E; discriminate E].
  exists srv. split; [reflexivity |].
  destruct (verify_agrees_with_proof Samples.checksum32 Samples.default_whitelist srv
              "0x70997970C51812dc3A010C7d01b50e0d17dc79C8" "100" E) as (Hif & Hv & _).
  assert (ProofServerAPI.eligible
            (ProofServerAPI.get_verify srv "0x70997970C51812dc3A010C7d01b50e0d17dc79C8" "100")
          = true) as Hel.
  { vm_compute in E. injection E as <-. vm_compute. reflexivity. }
  rewrite Hel in Hif. destruct Hif as (Hproof & _ & _).
  split; [exact Hel |]. split; [exact Hproof | exact Hv].
Defined.

Lemma settlement_of_a_transaction_witness :
  Relayer.settle
    (Relayer.relay_claim Samples.recover_tagged Samples.no_string_is_number
       Scenarios.submitting Relayer.initial (Samples.intent 7 2000))
    (Samples.intent 7 2000) (Relayer.Rejected "transaction failed")
  = Relayer.initial
  /\ Relayer.settle
       (Relayer.relay_claim Samples.recover_tagged Samples.no_string_is_number
          Scenarios.submitting Relayer.initial (Samples.intent 7 2000))
       (Samples.intent 7 2000) (Relayer.Resolved ())
     = Relayer.add_nonce (Relayer.VNum 7) Relayer.initial.
Proof.
  destruct (settlement_of_a_transaction Samples.recover_tagged Samples.no_string_is_number
              Scenarios.submitting Relayer.initial (Samples.intent 7 2000) "0xabc" _
              sample_submission (lookup_empty _)) as [Hfail Hok].
  split; [apply Hfail | exact Hok].
Defined.

Lemma reserved_nonce_is_refused_witness :
  exists s' : Relayer.system,
    Relayer.sys_run Samples.recover_tagged Samples.no_string_is_number
      (Replay.submitted_alone
         (Relayer.relay_claim Samples.recover_tagged Samples.no_string_is_number
            Scenarios.submitting Relayer.initial (Samples.intent 7 2000))
         (Samples.intent 7 2000) "0xabc")
      [Relayer.Deliver 1000000 0 (Relayer.ReceiptAnswer (Relayer.Resolved ()))]
    = Some s'
    /\ Relayer.confirmed s' = [Samples.intent 7 2000]
    /\ Relayer.sys_step Samples.recover_tagged Samples.no_string_is_number s'
         (Relayer.Arrive 1000000 (Samples.intent 7 9000)) = Some s'
    /\ Relayer.receive Samples.recover_tagged Samples.no_string_is_number 1000000
         (Relayer.registries s') (Samples.intent 7 9000)
       = Relayer.rejected (Relayer.registries s') "Nonce already used"
           [Relayer.ShapeCheck; Relayer.DeadlineCheck; Relayer.NonceCheck].
Proof.
  destruct (Relayer.sys_run Samples.recover_tagged Samples.no_string_is_number
              (Replay.submitted_alone
                 (Relayer.relay_claim Samples.recover_tagged Samples.no_string_is_number
                    Scenarios.submitting Relayer.initial (Samples.intent 7 2000))
                 (Samples.intent 7 2000) "0xabc")
              [Relayer.Deliver 1000000 0 (Relayer.ReceiptAnswer (Relayer.Resolved ()))])
    as [s'|] eqn:Hrun; [| discriminate Hrun].
  exists s'. split; [reflexivity |].
  split; [by injection Hrun as <- |].
  destruct (proj2 (reserved_nonce_is_refused Samples.recover_tagged
                     Samples.no_string_is_number)
              (Relayer.nonce (Samples.intent 7 2000)) _ s'
              [Relayer.Deliver 1000000 0 (Relayer.ReceiptAnswer (Relayer.Resolved ()))]
              (proj1 (reserved_nonce_is_refused Samples.recover_tagged
                        Samples.no_string_is_number)
                 Scenarios.submitting Relayer.initial (Samples.intent 7 2000) "0xabc" _
                 sample_submission)
              eq_refl Hrun) as [_ Hrefuse].
  destruct (Hrefuse 1000000 (Samples.intent 7 9000) eq_refl) as (Hstep & err & _ & Hreply).
  split; [exact Hstep | exact (Hreply eq_refl eq_refl)].
Defined.

Lemma tx_status_follows_the_pending_map_witness :
  RelayerAPI.tx_status
    (Relayer.store
       (Relayer.relay_claim Samples.recover_tagged Samples.no_string_is_number
          Scenarios.submitting Relayer.initial (Samples.intent 7 2000)))
    "0xabc" (Relayer.Resolved None)
  = RelayerAPI.StatusPending
      {| Relayer.pending_recipient := Relayer.VStr Samples.alice;
         Relayer.pending_amount := Relayer.VStr "100";
         Relayer.timestamp := 1000000 |}
  /\ RelayerAPI.tx_status
       (Relayer.settle
          (Relayer.relay_claim Samples.recover_tagged Samples.no_string_is_number
             Scenarios.submitting Relayer.initial (Samples.intent 7 2000))
          (Samples.intent 7 2000) (Relayer.Resolved ()))
       "0xabc" (Relayer.Resolved None)
     = RelayerAPI.tx_status Relayer.initial "0xabc" (Relayer.Resolved None).
Proof.
  destruct (tx_status_follows_the_pending_map Samples.recover_tagged
              Samples.no_string_is_number Scenarios.submitting Relayer.initial
              (Samples.intent 7 2000) "0xabc" _ sample_submission) as (Hpending & Hafter & _).
  split; [apply Hpending | apply Hafter; apply lookup_empty].
Defined.

Lemma info_counts_submissions_witness :
  RelayerAPI.info
    (Relayer.store
       (Relayer.relay_claim Samples.recover_tagged Samples.no_string_is_number
          Scenarios.submitting Relayer.initial (Samples.intent 7 2000)))
  = {| RelayerAPI.pendingTransactions :=
         S (RelayerAPI.pendingTransactions (RelayerAPI.info Relayer.initial));
       RelayerAPI.usedNoncesCount :=
         S (RelayerAPI.usedNoncesCount (RelayerAPI.info Relayer.initial)) |}.
Proof.
  exact (proj1 (info_counts_submissions Samples.recover_tagged Samples.no_string_is_number
                  Scenarios.submitting Relayer.initial (Samples.intent 7 2000) "0xabc" _
                  sample_submission (lookup_empty _))).
Defined.

Lemma concurrent_duplicates_are_both_submitted_witness :
  exists s,
    Relayer.sys_run Samples.recover_tagged Samples.no_string_is_number
      {| Relayer.registries := Relayer.initial; Relayer.inflight := [];
         Relayer.confirmed := [] |}
      [ Relayer.Arrive 1000000 (Samples.intent 7 2000);
        Relayer.Arrive 1000000 (Samples.intent 7 2000);
        Relayer.Deliver 1000000 0 (Relayer.ClaimedAnswer (Relayer.Resolved false));
        Relayer.Deliver 1000000 1 (Relayer.ClaimedAnswer (Relayer.Resolved false));
        Relayer.Deliver 1000000 0 (Relayer.ProofAnswer (Relayer.Resolved (Some [])));
        Relayer.Deliver 1000000 1 (Relayer.ProofAnswer (Relayer.Resolved (Some [])));
        Relayer.Deliver 1000000 0 (Relayer.ClaimAnswer (Relayer.Resolved "0xaa"));
        Relayer.Deliver 1000000 1 (Relayer.ClaimAnswer (Relayer.Resolved "0xbb")) ]
    = Some s
    /\ Relayer.inflight s
       = [ {| Relayer.request := Samples.intent 7 2000;
              Relayer.at_stage := Relayer.AwaitReceipt "0xaa" |};
           {| Relayer.request := Samples.intent 7 2000;
              Relayer.at_stage := Relayer.AwaitReceipt "0xbb" |} ]
    /\ is_Some (Relayer.pendingTxs (Relayer.registries s) !! "0xaa")
    /\ is_Some (Relayer.pendingTxs (Relayer.registries s) !! "0xbb").
Proof.
  apply (concurrent_duplicates_are_both_submitted Samples.recover_tagged
           Samples.no_string_is_number 1000000 Relayer.initial (Samples.intent 7 2000)
           [] "0xaa" "0xbb" sample_accepted).
  discriminate.
Defined.

Lemma relayed_claim_credits_the_wallet_witness :
  exists srv c proof32,
    ProofServer.start Samples.checksum32 Samples.default_whitelist = Some srv
    /\ Security.relayed_claim Scenarios.alice_account 100
         (MerkleTreeJS.getHexProof (ProofServer.tree srv) Scenarios.alice_leaf) = Some c
    /\ c = Airdrop.Claim Scenarios.alice_account 100 proof32
    /\ match Airdrop.exec Samples.checksum32
               (Airdrop.constructor 1 (MerkleTreeJS.getRoot (ProofServer.tree srv))) c with
       | Airdrop.Revert _ => False
       | Airdrop.Success st' logs =>
           logs = [Airdrop.Claimed Scenarios.alice_account 100]
           /\ Airdrop.claimed_at st' Scenarios.alice_account = true
           /\ Airdrop.claimed_at st' 5 = false
       end.
Proof.
  started_server srv E.
  destruct (Security.relayed_claim Scenarios.alice_account 100
              (MerkleTreeJS.getHexProof (ProofServer.tree srv) Scenarios.alice_leaf))
    as [c|] eqn:Hc; [| vm_compute in Hc; discriminate Hc].
  destruct (relayed_claim_credits_the_wallet Samples.checksum32 checksum32_length
              Samples.default_whitelist srv
              (Airdrop.constructor 1 (MerkleTreeJS.getRoot (ProofServer.tree srv)))
              Scenarios.alice_account 100 _ c
              E ltac:(vm_compute; reflexivity) eq_refl Hc)
    as (proof32 & _ & Hcall & Hexec).
  exists srv, c, proof32. split; [exact E |]. split; [exact Hc |].
  split; [exact Hcall |].
  destruct (Airdrop.exec Samples.checksum32
              (Airdrop.constructor 1 (MerkleTreeJS.getRoot (ProofServer.tree srv))) c)
    as [reason | st' logs] eqn:Hrun.
  - vm_compute in Hc. injection Hc as <-. vm_compute in Hrun. discriminate Hrun.
  - destruct Hexec as (Hlogs & _ & Hflag & Hothers & _).
    split; [exact Hlogs |]. split; [exact Hflag |].
    rewrite Hothers by (vm_compute; discriminate). reflexivity.
Defined.

Lemma only_the_owner_changes_the_root_witness :
  Airdrop.owner
    (Airdrop.run Samples.checksum32 (Airdrop.constructor 1 Samples.leaf5)
       Scenarios.strangers).1 = 1
  /\ Airdrop.merkleRoot
       (Airdrop.run Samples.checksum32 (Airdrop.constructor 1 Samples.leaf5)
          Scenarios.strangers).1 = Samples.leaf5.
Proof.
  apply (only_the_owner_changes_the_root Samples.checksum32
           (Airdrop.constructor 1 Samples.leaf5) Scenarios.strangers).
  repeat constructor; simpl; lia.
Defined.

Lemma deploy_and_server_encode_alike_witness :
  DeployScript.encodeLeaf "0x70997970C51812dc3A010C7d01b50e0d17dc79C8" "100"
  = Some (Airdrop.encodePacked Scenarios.alice_account 100)
  /\ ProofServer.encodeLeaf (JS.toLowerCase "0x70997970C51812dc3A010C7d01b50e0d17dc79C8") "100"
     = Some (Airdrop.encodePacked Scenarios.alice_account 100).
Proof.
  destruct (deploy_and_server_encode_alike "0x70997970C51812dc3A010C7d01b50e0d17dc79C8"
              "100" Scenarios.alice_digits eq_refl eq_refl eq_refl
              ltac:(discriminate) eq_refl) as (n & _ & Hbig & Hfits & _).
  vm_compute in Hbig. injection Hbig as <-.
  destruct Hfits as [Hd Hs]; [lia |].
  split; [rewrite Hd | rewrite Hs]; vm_compute; reflexivity.
Defined.

(** ** The dashboard's helpers: lemmas *)

Section DashboardFacts.
Import JS Dashboard.

(** X14: [truncateUrl] returns the URL itself when it has at most
    [maxLength] characters; a longer URL becomes, for a limit of at least
    three, its first [maxLength - 3] characters and three dots, exactly
    [maxLength] characters in all, and for a smaller limit the three dots
    alone, which is more than the limit. *)
Theorem truncateUrl_fits (url : string) (maxLength : Z) :
  (Z.of_nat (length (chars url)) <= maxLength -> truncateUrl url maxLength = url)
  /\ (maxLength < Z.of_nat (length (chars url)) ->
      (3 <= maxLength ->
       chars (truncateUrl url maxLength)
       = take (Z.to_nat (maxLength - 3)) (chars url) ++ chars "..."
       /\ Z.of_nat (length (chars (truncateUrl url maxLength))) = maxLength)
      /\ (maxLength < 3 -> truncateUrl url maxLength = "..."%string)).
Proof.
  unfold truncateUrl. split.
  - intros H. by rewrite (proj2 (Z.leb_le _ _) H).
  - intros H. rewrite (proj2 (Z.leb_gt _ _) H).
    rewrite chars_string_of_list_ascii. unfold substring. cbv zeta.
    set (len := Z.of_nat (length (chars url))) in *.
    replace (Z.min (Z.max 0 0) len) with 0 by lia.
    split.
    + intros H3.
      replace (Z.min (Z.max (maxLength - 3) 0) len) with (maxLength - 3) by lia.
      replace (Z.min 0 (maxLength - 3)) with 0 by lia.
      replace (Z.max 0 (maxLength - 3)) with (maxLength - 3) by lia.
      rewrite Z.sub_0_r. change (Z.to_nat 0) with 0%nat. rewrite drop_0.
      split; [reflexivity |].
      rewrite length_app, length_take. simpl length. unfold len in H. lia.
    + intros H3.
      replace (Z.min (Z.max (maxLength - 3) 0) len) with 0 by lia.
      reflexivity.
Qed.

Section LogContainerFacts.
Variables log element : Type.
Variable createEntry : log -> element.

Lemma removeExcess_drop (fuel : nat) : forall children : list element,
  (length children <= 1000 + fuel)%nat ->
  removeExcess element fuel children = drop (length children - 1000) children.
Proof.
  induction fuel as [|f IH]; intros children Hlen.
  - simpl. by replace (length children - 1000)%nat with 0%nat by lia.
  - simpl. destruct (1000 <? length children)%nat eqn:E.
    + apply Nat.ltb_lt in E. destruct children as [|x rest]; [simpl in E; lia |].
      simpl in E, Hlen. simpl tail. rewrite IH by lia.
      simpl length. replace (S (length rest) - 1000)%nat with (S (length rest - 1000)) by lia.
      reflexivity.
    + apply Nat.ltb_ge in E. by replace (length children - 1000)%nat with 0%nat by lia.
Qed.

Lemma addLogEntry_drop (children : list element) (l : log) :
  addLogEntry log element createEntry (Some children) l
  = Some (drop (length (children ++ [createEntry l]) - 1000) (children ++ [createEntry l])).
Proof.
  unfold addLogEntry. f_equal. apply removeExcess_drop. lia.
Qed.

Lemma fold_addLogEntry (logs : list log) : forall children : list element,
  (length children <= 1000)%nat ->
  fold_left (addLogEntry log element createEntry) logs (Some children)
  = Some (drop (length (children ++ map createEntry logs) - 1000)
            (children ++ map createEntry logs)).
Proof.
  induction logs as [|l logs IH]; intros children Hlen.
  - simpl. rewrite app_nil_r.
    by replace (length children - 1000)%nat with 0%nat by lia.
  - cbn [fold_left]. rewrite addLogEntry_drop.
    set (c := children ++ [createEntry l]).
    assert (length c = S (length children)) as Hc
      by (unfold c; rewrite length_app; simpl; lia).
    rewrite IH by (rewrite length_drop; lia).
    replace (children ++ map createEntry (l :: logs)) with (c ++ map createEntry logs)
      by (unfold c; by rewrite <- app_assoc).
    set (M := map createEntry logs).
    destruct (decide (length c <= 1000)%nat) as [Hle | Hgt].
    + replace (length c - 1000)%nat with 0%nat by lia. by rewrite drop_0.
    + replace (length c - 1000)%nat with 1%nat by lia.
      f_equal. rewrite !length_app, length_drop.
      replace (length c - 1 + length M - 1000)%nat with (length M) by lia.
      replace (length c + length M - 1000)%nat with (1 + length M)%nat by lia.
      rewrite <- drop_drop, (drop_app_le c M 1) by lia. reflexivity.
Qed.

(** X15: the log view keeps the newest thousand. After [updateLogs] the
    container holds the entries of the last 1000 logs, in order (all of
    them when there are fewer); and [addLogEntry] on a container of at
    most 1000 entries puts the new entry last, drops the oldest one when
    the container was full, and never leaves more than 1000. *)
Theorem log_view_keeps_the_newest_thousand :
  (forall (old : list element) (logs : list log),
      updateLogs log element createEntry (Some old) logs
      = Some (map createEntry (drop (length logs - 1000) logs)))
  /\ (forall (children : list element) (l : log),
        (length children <= 1000)%nat ->
        exists children',
          addLogEntry log element createEntry (Some children) l = Some children'
          /\ (length children' <= 1000)%nat
          /\ last children' = Some (createEntry l)
          /\ children' = (if decide (length children = 1000%nat)
                          then tail children else children) ++ [createEntry l])
  /\ (forall (logs : list log) (l : log),
        updateLogs log element createEntry None logs = None
        /\ addLogEntry log element createEntry None l = None).
Proof.
  split; [| split].
  - intros old logs. unfold updateLogs.
    rewrite fold_addLogEntry by (simpl; lia).
    simpl app. by rewrite length_map, skipn_map.
  - intros children l Hlen. rewrite addLogEntry_drop. eexists. split; [reflexivity |].
    rewrite length_drop, length_app. simpl length.
    split; [lia |].
    destruct (decide (length children = 1000%nat)) as [Heq | Hne].
    + replace (length children + 1 - 1000)%nat with 1%nat by lia.
      destruct children as [|x rest]; [simpl in Heq; lia |]. simpl.
      rewrite drop_0. split; [by rewrite last_snoc | reflexivity].
    + replace (length children + 1 - 1000)%nat with 0%nat by lia.
      rewrite drop_0. split; [by rewrite last_snoc | reflexivity].
  - intros logs l. split; reflexivity.
Qed.

End LogContainerFacts.

End DashboardFacts.

(** ** The relayer: a failing duplicate *)

Section RelayerRaceFacts.
Import Relayer.

Variable recoverAddress : body -> option string.
Variable StringToNumber_lt : string -> Z -> bool.

(** X16: the [catch] block deletes the nonce whoever added it. When a
    request the synchronous checks accept arrives twice, the second
    invocation goes on to send its transaction, and then the first one's
    [contract.claimed] call fails, the first invocation's [catch] removes
    the nonce the second one had reserved: the second transaction is still
    pending while its nonce is no longer in [usedNonces]. *)
Theorem failing_duplicate_releases_the_nonce (t : Z) (st : state) (req : body)
    (proof : list string) (hash message : string) :
  next (receive recoverAddress StringToNumber_lt t st req) = Some AwaitClaimed ->
  exists s,
    sys_run recoverAddress StringToNumber_lt
      {| registries := st; inflight := []; confirmed := [] |}
      [ Arrive t req; Arrive t req;
        Deliver t 1 (ClaimedAnswer (Resolved false));
        Deliver t 1 (ProofAnswer (Resolved (Some proof)));
        Deliver t 1 (ClaimAnswer (Resolved hash));
        Deliver t 0 (ClaimedAnswer (Rejected message)) ]
    = Some s
    /\ inflight s = [ {| request := req; at_stage := AwaitReceipt hash |} ]
    /\ is_Some (pendingTxs (registries s) !! hash)
    /\ (nonce req ∉ usedNonces (registries s)).
Proof.
  intros Hnext.
  destruct (receive_suspended _ _ _ _ _ _ Hnext) as (_ & Hm & _ & _ & _ & Hrecv).
  pose proof (missing_fields_false req Hm) as (_ & _ & Htruthy & _).
  eexists. split.
  - cbn [Relayer.sys_run Relayer.sys_step registries inflight confirmed mbind
         option_bind app].
    rewrite Hrecv.
    cbn [Relayer.sys_run Relayer.sys_step registries inflight confirmed mbind
         option_bind app store next suspended].
    rewrite Hrecv. cbn. rewrite Htruthy. reflexivity.
  - cbn. split; [reflexivity |]. split.
    + rewrite lookup_insert_eq. by eexists.
    + set_solver.
Qed.

End RelayerRaceFacts.

Lemma failing_duplicate_releases_the_nonce_witness :
  exists s,
    Relayer.sys_run Samples.recover_tagged Samples.no_string_is_number
      {| Relayer.registries := Relayer.initial; Relayer.inflight := [];
         Relayer.confirmed := [] |}
      [ Relayer.Arrive 1000000 (Samples.intent 7 2000);
        Relayer.Arrive 1000000 (Samples.intent 7 2000);
        Relayer.Deliver 1000000 1 (Relayer.ClaimedAnswer (Relayer.Resolved false));
        Relayer.Deliver 1000000 1 (Relayer.ProofAnswer (Relayer.Resolved (Some [])));
        Relayer.Deliver 1000000 1 (Relayer.ClaimAnswer (Relayer.Resolved "0xaa"));
        Relayer.Deliver 1000000 0 (Relayer.ClaimedAnswer (Relayer.Rejected "timeout")) ]
    = Some s
    /\ Relayer.inflight s
       = [ {| Relayer.request := Samples.intent 7 2000;
              Relayer.at_stage := Relayer.AwaitReceipt "0xaa" |} ]
    /\ is_Some (Relayer.pendingTxs (Relayer.registries s) !! "0xaa")
    /\ (Relayer.nonce (Samples.intent 7 2000) ∉ Relayer.usedNonces (Relayer.registries s)).
Proof.
  exact (failing_duplicate_releases_the_nonce Samples.recover_tagged
           Samples.no_string_is_number 1000000 Relayer.initial (Samples.intent 7 2000)
           [] "0xaa" "timeout" sample_accepted).
Defined.
